(** * 3D Word Cloud backend: the keyword-extraction pipeline of [analyzer.py]

    A shallow embedding of [src/Backend/analyzer.py] and the properties its
    specification states about it.

    Modelling conventions.
    - A Python [str] is a list of code points; the embedding covers the code
      points 0..255 (type [ascii]), classified the way CPython classifies
      them ([str.isspace], [str.isalnum], [str.lower], and the classes
      [\s], [\w], [\d] of the [re] module on [str] patterns).
    - The regular expressions of [preprocess_text] are run by a small
      backtracking matcher ([Re]) with Python's leftmost, greedy,
      ordered-choice semantics and the non-overlapping scan of [re.sub].
    - A Python [dict] is an association list in insertion order (the order is
      observable through [sorted], which is stable).
    - A Python [float] is the rational it denotes ([Q]).  Division rounds
      the exact quotient to binary64 (round to nearest, ties to even, the
      exponent range left unbounded); [round(x, 3)] is the nearest thousandth
      of the exact value of [x], ties to even, and stands for the float
      nearest to it.
    - Calls into NLTK and scikit-learn are the fields of the class [NLP];
      each may raise.  [try ... except Exception] is [try_except].
    - [scraper.py] and the endpoint of [main.py] follow the analyzer.  Calls
      into [requests] and BeautifulSoup are the fields of the class [Web];
      a parsed document is a state, which [decompose] updates. *)

From Stdlib Require Import Ascii String Bool Arith ZArith NArith QArith Qround Qpower Lia.
From Stdlib Require Import List Sorting.Permutation Sorting.Sorted.
Import ListNotations.
Local Open Scope list_scope.

(** ** Python strings over the code points 0..255 *)

Definition str := list ascii.

Module PyStr.

Definition lit (s : string) : str := list_ascii_of_string s.

Definition code (c : ascii) : N := N_of_ascii c.

Definition in_range (lo hi : N) (c : ascii) : bool :=
  (lo <=? code c)%N && (code c <=? hi)%N.

Definition is_code (n : N) (c : ascii) : bool := (code c =? n)%N.

(** [Py_UNICODE_ISSPACE]: TAB..CR, FS..US, SPACE, NEL, NBSP. *)
Definition is_space (c : ascii) : bool :=
  in_range 9 13 c || in_range 28 32 c || is_code 133 c || is_code 160 c.

Definition nonspace (c : ascii) : bool := negb (is_space c).

(** [Py_UNICODE_ISDECIMAL], the class [\d]. *)
Definition is_decimal (c : ascii) : bool := in_range 48 57 c.

(** [str.isalpha]: categories Lu, Ll, Lo of the first 256 code points. *)
Definition is_alpha (c : ascii) : bool :=
  in_range 65 90 c || in_range 97 122 c
  || is_code 170 c || is_code 181 c || is_code 186 c
  || in_range 192 214 c || in_range 216 246 c || in_range 248 255 c.

(** Decimal digits, superscript digits and vulgar fractions. *)
Definition is_numeric (c : ascii) : bool :=
  is_decimal c || is_code 178 c || is_code 179 c || is_code 185 c
  || in_range 188 190 c.

Definition is_alnum (c : ascii) : bool := is_alpha c || is_numeric c.

(** The class [\w]: alphanumeric or underscore. *)
Definition is_word (c : ascii) : bool := is_alnum c || is_code 95 c.

(** The class [[a-zA-Z]]. *)
Definition is_ascii_letter (c : ascii) : bool :=
  in_range 65 90 c || in_range 97 122 c.

Definition is_upper (c : ascii) : bool :=
  in_range 65 90 c || in_range 192 214 c || in_range 216 222 c.

Definition lower_char (c : ascii) : ascii :=
  if is_upper c then ascii_of_N (code c + 32) else c.

(** [str.lower()] *)
Definition lower (s : str) : str := map lower_char s.

Fixpoint lstrip (s : str) : str :=
  match s with
  | [] => []
  | c :: s' => if is_space c then lstrip s' else s
  end.

Fixpoint rstrip (s : str) : str :=
  match s with
  | [] => []
  | c :: s' =>
      match rstrip s' with
      | [] => if is_space c then [] else [c]
      | r => c :: r
      end
  end.

(** [str.strip()] *)
Definition strip (s : str) : str := lstrip (rstrip s).

(** [str.split(sep)] for a one-character separator: never the empty list. *)
Fixpoint split (sep : ascii) (s : str) : list str :=
  match s with
  | [] => [[]]
  | c :: s' =>
      if Ascii.eqb c sep then [] :: split sep s'
      else match split sep s' with
           | [] => [[c]]
           | p :: ps => (c :: p) :: ps
           end
  end.

(** [str.replace(a, b)] for one-character [a] and [b]. *)
Definition replace (a b : ascii) (s : str) : str :=
  map (fun c => if Ascii.eqb c a then b else c) s.

Definition str_eqb (a b : str) : bool :=
  if list_eq_dec ascii_dec a b then true else false.

Definition mem (w : str) (l : list str) : bool := existsb (str_eqb w) l.

End PyStr.

(** ** The fragment of Python's [re] used by the source *)

Module Re.
Import PyStr.

Inductive atom : Type :=
| Chr (c : ascii)               (* a literal character *)
| Cls (p : ascii -> bool)       (* one character of a class *)
| Plus (p : ascii -> bool)      (* class+, greedy *)
| WordB.                        (* \b *)

(** A branch is a concatenation; a regex is an alternation of branches,
    tried left to right. *)
Definition branch := list atom.
Definition regex := list branch.

Definition chars (s : string) : branch := map Chr (lit s).

Definition word_opt (o : option ascii) : bool :=
  match o with Some c => is_word c | None => false end.

(** [\b] holds where exactly one of the two neighbours is a word character. *)
Definition at_boundary (prev : option ascii) (s : str) : bool :=
  xorb (word_opt prev) (word_opt (hd_error s)).

(** [match_branch r prev s]: the number of characters consumed by the first
    match of [r] at the head of [s] in backtracking order, [prev] being the
    character just before [s]. *)
Fixpoint match_branch (r : branch) (prev : option ascii) (s : str) {struct r}
  : option nat :=
  match r with
  | [] => Some 0%nat
  | Chr c :: r' =>
      match s with
      | a :: s' => if Ascii.eqb a c then option_map S (match_branch r' (Some a) s')
                   else None
      | [] => None
      end
  | Cls p :: r' =>
      match s with
      | a :: s' => if p a then option_map S (match_branch r' (Some a) s')
                   else None
      | [] => None
      end
  | WordB :: r' =>
      if at_boundary prev s then match_branch r' prev s else None
  | Plus p :: r' =>
      (fix plus (s : str) {struct s} : option nat :=
         match s with
         | a :: s' =>
             if p a then
               match plus s' with
               | Some n => Some (S n)
               | None => option_map S (match_branch r' (Some a) s')
               end
             else None
         | [] => None
         end) s
  end.

Fixpoint match_regex (r : regex) (prev : option ascii) (s : str) : option nat :=
  match r with
  | [] => None
  | b :: r' =>
      match match_branch b prev s with
      | Some n => Some n
      | None => match_regex r' prev s
      end
  end.

(** The scan of [re.sub]: [skip] characters of the current match are still
    to be dropped.  An empty match inserts the replacement and copies the
    character. *)
Fixpoint sub_from (r : regex) (repl : str) (skip : nat) (prev : option ascii)
  (s : str) : str :=
  match s with
  | [] =>
      match skip, match_regex r prev [] with
      | O, Some _ => repl
      | _, _ => []
      end
  | a :: s' =>
      match skip with
      | S k => sub_from r repl k (Some a) s'
      | O =>
          match match_regex r prev s with
          | Some (S k) => repl ++ sub_from r repl k (Some a) s'
          | Some O => repl ++ a :: sub_from r repl O (Some a) s'
          | None => a :: sub_from r repl O (Some a) s'
          end
      end
  end.

(** [re.sub(r, repl, s)] *)
Definition sub (r : regex) (repl : str) (s : str) : str :=
  sub_from r repl 0 None s.

End Re.

(** ** [preprocess_text] *)

Module Patterns.
Import PyStr Re.

(** [r'http\S+|www\S+'] *)
Definition url : regex :=
  [ chars "http" ++ [Plus nonspace]; chars "www" ++ [Plus nonspace] ].

(** [r'\S+@\S+'] *)
Definition email : regex := [ [Plus nonspace; Chr "@"; Plus nonspace] ].

(** [r'\b\d+\b'] *)
Definition number : regex := [ [WordB; Plus is_decimal; WordB] ].

(** [r'[^\w\s]'] *)
Definition special : regex := [ [Cls (fun c => negb (is_word c || is_space c))] ].

(** [r'\s+'] *)
Definition spaces : regex := [ [Plus is_space] ].

(** [r'\b[a-zA-Z]{3,}\b'], the [token_pattern] of the vectorizer: three or
    more letters are two letters and then [letter+]. *)
Definition token : regex :=
  [ [WordB; Cls is_ascii_letter; Cls is_ascii_letter; Plus is_ascii_letter; WordB] ].

End Patterns.

Definition preprocess_text (text : str) : str :=
  let text := PyStr.lower text in
  let text := Re.sub Patterns.url [] text in
  let text := Re.sub Patterns.email [] text in
  let text := Re.sub Patterns.number [] text in
  let text := Re.sub Patterns.special (PyStr.lit " ") text in
  let text := Re.sub Patterns.spaces (PyStr.lit " ") text in
  PyStr.strip text.


(** ** Exceptions *)

Inductive result (A : Type) : Type :=
| Ok (a : A)
| Raise.

Arguments Ok {A} a.
Arguments Raise {A}.

Definition bind {A B : Type} (m : result A) (f : A -> result B) : result B :=
  match m with
  | Ok a => f a
  | Raise => Raise
  end.

(** [try: body  except Exception: handler] *)
Definition try_except {A : Type} (body handler : result A) : result A :=
  match body with
  | Ok a => Ok a
  | Raise => handler
  end.

Declare Scope py_scope.
Delimit Scope py_scope with py.
Notation "x <- m ;; k" := (bind m (fun x => k))
  (at level 61, m at next level, right associativity) : py_scope.

Fixpoint mapM {A B : Type} (f : A -> result B) (l : list A) : result (list B) :=
  match l with
  | [] => Ok []
  | x :: l' =>
      match f x with
      | Ok y => match mapM f l' with Ok ys => Ok (y :: ys) | Raise => Raise end
      | Raise => Raise
      end
  end.

(** ** Python built-ins *)

Module Py.

(** [l[:n]]: the first [n] items, or all but the last [-n] when [n < 0]. *)
Definition slice_to {A : Type} (n : Z) (l : list A) : list A :=
  if (0 <=? n)%Z then firstn (Z.to_nat n) l
  else firstn (length l - Z.to_nat (- n)) l.

(** [sorted(l, key=..., reverse=True)]: a stable descending sort; [le a b]
    compares the keys.  Items with equal keys keep their order. *)
Fixpoint insert_desc {A : Type} (le : A -> A -> bool) (x : A) (l : list A)
  : list A :=
  match l with
  | [] => [x]
  | y :: l' => if le y x then x :: l else y :: insert_desc le x l'
  end.

Fixpoint sorted_desc {A : Type} (le : A -> A -> bool) (l : list A) : list A :=
  match l with
  | [] => []
  | x :: l' => insert_desc le x (sorted_desc le l')
  end.

(** Two items have equal keys. *)
Definition equiv_keys {A : Type} (le : A -> A -> bool) (x y : A) : bool :=
  le x y && le y x.

(** Descending: an item is at least as large as the ones after it. *)
Definition desc {A : Type} (le : A -> A -> bool) (a b : A) : Prop := le b a = true.

(** Rounding to the nearest integer, ties to even. *)
Definition round_half_even (q : Q) : Z :=
  let f := Qfloor q in
  match ((q - inject_Z f) ?= (1 # 2))%Q with
  | Lt => f
  | Gt => (f + 1)%Z
  | Eq => if Z.even f then f else (f + 1)%Z
  end.

(** [round(x, 3)] *)
Definition round3 (q : Q) : Q := Qred (Qmake (round_half_even (q * 1000)%Q) 1000).

Definition pow2 (k : Z) : Q := (2 ^ k)%Q.

(** The binary exponent of a positive rational: [2^e <= q < 2^(e+1)]. *)
Definition ilog2 (q : Q) : Z :=
  let e := (Z.log2 (Qnum q) - Z.log2 (Zpos (Qden q)))%Z in
  if Qle_bool (pow2 e) q then e else (e - 1)%Z.

(** The nearest number with a 53-bit significand, ties to even. *)
Definition nearest53 (q : Q) : Q :=
  let u := (ilog2 q - 52)%Z in
  (inject_Z (round_half_even (q / pow2 u)) * pow2 u)%Q.

(** A real number as a [float]: rounded to binary64 (the exponent range is
    left unbounded). *)
Definition binary64 (q : Q) : Q :=
  match (0 ?= q)%Q with
  | Lt => nearest53 q
  | Eq => 0%Q
  | Gt => (- nearest53 (- q))%Q
  end.

(** [x / y] on floats. *)
Definition float_div (x y : Q) : Q := binary64 (x / y)%Q.

(** [a / b] on integers: true division, [ZeroDivisionError] when [b = 0]. *)
Definition true_div (a b : Z) : result Q :=
  if (b =? 0)%Z then Raise else Ok (float_div (inject_Z a) (inject_Z b)).

Definition Qlt_bool (a b : Q) : bool := negb (Qle_bool b a).

(** A [dict] with [str] keys, in insertion order. *)
Definition dict (V : Type) := list (str * V).

Fixpoint dict_get {V : Type} (d : dict V) (k : str) (default : V) : V :=
  match d with
  | [] => default
  | (k', v) :: d' => if PyStr.str_eqb k' k then v else dict_get d' k default
  end.

(** [d[k] = v]: an existing key keeps its position, a new key goes last. *)
Fixpoint dict_set {V : Type} (d : dict V) (k : str) (v : V) : dict V :=
  match d with
  | [] => [(k, v)]
  | (k', v') :: d' =>
      if PyStr.str_eqb k' k then (k', v) :: d' else (k', v') :: dict_set d' k v
  end.

End Py.

(** ** The libraries the module calls *)

(** The arguments of the [TfidfVectorizer] constructor. *)
Record TfidfVectorizer : Type := {
  max_features : Z;
  stop_words : list str;
  ngram_range : nat * nat;
  min_df : Z;
  max_df : Q;
  token_pattern : Re.regex
}.

Class NLP : Type := {
  (** [nltk.corpus.stopwords.words('english')] *)
  stopwords_english : list str;
  (** [nltk.tokenize.word_tokenize] *)
  word_tokenize : str -> result (list str);
  (** [nltk.tokenize.sent_tokenize] *)
  sent_tokenize : str -> result (list str);
  (** [vectorizer.fit_transform(docs)], [get_feature_names_out()] and the
      column means of the matrix: the feature names zipped with their mean
      TF-IDF scores. *)
  tfidf_mean_scores : TfidfVectorizer -> list str -> result (list (str * Q))
}.

(** ** The analyzer *)

Record WordData : Type := {
  word : str;
  weight : Q;
  frequency : Z
}.

Record Analysis : Type := {
  words : list WordData;
  word_count : Z
}.

Definition STOP_WORDS_EXTENSION : list str :=
  map PyStr.lit
    [ "said"; "say"; "says"; "would"; "could"; "also"; "may"; "might";
      "one"; "two"; "three"; "first"; "second"; "new"; "like"; "well";
      "get"; "got"; "make"; "made"; "take"; "taken"; "go"; "going";
      "come"; "coming"; "see"; "seen"; "know"; "known"; "think"; "thought";
      "tell"; "told"; "find"; "found"; "give"; "given"; "use"; "used";
      "want"; "wanted"; "look"; "looked"; "year"; "years"; "time"; "times";
      "people"; "person"; "thing"; "things"; "way"; "ways"; "day"; "days" ]%string.

Section Analyzer.
Context {nlp : NLP}.
Import Py.
Local Open Scope py_scope.
Local Open Scope Z_scope.

Definition STOP_WORDS : list str := stopwords_english ++ STOP_WORDS_EXTENSION.

(** The loop body of [get_word_frequencies]. *)
Definition count_word (freq_dict : dict Z) (w : str) : dict Z :=
  if (3 <=? length w)%nat && negb (PyStr.mem w STOP_WORDS)
  then dict_set freq_dict w (dict_get freq_dict w 0 + 1)
  else freq_dict.

Definition get_word_frequencies (text : str) : result (dict Z) :=
  try_except
    (tokens <- word_tokenize text ;;
     Ok (fold_left count_word tokens []))
    (Ok []).

Definition by_count (a b : str * Z) : bool := snd a <=? snd b.

Definition frequency_item (max_freq : Z) (item : str * Z) : result WordData :=
  w <- true_div (snd item) max_freq ;;
  Ok {| word := fst item; weight := round3 w; frequency := snd item |}.

Definition extract_keywords_frequency (text : str) (max_words : Z)
  : result (list WordData) :=
  try_except
    (word_freq <- get_word_frequencies text ;;
     let sorted_words := sorted_desc by_count word_freq in
     let top_words := slice_to max_words sorted_words in
     match top_words with
     | [] => Ok []
     | (_, max_freq) :: _ => mapM (frequency_item max_freq) top_words
     end)
    (Ok []).

(** The fallback segmentation: [text.split('.')], stripped, keeping the
    pieces longer than 20 characters. *)
Definition split_periods (text : str) : list str :=
  map PyStr.strip
    (filter (fun s => (20 <? length (PyStr.strip s))%nat) (PyStr.split "." text)).

Definition make_vectorizer (max_words : Z) : TfidfVectorizer :=
  {| max_features := max_words * 3;
     stop_words := STOP_WORDS;
     ngram_range := (1%nat, 2%nat);
     min_df := 1;
     max_df := (95 # 100)%Q;
     token_pattern := Patterns.token |}.

(** One pass of the loop that builds [word_data]. *)
Definition score_item (word_freq : dict Z) (f : str * Q) : list WordData :=
  if Qlt_bool 0 (snd f)
  then [ {| word := PyStr.replace " " "_" (fst f);
            weight := snd f;
            frequency := dict_get word_freq (fst f) 1 |} ]
  else [].

Definition by_weight (a b : WordData) : bool := Qle_bool (weight a) (weight b).

Definition set_weight (item : WordData) (w : Q) : WordData :=
  {| word := word item; weight := w; frequency := frequency item |}.

Definition normalize_weights (word_data : list WordData) : list WordData :=
  match word_data with
  | [] => word_data
  | top :: _ =>
      let max_weight := weight top in
      if Qlt_bool 0 max_weight
      then map (fun item => set_weight item (round3 (float_div (weight item) max_weight)))
               word_data
      else word_data
  end.

(** Both segmentations of [extract_keywords_tfidf]. *)
Definition segment (text : str) : result (list str) :=
  sentences <- sent_tokenize text ;;
  Ok (if (length sentences <? 3)%nat then split_periods text else sentences).

(** The scored, sorted and normalised candidates, before the final cut. *)
Definition tfidf_candidates (text : str) (features : list (str * Q))
  : result (list WordData) :=
  word_freq <- get_word_frequencies text ;;
  let word_data := flat_map (score_item word_freq) features in
  let word_data := sorted_desc by_weight word_data in
  Ok (normalize_weights word_data).

(** The [try] block of [extract_keywords_tfidf]. *)
Definition tfidf_body (text : str) (max_words : Z) : result (list WordData) :=
  sentences <- segment text ;;
  if (length sentences <? 2)%nat
  then extract_keywords_frequency text max_words
  else
    features <- tfidf_mean_scores (make_vectorizer max_words) sentences ;;
    word_data <- tfidf_candidates text features ;;
    Ok (slice_to max_words word_data).

Definition extract_keywords_tfidf (text : str) (max_words : Z)
  : result (list WordData) :=
  try_except (tfidf_body text max_words)
             (extract_keywords_frequency text max_words).

(** [None] is both failure returns of the source. *)
Definition analyze_text (text : str) (max_words : Z) : result (option Analysis) :=
  try_except
    (let cleaned_text := preprocess_text text in
     match cleaned_text with
     | [] => Ok None
     | _ =>
         tokens <- word_tokenize (PyStr.lower cleaned_text) ;;
         let word_count := Z.of_nat (length tokens) in
         keywords <- extract_keywords_tfidf cleaned_text max_words ;;
         match keywords with
         | [] => Ok None
         | _ => Ok (Some {| words := keywords; word_count := word_count |})
         end
     end)
    (Ok None).

End Analyzer.

(** ** A reference environment

    A small executable stand-in for NLTK and scikit-learn, used to run the
    analyzer on concrete inputs.  The word tokenizer separates words and
    punctuation marks, the sentence tokenizer splits after sentence-final
    punctuation; the vectorizer follows the vocabulary rules of
    its configuration and scores a term by its mean count per document. *)

Module Demo.
Import PyStr.

(** The English stop words of the NLTK corpus. *)
Definition english : list str :=
  map lit
    [ "i"; "me"; "my"; "myself"; "we"; "our"; "ours"; "ourselves"; "you";
      "you're"; "you've"; "you'll"; "you'd"; "your"; "yours"; "yourself";
      "yourselves"; "he"; "him"; "his"; "himself"; "she"; "she's"; "her";
      "hers"; "herself"; "it"; "it's"; "its"; "itself"; "they"; "them";
      "their"; "theirs"; "themselves"; "what"; "which"; "who"; "whom";
      "this"; "that"; "that'll"; "these"; "those"; "am"; "is"; "are"; "was";
      "were"; "be"; "been"; "being"; "have"; "has"; "had"; "having"; "do";
      "does"; "did"; "doing"; "a"; "an"; "the"; "and"; "but"; "if"; "or";
      "because"; "as"; "until"; "while"; "of"; "at"; "by"; "for"; "with";
      "about"; "against"; "between"; "into"; "through"; "during"; "before";
      "after"; "above"; "below"; "to"; "from"; "up"; "down"; "in"; "out";
      "on"; "off"; "over"; "under"; "again"; "further"; "then"; "once";
      "here"; "there"; "when"; "where"; "why"; "how"; "all"; "any"; "both";
      "each"; "few"; "more"; "most"; "other"; "some"; "such"; "no"; "nor";
      "not"; "only"; "own"; "same"; "so"; "than"; "too"; "very"; "s"; "t";
      "can"; "will"; "just"; "don"; "don't"; "should"; "should've"; "now";
      "d"; "ll"; "m"; "o"; "re"; "ve"; "y"; "ain"; "aren"; "aren't";
      "couldn"; "couldn't"; "didn"; "didn't"; "doesn"; "doesn't"; "hadn";
      "hadn't"; "hasn"; "hasn't"; "haven"; "haven't"; "isn"; "isn't"; "ma";
      "mightn"; "mightn't"; "mustn"; "mustn't"; "needn"; "needn't"; "shan";
      "shan't"; "shouldn"; "shouldn't"; "wasn"; "wasn't"; "weren";
      "weren't"; "won"; "won't"; "wouldn"; "wouldn't" ]%string.

(** The maximal runs of characters of class [p]; [cur] is the run being
    read. *)
Fixpoint runs_from (p : ascii -> bool) (cur : str) (s : str) : list str :=
  match s with
  | [] => match cur with [] => [] | _ => [cur] end
  | c :: s' =>
      if p c then runs_from p (cur ++ [c]) s'
      else match cur with
           | [] => runs_from p [] s'
           | _ => cur :: runs_from p [] s'
           end
  end.

Definition runs (p : ascii -> bool) (s : str) : list str := runs_from p [] s.

(** Words are runs of word characters; any other visible character is a
    token of its own. *)
Fixpoint word_tokens_from (cur : str) (s : str) : list str :=
  let flush := match cur with [] => [] | _ => [cur] end in
  match s with
  | [] => flush
  | c :: s' =>
      if is_word c then word_tokens_from (cur ++ [c]) s'
      else if is_space c then flush ++ word_tokens_from [] s'
      else flush ++ [c] :: word_tokens_from [] s'
  end.

Definition word_tokens (text : str) : list str := word_tokens_from [] text.

Definition sentence_end (c : ascii) : bool :=
  Ascii.eqb c "." || Ascii.eqb c "!" || Ascii.eqb c "?".

Fixpoint sentences_from (cur : str) (s : str) : list str :=
  match s with
  | [] => match strip cur with [] => [] | t => [t] end
  | c :: s' =>
      if sentence_end c && match s' with [] => true | d :: _ => is_space d end
      then strip (cur ++ [c]) :: sentences_from [] s'
      else sentences_from (cur ++ [c]) s'
  end.

Definition sentences_of (text : str) : list str := sentences_from [] text.

(** The tokens of one document: [token_pattern], then the stop list. *)
Definition doc_tokens (stop : list str) (doc : str) : list str :=
  filter (fun t => forallb is_ascii_letter t && (3 <=? length t)%nat
                   && negb (mem t stop))
         (runs is_word (lower doc)).

Fixpoint bigrams (ts : list str) : list str :=
  match ts with
  | a :: ((b :: _) as rest) => (a ++ lit " " ++ b) :: bigrams rest
  | _ => []
  end.

Definition doc_terms (stop : list str) (doc : str) : list str :=
  let ts := doc_tokens stop doc in ts ++ bigrams ts.

Fixpoint dedup (seen : list str) (l : list str) : list str :=
  match l with
  | [] => []
  | x :: l' => if mem x seen then dedup seen l' else x :: dedup (x :: seen) l'
  end.

Definition count (t : str) (l : list str) : nat :=
  length (filter (str_eqb t) l).

Definition doc_frequency (t : str) (docs : list (list str)) : nat :=
  length (filter (mem t) docs).

Definition toy_tfidf (v : TfidfVectorizer) (docs : list str)
  : result (list (str * Q)) :=
  if (max_features v <=? 0)%Z then Raise
  else
    let terms := map (doc_terms (stop_words v)) docs in
    let n := length docs in
    let vocabulary :=
      filter (fun t => Qle_bool (inject_Z (Z.of_nat (doc_frequency t terms)))
                                (max_df v * inject_Z (Z.of_nat n)))
             (dedup [] (concat terms)) in
    match firstn (Z.to_nat (max_features v)) vocabulary with
    | [] => Raise
    | vocabulary =>
        Ok (map (fun t => (t, Qred (Z.of_nat (count t (concat terms))
                                    # Pos.of_nat n)))
                vocabulary)
    end.

#[export] Instance env : NLP := {|
  stopwords_english := english;
  word_tokenize := fun text => Ok (word_tokens text);
  sent_tokenize := fun text => Ok (sentences_of text);
  tfidf_mean_scores := toy_tfidf
|}.

(** An environment in which the sentence tokenizer and the vectorizer
    raise. *)
Definition failing : NLP := {|
  stopwords_english := english;
  word_tokenize := fun text => Ok (word_tokens text);
  sent_tokenize := fun _ => Raise;
  tfidf_mean_scores := fun _ _ => Raise
|}.

End Demo.

(** ** What the specification says, in its own terms *)

Module Spec.
Import PyStr.

(** The distinct items of a list, in the order of their first occurrence. *)
Fixpoint first_occurrences (l : list str) : list str :=
  match l with
  | [] => []
  | x :: l' => x :: filter (fun y => negb (str_eqb x y)) (first_occurrences l')
  end.

Definition occurrences (w : str) (l : list str) : Z :=
  Z.of_nat (length (filter (str_eqb w) l)).

Section WithStopWords.
Context {nlp : NLP}.

(** A token is counted when it has at least 3 characters and is no stop
    word. *)
Definition counted (w : str) : bool :=
  (3 <=? length w)%nat && negb (mem w STOP_WORDS).

(** WordFrequencyMap: each counted token with its number of occurrences,
    in first-occurrence order. *)
Definition word_frequency_map (tokens : list str) : Py.dict Z :=
  let kept := filter counted tokens in
  map (fun w => (w, occurrences w kept)) (first_occurrences kept).

(** The WordFrequencyMap of a text; empty when tokenizing fails. *)
Definition document_frequencies (text : str) : Py.dict Z :=
  match word_tokenize text with
  | Ok tokens => word_frequency_map tokens
  | Raise => []
  end.

End WithStopWords.

(** The typed failures of the specification's [analyze]. *)
Inductive failure : Type :=
| EmptyContent
| NoKeywordsExtracted
| InternalError.

(** A token of the vectorizer: a piece of a document that [token_pattern]
    matches, [prev] being the character before it and [rest] what follows
    it. *)
Definition token_of (pattern : Re.regex) (t : str) : Prop :=
  exists prev rest, Re.match_regex pattern prev (t ++ rest) = Some (length t).

(** What the configuration of a vectorizer asks of a feature name: it is
    made of tokens joined by single spaces, as many as [ngram_range] allows;
    each is a token of [token_pattern] and none is in [stop_words]. *)
Definition feature_ok (v : TfidfVectorizer) (f : str) : Prop :=
  let parts := split " " f in
  (fst (ngram_range v) <= length parts <= snd (ngram_range v))%nat /\
  Forall (fun t => token_of (token_pattern v) t /\ ~ In t (stop_words v)) parts.









(** A keyword of the fallback path: weight = count / top count, rounded. *)
Definition keyword_of (top : Z) (item : str * Z) : WordData :=
  {| word := fst item;
     weight := Py.round3 (Py.float_div (inject_Z (snd item)) (inject_Z top));
     frequency := snd item |}.

Definition top_count (items : list (str * Z)) : Z :=
  match items with
  | (_, c) :: _ => c
  | [] => 1
  end.

(** Weights in descending order. *)
Definition descending (l : list WordData) : Prop :=
  StronglySorted (fun a b => weight b <= weight a) l.

(** A weight in [0,1] with at most three decimals. *)
Definition unit_weight (k : WordData) : Prop :=
  0 <= weight k /\ weight k <= 1 /\ exists m : Z, weight k == m # 1000.

(** The invariant of a non-empty KeywordResult sequence. *)
Definition normalized (l : list WordData) : Prop :=
  descending l /\ Forall unit_weight l /\
  exists top rest, l = top :: rest /\ weight top = 1.

End Spec.

(** ** The Normalizer, step by step

    The steps of section 4.1 of the specification, on the maximal runs of a
    text: tokens are runs of visible characters, words are runs of word
    characters. *)

Module Normal.
Import PyStr.


(** Two characters are in the same run when the class agrees on them. *)
Definition same_class (p : ascii -> bool) (c d : ascii) : bool :=
  Bool.eqb (p c) (p d).

(** The maximal runs of characters on which [p] is constant, in order. *)
Fixpoint group (p : ascii -> bool) (s : str) : list str :=
  match s with
  | [] => []
  | c :: s' =>
      match group p s' with
      | (d :: g) :: gs =>
          if same_class p c d then (c :: d :: g) :: gs else [c] :: (d :: g) :: gs
      | _ => [[c]]
      end
  end.

(** The first run of class [b] and what follows it. *)
Fixpoint take_run (p : ascii -> bool) (b : bool) (s : str) : str :=
  match s with
  | c :: s' => if Bool.eqb (p c) b then c :: take_run p b s' else []
  | [] => []
  end.

Fixpoint drop_run (p : ascii -> bool) (b : bool) (s : str) : str :=
  match s with
  | c :: s' => if Bool.eqb (p c) b then drop_run p b s' else s
  | [] => []
  end.

Fixpoint after_prefix (p s : str) : option str :=
  match p with
  | [] => Some s
  | a :: p' =>
      match s with
      | c :: s' => if Ascii.eqb c a then after_prefix p' s' else None
      | [] => None
      end
  end.

Definition then_nonspace (r : option str) : bool :=
  match r with
  | Some (c :: _) => nonspace c
  | _ => false
  end.

(** A URL-like substring starts here: [http] or [www] and one more visible
    character. *)
Definition url_start (s : str) : bool :=
  then_nonspace (after_prefix (lit "http") s)
  || then_nonspace (after_prefix (lit "www") s).

(** A token up to its first URL start. *)
Fixpoint cut_url (token : str) : str :=
  match token with
  | [] => []
  | c :: token' => if url_start token then [] else c :: cut_url token'
  end.

Definition remove_urls (s : str) : str :=
  concat (map cut_url (group nonspace s)).

Definition at_then_more (s : str) : bool :=
  match s with
  | c :: _ :: _ => Ascii.eqb c "@"
  | _ => false
  end.

(** [nonspace@nonspace]: an [@] with a character before and one after. *)
Fixpoint email_like (token : str) : bool :=
  match token with
  | [] => false
  | _ :: token' => at_then_more token' || email_like token'
  end.

Definition remove_emails (s : str) : str :=
  concat (filter (fun g => negb (email_like g)) (group nonspace s)).

(** A standalone integer: a whole run of word characters, all digits. *)
Definition all_digits (g : str) : bool := forallb is_decimal g.

Definition remove_numbers (s : str) : str :=
  concat (filter (fun g => negb (all_digits g)) (group is_word s)).

Definition replace_unless (keep : ascii -> bool) (s : str) : str :=
  map (fun c => if keep c then c else " "%char) s.

Definition squash (g : str) : str :=
  match g with
  | c :: _ => if is_space c then lit " " else g
  | [] => []
  end.

Definition collapse (s : str) : str := concat (map squash (group is_space s)).

(** Letter, digit or white space, as the specification words it. *)
Definition letter_digit_space (c : ascii) : bool :=
  is_alpha c || is_numeric c || is_space c.

(** Word character (letter, digit or underscore) or white space. *)
Definition word_or_space (c : ascii) : bool := is_word c || is_space c.

(** The steps of the Normalizer, in order. *)
Definition normalize (keep : ascii -> bool) (text : str) : str :=
  let text := lower text in
  let text := remove_urls text in
  let text := remove_emails text in
  let text := remove_numbers text in
  let text := replace_unless keep text in
  let text := collapse text in
  strip text.

(** The words of a text: its maximal runs of word characters. *)
Definition word_run (g : str) : bool :=
  match g with
  | c :: _ => is_word c
  | [] => false
  end.

Definition words_of (s : str) : list str := filter word_run (group is_word s).

(** Words joined by single spaces. *)
Fixpoint unwords (ws : list str) : str :=
  match ws with
  | [] => []
  | w :: ws' =>
      w ++ match ws' with
           | [] => []
           | _ => " "%char :: unwords ws'
           end
  end.

(** No URL starts anywhere in the string. *)
Fixpoint url_free (s : str) : bool :=
  match s with
  | [] => true
  | _ :: s' => negb (url_start s) && url_free s'
  end.

(** A word of a normalised text. *)
Definition clean_word (w : str) : Prop :=
  w <> [] /\
  Forall (fun c => is_word c = true) w /\
  Forall (fun c => lower_char c = c) w /\
  url_free w = true /\
  all_digits w = false.

(** [rest] is empty or starts with a character of the other class. *)
Definition starts_other (p : ascii -> bool) (b : bool) (rest : str) : Prop :=
  match rest with
  | c :: _ => p c = negb b
  | [] => True
  end.

(** The character before the position reached after reading [g]. *)
Fixpoint last_opt (prev : option ascii) (g : str) : option ascii :=
  match g with
  | [] => prev
  | a :: g' => last_opt (Some a) g'
  end.

(** What the e-mail step leaves of a token, and the number step of a run. *)
Definition keep_token (g : str) : str := if email_like g then [] else g.

Definition keep_word (g : str) : str := if all_digits g then [] else g.

(** The character before a string does not continue its first run. *)
Definition fresh_start (q : ascii -> bool) (prev : option ascii) (s : str) : Prop :=
  match prev, s with
  | Some a, c :: _ => q a = negb (q c)
  | _, _ => True
  end.

(** Steps 5 and 6 together. *)
Definition squashed (t : str) : str := collapse (replace_unless word_or_space t).

(** The piece of white space that [rstrip] leaves before the first word. *)
Definition lead (t : str) : str :=
  match t with
  | c :: _ => if is_word c then []
              else match words_of t with [] => [] | _ => lit " " end
  | [] => []
  end.

(** What follows the first word of [unwords]. *)
Definition joined (ws : list str) : str :=
  match ws with
  | [] => []
  | _ => " "%char :: unwords ws
  end.

End Normal.

(** ** The path taken by [extract_keywords_tfidf] *)

Section Paths.
Context {nlp : NLP}.

(** Which path produced the result of [extract_keywords_tfidf]. *)
Inductive path (text : str) (max_words : Z) : result (list WordData) -> Prop :=
| Fallback :
    path text max_words (extract_keywords_frequency text max_words)
| Primary (sentences : list str) (features : list (str * Q)) :
    segment text = Ok sentences ->
    (2 <= length sentences)%nat ->
    tfidf_mean_scores (make_vectorizer max_words) sentences = Ok features ->
    path text max_words
      (Ok (Py.slice_to max_words
             (normalize_weights
                (Py.sorted_desc by_weight
                   (flat_map (score_item (Spec.document_frequencies text)) features))))).

End Paths.

(** ** Sums of counts *)

Definition total (l : list Z) : Z := fold_right Z.add 0%Z l.

(** ** [scraper.py]: cleaning the extracted text *)

Module Scraped.
Import PyStr Re.

(** The punctuation [clean_text] keeps: period, comma, exclamation and
    question mark, semicolon, colon, hyphen, both quotes and parentheses. *)
Definition is_kept_punct (c : ascii) : bool :=
  existsb (Ascii.eqb c) (lit ".,!?;:-'()") || is_code 34 c.

(** The characters the second pattern leaves alone. *)
Definition keeps (c : ascii) : bool := is_word c || is_space c || is_kept_punct c.

(** The second pattern: one character outside [\w], [\s] and the kept
    punctuation. *)
Definition special : regex := [ [Cls (fun c => negb (keeps c))] ].

Definition is_blank (c : ascii) : bool := Ascii.eqb c " ".

(** [r' +'] *)
Definition blanks : regex := [ [Plus is_blank] ].

End Scraped.

Definition clean_text (text : str) : str :=
  match text with
  | [] => []
  | _ =>
      let text := Re.sub Patterns.spaces (PyStr.lit " ") text in
      let text := Re.sub Scraped.special (PyStr.lit " ") text in
      let text := Re.sub Scraped.blanks (PyStr.lit " ") text in
      PyStr.strip text
  end.

(** The result of [clean_text], run by run. *)
Module Clean.
Import PyStr Normal.

(** A character that survives [clean_text] as itself and is visible. *)
Definition kept (c : ascii) : bool := is_word c || Scraped.is_kept_punct c.

(** A run of class [q] becomes one space, any other run stays. *)
Definition squash_by (q : ascii -> bool) (g : str) : str :=
  match g with
  | c :: _ => if q c then lit " " else g
  | [] => []
  end.

Definition collapse_by (q : ascii -> bool) (s : str) : str :=
  concat (map (squash_by q) (group q s)).

Definition kept_run (g : str) : bool :=
  match g with
  | c :: _ => kept c
  | [] => false
  end.

(** The maximal runs of kept characters. *)
Definition chunks (s : str) : list str := filter kept_run (group kept s).

(** A chunk: a non-empty string of kept characters. *)
Definition chunk (w : str) : Prop := w <> [] /\ Forall (fun c => kept c = true) w.

(** The three substitutions of [clean_text]. *)
Definition scrubbed (s : str) : str :=
  collapse_by Scraped.is_blank (replace_unless Scraped.keeps (collapse_by is_space s)).

(** What [rstrip] leaves before the first chunk. *)
Definition margin (t : str) : str :=
  match t with
  | c :: _ => if kept c then []
              else match chunks t with [] => [] | _ => lit " " end
  | [] => []
  end.

End Clean.


(** ** More of Python's [str] *)

Module PyText.

(** [s.startswith(p)] *)
Fixpoint startswith (p s : str) : bool :=
  match p with
  | [] => true
  | a :: p' =>
      match s with
      | c :: s' => Ascii.eqb c a && startswith p' s'
      | [] => false
      end
  end.

(** [p in s]: [p] is a substring of [s]. *)
Fixpoint contains (p s : str) : bool :=
  startswith p s ||
  match s with
  | [] => false
  | _ :: s' => contains p s'
  end.

(** [sep.join(l)] *)
Fixpoint join (sep : str) (l : list str) : str :=
  match l with
  | [] => []
  | [x] => x
  | x :: l' => x ++ sep ++ join sep l'
  end.

End PyText.

Definition boilerplate_indicators : list str :=
  map PyStr.lit
    [ "cookie"; "subscribe"; "newsletter"; "sign up";
      "terms of service"; "privacy policy"; "copyright";
      "all rights reserved"; "click here"; "read more" ]%string.

Definition is_boilerplate (text : str) : bool :=
  let text_lower := PyStr.lower text in
  existsb (fun indicator => PyText.contains indicator text_lower) boilerplate_indicators.

(** ** The libraries [scraper.py] calls

    [requests] and [BeautifulSoup] are the fields of the class [Web]; each
    call may raise.  A [Soup] is the state of a parsed document: [decompose]
    changes the document in place, so it returns the next state, and a [Tag]
    refers to an element of the document across states. *)

Class Web : Type := {
  Response : Type;
  Soup : Type;
  Tag : Type;
  (** [requests.get(url, headers=headers, timeout=10)] *)
  requests_get : str -> result Response;
  (** [response.raise_for_status()] *)
  raise_for_status : Response -> result unit;
  (** [BeautifulSoup(response.content, 'html.parser')] *)
  BeautifulSoup : Response -> result Soup;
  (** [soup.find(name)] *)
  soup_find : Soup -> str -> result (option Tag);
  (** [soup.find(name, attrs={key: value})] *)
  soup_find_attr : Soup -> str -> str -> str -> result (option Tag);
  (** [soup.find_all(name)] *)
  soup_find_all : Soup -> str -> result (list Tag);
  (** [soup.select_one(selector)] *)
  soup_select_one : Soup -> str -> result (option Tag);
  (** [element.decompose()] *)
  tag_decompose : Soup -> Tag -> result Soup;
  (** [tag.name] *)
  tag_name : Soup -> Tag -> str;
  (** [tag.get(key, default)] *)
  tag_get : Soup -> Tag -> str -> str -> result str;
  (** [tag.get_text()] *)
  tag_get_text : Soup -> Tag -> result str;
  (** [tag.find_all(names)] *)
  tag_find_all : Soup -> Tag -> list str -> result (list Tag)
}.

(** ** The scraper *)

Definition double_quote : ascii := ascii_of_N 34.

(** The selector [[key=value]], the value in double quotes. *)
Definition attribute_selector (key value : string) : str :=
  PyStr.lit "[" ++ PyStr.lit key ++ PyStr.lit "=" ++
  double_quote :: PyStr.lit value ++ double_quote :: PyStr.lit "]".

Definition ARTICLE_SELECTORS : list str :=
  [ PyStr.lit "article";
    attribute_selector "role" "article";
    PyStr.lit ".article-body";
    PyStr.lit ".article-content";
    PyStr.lit ".post-content";
    PyStr.lit ".entry-content";
    PyStr.lit "main";
    attribute_selector "itemprop" "articleBody" ].

Definition REMOVE_TAGS : list str :=
  map PyStr.lit
    [ "script"; "style"; "nav"; "header"; "footer";
      "aside"; "iframe"; "noscript"; "form" ]%string.

Definition paragraph_tags : list str :=
  map PyStr.lit [ "p"; "h1"; "h2"; "h3"; "h4"; "h5"; "h6" ]%string.

(** The dictionary [fetch_article] returns. *)
Module Article.
Record t : Type := { title : str; text : str; url : str }.
End Article.

(** A loop that threads a state through fallible steps. *)
Fixpoint foldM {A B : Type} (f : A -> B -> result A) (l : list B) (a : A) : result A :=
  match l with
  | [] => Ok a
  | x :: l' => bind (f a x) (foldM f l')
  end.

Section Scraper.
Context {web : Web}.
Local Open Scope py_scope.

(** The loop over [title_candidates]. *)
Fixpoint first_title (soup : Soup) (title_candidates : list (option Tag)) : result str :=
  match title_candidates with
  | [] => Ok (PyStr.lit "Untitled Article")
  | None :: rest => first_title soup rest
  | Some candidate :: rest =>
      title <- (if PyStr.str_eqb (tag_name soup candidate) (PyStr.lit "meta")
                then tag_get soup candidate (PyStr.lit "content") []
                else tag_get_text soup candidate) ;;
      match title with
      | [] => first_title soup rest
      | _ => Ok (clean_text title)
      end
  end.

Definition extract_title (soup : Soup) : result str :=
  h1 <- soup_find soup (PyStr.lit "h1") ;;
  og_title <- soup_find_attr soup (PyStr.lit "meta") (PyStr.lit "property") (PyStr.lit "og:title") ;;
  meta_title <- soup_find_attr soup (PyStr.lit "meta") (PyStr.lit "name") (PyStr.lit "title") ;;
  title <- soup_find soup (PyStr.lit "title") ;;
  first_title soup [h1; og_title; meta_title; title].

(** The first loop of [extract_content]. *)
Definition remove_unwanted (soup : Soup) : result Soup :=
  foldM (fun soup tag =>
           elements <- soup_find_all soup tag ;;
           foldM tag_decompose elements soup)
        REMOVE_TAGS soup.

Definition lookup (soup : Soup) (selector : str) : result (option Tag) :=
  if PyText.startswith (PyStr.lit "[") selector
  then soup_select_one soup selector
  else soup_find soup selector.

(** The loop over the selectors: the first selector whose lookup returns an
    element stops it; a lookup that raises is skipped. *)
Fixpoint find_content (soup : Soup) (selectors : list str) : option Tag :=
  match selectors with
  | [] => None
  | selector :: rest =>
      match lookup soup selector with
      | Ok (Some content) => Some content
      | Ok None => find_content soup rest
      | Raise => find_content soup rest
      end
  end.

(** The content element: found by a selector, or else the body. *)
Definition locate_content (soup : Soup) : result (option Tag) :=
  match find_content soup ARTICLE_SELECTORS with
  | Some content => Ok (Some content)
  | None => soup_find soup (PyStr.lit "body")
  end.

Definition extract_content (soup : Soup) : result str :=
  soup <- remove_unwanted soup ;;
  content <- locate_content soup ;;
  match content with
  | None => Ok []
  | Some content =>
      paragraphs <- tag_find_all soup content paragraph_tags ;;
      text <- match paragraphs with
              | [] => tag_get_text soup content
              | _ => texts <- mapM (tag_get_text soup) paragraphs ;;
                     Ok (PyText.join (PyStr.lit " ") texts)
              end ;;
      Ok (clean_text text)
  end.

(** Both [except] clauses return [None]. *)
Definition fetch_article (url : str) : result (option Article.t) :=
  try_except
    (response <- requests_get url ;;
     _ <- raise_for_status response ;;
     soup <- BeautifulSoup response ;;
     title <- extract_title soup ;;
     text <- extract_content soup ;;
     match text with
     | [] => Ok None
     | _ =>
         if (length (PyStr.strip text) <? 100)%nat then Ok None
         else Ok (Some {| Article.title := title; Article.text := text; Article.url := url |})
     end)
    (Ok None).

End Scraper.

(** ** The endpoint of [main.py] *)

Module Api.

Record AnalyzeResponse : Type := {
  words : list WordData;
  article_title : str;
  word_count : Z;
  url : str
}.

(** What a request to [/analyze] ends in: the response, or an
    [HTTPException] with its status code. *)
Inductive outcome : Type :=
| Returns (response : AnalyzeResponse)
| HTTPException (status_code : Z).

End Api.

Section Main.
Context {nlp : NLP} {web : Web}.

Definition analyze_article (request_url : str) : Api.outcome :=
  match fetch_article request_url with
  | Raise => Api.HTTPException 500
  | Ok None => Api.HTTPException 400
  | Ok (Some article_data) =>
      match Article.text article_data with
      | [] => Api.HTTPException 400
      | _ =>
          match analyze_text (Article.text article_data) 50 with
          | Raise => Api.HTTPException 500
          | Ok None => Api.HTTPException 500
          | Ok (Some analysis_result) =>
              match words analysis_result with
              | [] => Api.HTTPException 500
              | _ =>
                  Api.Returns
                    {| Api.words :=
                         map (fun word_data =>
                                {| word := word word_data;
                                   weight := weight word_data;
                                   frequency := frequency word_data |})
                             (words analysis_result);
                       Api.article_title := Article.title article_data;
                       Api.word_count := word_count analysis_result;
                       Api.url := request_url |}
              end
          end
      end
  end.

End Main.

(** ** A small document model to run the scraper on *)

Module DemoWeb.
Import PyStr.

Unset Elimination Schemes.
Inductive node : Type :=
| Text (s : str)
| Elem (id : nat) (name : str) (attrs : list (str * str)) (children : list node).
Set Elimination Schemes.

(** The elements of a subtree, in document order. *)
Fixpoint elements (n : node) : list node :=
  match n with
  | Text _ => []
  | Elem _ _ _ children => n :: flat_map elements children
  end.

Fixpoint text_of (n : node) : str :=
  match n with
  | Text s => s
  | Elem _ _ _ children => concat (map text_of children)
  end.

Fixpoint prune (target : nat) (n : node) : list node :=
  match n with
  | Text _ => [n]
  | Elem id name attrs children =>
      if (id =? target)%nat then []
      else [Elem id name attrs (flat_map (prune target) children)]
  end.

Definition document := list node.

Definition all_elements (doc : document) : list node := flat_map elements doc.

Definition node_id (n : node) : nat :=
  match n with Elem id _ _ _ => id | Text _ => 0%nat end.

Definition node_name (n : node) : str :=
  match n with Elem _ name _ _ => name | Text _ => [] end.

Definition node_attrs (n : node) : list (str * str) :=
  match n with Elem _ _ attrs _ => attrs | Text _ => [] end.

Definition node_children (n : node) : list node :=
  match n with Elem _ _ _ children => children | Text _ => [] end.

Definition has_attr (key value : str) (n : node) : bool :=
  existsb (fun kv => str_eqb (fst kv) key && str_eqb (snd kv) value) (node_attrs n).

Definition matches_selector (selector : str) (n : node) : bool :=
  existsb (fun kv => str_eqb selector
                       (lit "[" ++ fst kv ++ lit "=" ++
                        double_quote :: snd kv ++ double_quote :: lit "]"))
          (node_attrs n).

Definition element (doc : document) (id : nat) : option node :=
  List.find (fun n => (node_id n =? id)%nat) (all_elements doc).

Definition first_id (p : node -> bool) (doc : document) : option nat :=
  option_map node_id (List.find p (all_elements doc)).

(** The pages of the demo site. *)
Definition article_page : document :=
  [ Elem 1 (lit "html") []
      [ Elem 2 (lit "head") []
          [ Elem 3 (lit "title") [] [Text (lit "Tea & rice | Demo")];
            Elem 4 (lit "script") [] [Text (lit "var x = 1;")] ];
        Elem 5 (lit "body") []
          [ Elem 6 (lit "nav") [] [Elem 7 (lit "p") [] [Text (lit "Home / News")]];
            Elem 8 (lit "article") []
              [ Elem 9 (lit "h1") [] [Text (lit "  Tea and rice  ")];
                Elem 10 (lit "p") []
                  [Text (lit "The farmers harvest green tea in spring. Write to tea@farm.org today.")];
                Elem 11 (lit "p") []
                  [Text (lit "Rice grows in flooded fields; farmers plant rice by hand.")] ] ] ] ].

(** A page whose first heading holds only white space. *)
Definition blank_heading_page : document :=
  [ Elem 1 (lit "html") []
      [ Elem 2 (lit "head") [] [Elem 3 (lit "title") [] [Text (lit "Real title")]];
        Elem 4 (lit "body") []
          [ Elem 5 (lit "h1") [] [Text (lit "   ")];
            Elem 6 (lit "p") [] [Text (lit "Short.")] ] ] ].

Definition site (url : str) : result (option document) :=
  if str_eqb url (lit "http://demo/article") then Ok (Some article_page)
  else if str_eqb url (lit "http://demo/blank") then Ok (Some blank_heading_page)
  else if str_eqb url (lit "http://demo/missing") then Ok None
  else Raise.

#[export] Instance web : Web := {|
  Response := option document;
  Soup := document;
  Tag := nat;
  requests_get := site;
  raise_for_status := fun response =>
    match response with Some _ => Ok tt | None => Raise end;
  BeautifulSoup := fun response =>
    Ok (match response with Some doc => doc | None => [] end);
  soup_find := fun soup name =>
    Ok (first_id (fun n => str_eqb (node_name n) name) soup);
  soup_find_attr := fun soup name key value =>
    Ok (first_id (fun n => str_eqb (node_name n) name && has_attr key value n) soup);
  soup_find_all := fun soup name =>
    Ok (map node_id (filter (fun n => str_eqb (node_name n) name) (all_elements soup)));
  soup_select_one := fun soup selector =>
    Ok (first_id (matches_selector selector) soup);
  tag_decompose := fun soup id => Ok (flat_map (prune id) soup);
  tag_name := fun soup id =>
    match element soup id with Some n => node_name n | None => [] end;
  tag_get := fun soup id key default =>
    Ok (match element soup id with
        | Some n =>
            match List.find (fun kv => str_eqb (fst kv) key) (node_attrs n) with
            | Some kv => snd kv
            | None => default
            end
        | None => default
        end);
  tag_get_text := fun soup id =>
    Ok (match element soup id with Some n => text_of n | None => [] end);
  tag_find_all := fun soup id names =>
    Ok (match element soup id with
        | Some n =>
            map node_id
                (filter (fun d => mem (node_name d) names)
                        (flat_map elements (node_children n)))
        | None => []
        end)
|}.

End DemoWeb.

(** * Properties *)

(** ** The stable descending sort *)

Section SortFacts.
Import Py.
Variable A : Type.
Variable le : A -> A -> bool.

Lemma insert_desc_perm (x : A) (l : list A) :
  Permutation (insert_desc le x l) (x :: l).
Proof.
  induction l as [|y l IH]; simpl.
  - apply Permutation_refl.
  - destruct (le y x).
    + apply Permutation_refl.
    + eapply perm_trans; [apply perm_skip, IH | apply perm_swap].
Qed.

Lemma sorted_desc_perm (l : list A) : Permutation (sorted_desc le l) l.
Proof.
  induction l as [|x l IH]; simpl.
  - constructor.
  - eapply perm_trans; [apply insert_desc_perm | apply perm_skip, IH].
Qed.

Lemma sorted_desc_length (l : list A) : length (sorted_desc le l) = length l.
Proof. apply Permutation_length, sorted_desc_perm. Qed.

Lemma sorted_desc_In (x : A) (l : list A) : In x (sorted_desc le l) <-> In x l.
Proof.
  split; apply Permutation_in;
    [apply sorted_desc_perm | apply Permutation_sym, sorted_desc_perm].
Qed.

Hypothesis le_total : forall a b, le a b = false -> le b a = true.
Hypothesis le_trans : forall a b c, le a b = true -> le b c = true -> le a c = true.

Lemma insert_desc_sorted (x : A) (l : list A) :
  StronglySorted (desc le) l -> StronglySorted (desc le) (insert_desc le x l).
Proof.
  induction 1 as [|y l Hs IH Hall]; simpl.
  - constructor; constructor.
  - destruct (le y x) eqn:E.
    + constructor.
      * constructor; assumption.
      * constructor; [exact E|].
        eapply Forall_impl; [|exact Hall].
        intros z Hz. unfold desc in *. eapply le_trans; eassumption.
    + constructor; [exact IH|].
      rewrite Forall_forall. intros z Hz.
      apply (Permutation_in _ (insert_desc_perm x l)) in Hz.
      destruct Hz as [<-|Hz].
      * apply le_total, E.
      * rewrite Forall_forall in Hall. apply Hall, Hz.
Qed.

Lemma sorted_desc_sorted (l : list A) : StronglySorted (desc le) (sorted_desc le l).
Proof.
  induction l as [|x l IH]; simpl.
  - constructor.
  - apply insert_desc_sorted, IH.
Qed.

(** Stability: the items whose key equals that of [z] keep their order. *)
Lemma insert_desc_stable (z x : A) (l : list A) :
  filter (equiv_keys le z) (insert_desc le x l) = filter (equiv_keys le z) (x :: l).
Proof.
  induction l as [|y l IH]; [reflexivity|].
  cbn [insert_desc]. destruct (le y x) eqn:E; [reflexivity|].
  cbn [filter] in *. rewrite IH.
  destruct (equiv_keys le z y) eqn:Ey, (equiv_keys le z x) eqn:Ex; try reflexivity.
  exfalso. unfold equiv_keys in *.
  apply andb_true_iff in Ey as [_ Hyz], Ex as [Hzx _].
  rewrite (le_trans _ _ _ Hyz Hzx) in E. discriminate.
Qed.

Lemma sorted_desc_stable (z : A) (l : list A) :
  filter (equiv_keys le z) (sorted_desc le l) = filter (equiv_keys le z) l.
Proof.
  induction l as [|x l IH]; [reflexivity|].
  cbn [sorted_desc]. rewrite insert_desc_stable. cbn [filter]. now rewrite IH.
Qed.


End SortFacts.

(** ** Rounding *)

Section RoundFacts.
Import Py.
Local Open Scope Q_scope.

Lemma round_half_even_comp (p q : Q) :
  p == q -> round_half_even p = round_half_even q.
Proof.
  intros H. unfold round_half_even.
  rewrite (Qfloor_comp _ _ H).
  assert (E : p - inject_Z (Qfloor q) == q - inject_Z (Qfloor q))
    by (rewrite H; reflexivity).
  rewrite (Qcompare_comp _ _ E _ _ (Qeq_refl (1 # 2))). reflexivity.
Qed.

Lemma round_half_even_cases (q : Q) :
  (round_half_even q = Qfloor q /\ q - inject_Z (Qfloor q) <= 1 # 2) \/
  (round_half_even q = (Qfloor q + 1)%Z /\ 1 # 2 <= q - inject_Z (Qfloor q)).
Proof.
  unfold round_half_even.
  destruct (q - inject_Z (Qfloor q) ?= 1 # 2) eqn:E.
  - apply Qeq_alt in E. destruct (Z.even (Qfloor q)); [left | right];
      (split; [reflexivity | rewrite E; apply Qle_refl]).
  - apply Qlt_alt in E. left. split; [reflexivity | apply Qlt_le_weak, E].
  - apply Qgt_alt in E. right. split; [reflexivity | apply Qlt_le_weak, E].
Qed.

Lemma round_half_even_mono (p q : Q) :
  p <= q -> (round_half_even p <= round_half_even q)%Z.
Proof.
  intros H.
  pose proof (Qfloor_resp_le _ _ H) as Hf.
  destruct (Z.eq_dec (Qfloor p) (Qfloor q)) as [Heq|Hne].
  - unfold round_half_even. rewrite Heq.
    assert (Hfr : p - inject_Z (Qfloor q) <= q - inject_Z (Qfloor q)).
    { apply Qplus_le_l with (z := inject_Z (Qfloor q)). ring_simplify. exact H. }
    destruct (p - inject_Z (Qfloor q) ?= 1 # 2) eqn:Ep;
      destruct (q - inject_Z (Qfloor q) ?= 1 # 2) eqn:Eq';
      try (destruct (Z.even (Qfloor q))); cbv iota; try lia; exfalso;
      repeat match goal with
             | E : (_ ?= _) = Eq |- _ => apply Qeq_alt in E
             | E : (_ ?= _) = Lt |- _ => apply Qlt_alt in E
             | E : (_ ?= _) = Gt |- _ => apply Qgt_alt in E
             end.
    + rewrite Ep in Hfr. apply (Qlt_irrefl (1 # 2)).
      eapply Qle_lt_trans; eassumption.
    + rewrite Eq' in Hfr. apply (Qlt_irrefl (1 # 2)).
      eapply Qlt_le_trans; eassumption.
    + apply (Qlt_irrefl (1 # 2)).
      eapply Qlt_trans; [exact Ep|]. eapply Qle_lt_trans; [exact Hfr | exact Eq'].
    + apply (Qlt_irrefl (1 # 2)).
      eapply Qlt_trans; [exact Ep|]. eapply Qle_lt_trans; [exact Hfr | exact Eq'].
  - destruct (round_half_even_cases p) as [[-> _]|[-> _]];
      destruct (round_half_even_cases q) as [[-> _]|[-> _]]; lia.
Qed.

Lemma round_half_even_Z (z : Z) : round_half_even (inject_Z z) = z.
Proof.
  unfold round_half_even. rewrite Qfloor_Z.
  assert (E : inject_Z z - inject_Z z == 0) by ring.
  rewrite (Qcompare_comp _ _ E _ _ (Qeq_refl (1 # 2))). reflexivity.
Qed.

Lemma round3_comp (p q : Q) : p == q -> round3 p = round3 q.
Proof.
  intros H. unfold round3.
  rewrite (round_half_even_comp (p * 1000) (q * 1000)); [reflexivity|].
  rewrite H. reflexivity.
Qed.

Lemma round3_thousandths (q : Q) :
  round3 q == round_half_even (q * 1000) # 1000.
Proof. unfold round3. apply Qred_correct. Qed.

Lemma round3_mono (p q : Q) : p <= q -> round3 p <= round3 q.
Proof.
  intros H. rewrite !round3_thousandths.
  unfold Qle; simpl.
  apply Z.mul_le_mono_nonneg_r; [lia|].
  apply round_half_even_mono.
  apply Qmult_le_compat_r; [exact H | discriminate].
Qed.

Lemma round3_one : round3 1 = 1.
Proof. reflexivity. Qed.

Lemma round3_zero : round3 0 = 0.
Proof. reflexivity. Qed.

Lemma round3_unit (q : Q) : 0 <= q -> q <= 1 -> 0 <= round3 q /\ round3 q <= 1.
Proof.
  intros H0 H1. split.
  - apply Qle_trans with (round3 0); [rewrite round3_zero; apply Qle_refl|].
    apply round3_mono, H0.
  - apply Qle_trans with (round3 1); [|rewrite round3_one; apply Qle_refl].
    apply round3_mono, H1.
Qed.


Lemma Qlt_bool_iff (a b : Q) : Qlt_bool a b = true <-> a < b.
Proof.
  unfold Qlt_bool. rewrite negb_true_iff.
  split; intros H.
  - apply Qnot_le_lt. intros Hle. apply Qle_bool_iff in Hle. congruence.
  - destruct (Qle_bool b a) eqn:E; [|reflexivity].
    apply Qle_bool_iff in E. exfalso. apply (Qlt_irrefl a).
    eapply Qlt_le_trans; eassumption.
Qed.

End RoundFacts.

(** ** Floats *)

Section FloatFacts.
Import Py.
Local Open Scope Q_scope.

Lemma pow2_pos (k : Z) : 0 < pow2 k.
Proof. apply Qpower_0_lt. reflexivity. Qed.

Lemma pow2_plus (a b : Z) : pow2 (a + b) == pow2 a * pow2 b.
Proof. apply Qpower_plus. discriminate. Qed.

Lemma pow2_le (a b : Z) : (a <= b)%Z -> pow2 a <= pow2 b.
Proof. intros H. apply Qpower_le_compat_l; [exact H | discriminate]. Qed.

Lemma pow2_lt_inv (a b : Z) : pow2 a < pow2 b -> (a < b)%Z.
Proof. intros H. apply (Qpower_lt_compat_l_inv 2); [exact H | reflexivity]. Qed.

Lemma pow2_Z (k : Z) : (0 <= k)%Z -> pow2 k == inject_Z (2 ^ k).
Proof. intros H. unfold pow2. now rewrite Zpower_Qpower. Qed.

Lemma Qnum_pos (q : Q) : 0 < q -> (0 < Qnum q)%Z.
Proof. unfold Qlt. cbn. lia. Qed.

(** A positive integer between consecutive powers of two. *)
Lemma log2_bounds (n : Z) :
  (0 < n)%Z -> pow2 (Z.log2 n) <= inject_Z n /\ inject_Z n < pow2 (Z.log2 n + 1).
Proof.
  intros H. destruct (Z.log2_spec n H) as [H1 H2].
  pose proof (Z.log2_nonneg n) as H0.
  rewrite !pow2_Z by lia. rewrite <- Zle_Qle, <- Zlt_Qlt.
  split; [exact H1|]. now rewrite <- Z.add_1_r in H2.
Qed.

Lemma ilog2_spec (q : Q) : 0 < q -> pow2 (ilog2 q) <= q /\ q < pow2 (ilog2 q + 1).
Proof.
  intros Hq. pose proof (Qnum_pos q Hq) as Hn.
  destruct (log2_bounds (Qnum q) Hn) as [N1 N2].
  destruct (log2_bounds (Zpos (Qden q)) eq_refl) as [D1 D2].
  set (ln := Z.log2 (Qnum q)) in *. set (ld := Z.log2 (Zpos (Qden q))) in *.
  assert (Eq : q == inject_Z (Qnum q) / inject_Z (Zpos (Qden q))).
  { destruct q as [n d]. apply Qmake_Qdiv. }
  assert (Dpos : 0 < inject_Z (Zpos (Qden q))) by reflexivity.
  assert (Hlo : pow2 (ln - ld - 1) < q).
  { rewrite Eq. apply Qlt_shift_div_l; [exact Dpos|].
    apply Qlt_le_trans with (pow2 (ln - ld - 1) * pow2 (ld + 1)).
    - apply Qmult_lt_l; [apply pow2_pos | exact D2].
    - rewrite <- pow2_plus. replace (ln - ld - 1 + (ld + 1))%Z with ln by lia. exact N1. }
  assert (Hhi : q < pow2 (ln - ld + 1)).
  { rewrite Eq. apply Qlt_shift_div_r; [exact Dpos|].
    apply Qlt_le_trans with (pow2 (ln + 1)); [exact N2|].
    replace (ln + 1)%Z with ((ln - ld + 1) + ld)%Z by lia. rewrite pow2_plus.
    apply Qmult_le_l; [apply pow2_pos | exact D1]. }
  unfold ilog2. fold ln ld.
  destruct (Qle_bool (pow2 (ln - ld)) q) eqn:E.
  - apply Qle_bool_iff in E. split; [exact E | exact Hhi].
  - split; [apply Qlt_le_weak, Hlo|].
    replace (ln - ld - 1 + 1)%Z with (ln - ld)%Z by lia.
    apply Qnot_le_lt. intros H. apply Qle_bool_iff in H. congruence.
Qed.

Lemma ilog2_mono (p q : Q) : 0 < p -> p <= q -> (ilog2 p <= ilog2 q)%Z.
Proof.
  intros Hp Hpq.
  assert (Hq : 0 < q) by (eapply Qlt_le_trans; eassumption).
  destruct (ilog2_spec p Hp) as [P1 _]. destruct (ilog2_spec q Hq) as [_ Q2].
  assert (H : pow2 (ilog2 p) < pow2 (ilog2 q + 1)).
  { eapply Qle_lt_trans; [exact P1|]. eapply Qle_lt_trans; eassumption. }
  apply pow2_lt_inv in H. lia.
Qed.

Lemma ilog2_comp (p q : Q) : 0 < p -> p == q -> ilog2 p = ilog2 q.
Proof.
  intros Hp E.
  assert (Hq : 0 < q) by now rewrite <- E.
  apply Z.le_antisymm; apply ilog2_mono; try assumption; rewrite E; apply Qle_refl.
Qed.

Lemma nearest53_comp (p q : Q) : 0 < p -> p == q -> nearest53 p == nearest53 q.
Proof.
  intros Hp E. unfold nearest53. rewrite (ilog2_comp p q Hp E).
  rewrite (round_half_even_comp (p / pow2 (ilog2 q - 52)) (q / pow2 (ilog2 q - 52)));
    [reflexivity|]. now rewrite E.
Qed.

Lemma scaled_bounds (q : Q) :
  0 < q ->
  inject_Z (2 ^ 52) <= q / pow2 (ilog2 q - 52) /\
  q / pow2 (ilog2 q - 52) <= inject_Z (2 ^ 53).
Proof.
  intros Hq. destruct (ilog2_spec q Hq) as [H1 H2].
  pose proof (pow2_pos (ilog2 q - 52)) as Hu.
  rewrite <- !pow2_Z by lia. split.
  - apply Qle_shift_div_l; [exact Hu|]. rewrite <- pow2_plus.
    replace (52 + (ilog2 q - 52))%Z with (ilog2 q) by lia. exact H1.
  - apply Qle_shift_div_r; [exact Hu|]. rewrite <- pow2_plus.
    replace (53 + (ilog2 q - 52))%Z with (ilog2 q + 1)%Z by lia.
    apply Qlt_le_weak, H2.
Qed.

(** The rounded value stays in the binade of [q]. *)
Lemma nearest53_bounds (q : Q) :
  0 < q -> pow2 (ilog2 q) <= nearest53 q /\ nearest53 q <= pow2 (ilog2 q + 1).
Proof.
  intros Hq. destruct (scaled_bounds q Hq) as [H1 H2].
  apply round_half_even_mono in H1, H2. rewrite !round_half_even_Z in H1, H2.
  pose proof (pow2_pos (ilog2 q - 52)) as Hu.
  unfold nearest53. split.
  - replace (ilog2 q) with (52 + (ilog2 q - 52))%Z at 1 by lia.
    rewrite pow2_plus, (pow2_Z 52) by lia.
    apply Qmult_le_compat_r; [|apply Qlt_le_weak, Hu]. now rewrite <- Zle_Qle.
  - replace (ilog2 q + 1)%Z with (53 + (ilog2 q - 52))%Z by lia.
    rewrite pow2_plus, (pow2_Z 53) by lia.
    apply Qmult_le_compat_r; [|apply Qlt_le_weak, Hu]. now rewrite <- Zle_Qle.
Qed.

Lemma nearest53_mono (p q : Q) : 0 < p -> p <= q -> nearest53 p <= nearest53 q.
Proof.
  intros Hp Hpq.
  assert (Hq : 0 < q) by (eapply Qlt_le_trans; eassumption).
  pose proof (ilog2_mono p q Hp Hpq) as He.
  destruct (Z.eq_dec (ilog2 p) (ilog2 q)) as [E|E].
  - unfold nearest53. rewrite E.
    pose proof (pow2_pos (ilog2 q - 52)) as Hu.
    apply Qmult_le_compat_r; [|apply Qlt_le_weak, Hu].
    rewrite <- Zle_Qle. apply round_half_even_mono.
    unfold Qdiv. apply Qmult_le_compat_r; [exact Hpq|].
    apply Qlt_le_weak, Qinv_lt_0_compat, Hu.
  - destruct (nearest53_bounds p Hp) as [_ H1].
    destruct (nearest53_bounds q Hq) as [H2 _].
    eapply Qle_trans; [exact H1|]. eapply Qle_trans; [|exact H2].
    apply pow2_le. lia.
Qed.

Lemma binary64_pos (q : Q) : 0 < q -> binary64 q = nearest53 q.
Proof. intros H. unfold binary64. now rewrite (proj1 (Qlt_alt 0 q) H). Qed.

Lemma binary64_zero (q : Q) : q == 0 -> binary64 q = 0.
Proof.
  intros H. unfold binary64.
  assert (E : 0 == q) by now rewrite H. now rewrite (proj1 (Qeq_alt 0 q) E).
Qed.

Lemma binary64_comp (p q : Q) : 0 <= p -> p == q -> binary64 p == binary64 q.
Proof.
  intros Hp E. destruct (Qlt_le_dec 0 p) as [H|H].
  - rewrite !binary64_pos; [now apply nearest53_comp | now rewrite <- E | exact H].
  - assert (H0 : p == 0) by now apply Qle_antisym.
    rewrite !binary64_zero; [reflexivity | now rewrite <- E | exact H0].
Qed.

Lemma binary64_mono (p q : Q) : 0 <= p -> p <= q -> binary64 p <= binary64 q.
Proof.
  intros Hp Hpq. destruct (Qlt_le_dec 0 p) as [H|H].
  - rewrite !binary64_pos; [now apply nearest53_mono | | exact H].
    eapply Qlt_le_trans; eassumption.
  - assert (H0 : p == 0) by now apply Qle_antisym.
    rewrite (binary64_zero p H0). destruct (Qlt_le_dec 0 q) as [Hq|Hq].
    + rewrite binary64_pos by exact Hq.
      eapply Qle_trans; [|apply nearest53_bounds, Hq]. apply Qlt_le_weak, pow2_pos.
    + rewrite binary64_zero; [apply Qle_refl|]. apply Qle_antisym; [exact Hq|].
      now rewrite <- H0.
Qed.

Lemma binary64_one : binary64 1 == 1.
Proof. reflexivity. Qed.

End FloatFacts.

(** ** Strings and dictionaries *)

Section DictFacts.
Import PyStr Py Spec.

Lemma str_eqb_eq (a b : str) : str_eqb a b = true <-> a = b.
Proof.
  unfold str_eqb. destruct (list_eq_dec ascii_dec a b); split; congruence.
Qed.

Lemma str_eqb_refl (a : str) : str_eqb a a = true.
Proof. now apply str_eqb_eq. Qed.

Lemma str_eqb_neq (a b : str) : str_eqb a b = false <-> a <> b.
Proof.
  unfold str_eqb. destruct (list_eq_dec ascii_dec a b); split; congruence.
Qed.

Lemma str_eqb_sym (a b : str) : str_eqb a b = str_eqb b a.
Proof.
  destruct (str_eqb b a) eqn:E.
  - apply str_eqb_eq in E. subst. apply str_eqb_refl.
  - apply str_eqb_neq in E. apply str_eqb_neq. congruence.
Qed.

Lemma mem_In (w : str) (l : list str) : mem w l = true <-> In w l.
Proof.
  unfold mem. rewrite existsb_exists. split.
  - intros [x [Hx E]]. apply str_eqb_eq in E. now subst.
  - intros H. exists w. split; [exact H | apply str_eqb_refl].
Qed.

Lemma mem_not_In (w : str) (l : list str) : mem w l = false <-> ~ In w l.
Proof.
  rewrite <- mem_In. destruct (mem w l); split; congruence.
Qed.

Lemma first_occurrences_In (w : str) (l : list str) :
  In w (first_occurrences l) <-> In w l.
Proof.
  induction l as [|x l IH]; [reflexivity|].
  cbn [first_occurrences In]. rewrite filter_In, IH, negb_true_iff, str_eqb_neq.
  destruct (list_eq_dec ascii_dec x w); intuition congruence.
Qed.

Lemma first_occurrences_NoDup (l : list str) : NoDup (first_occurrences l).
Proof.
  induction l as [|x l IH]; cbn [first_occurrences]; constructor.
  - rewrite filter_In, negb_true_iff, str_eqb_neq. intuition congruence.
  - apply NoDup_filter, IH.
Qed.

Lemma first_occurrences_snoc (l : list str) (t : str) :
  first_occurrences (l ++ [t]) =
  if mem t l then first_occurrences l else first_occurrences l ++ [t].
Proof.
  induction l as [|x l IH]; [reflexivity|].
  cbn [app first_occurrences]. rewrite IH.
  unfold mem in *. cbn [existsb].
  destruct (str_eqb t x) eqn:E.
  - apply str_eqb_eq in E. subst x. cbn [orb].
    destruct (existsb (str_eqb t) l); [reflexivity|].
    rewrite filter_app. cbn [filter]. rewrite str_eqb_refl. cbn [negb].
    now rewrite app_nil_r.
  - cbn [orb]. destruct (existsb (str_eqb t) l); [reflexivity|].
    rewrite filter_app. cbn [filter]. rewrite str_eqb_sym, E. reflexivity.
Qed.

Variable V : Type.

Lemma dict_get_map (g : str -> V) (ks : list str) (t : str) (d : V) :
  dict_get (map (fun w => (w, g w)) ks) t d = if mem t ks then g t else d.
Proof.
  induction ks as [|k ks IH]; [reflexivity|].
  cbn [map dict_get]. unfold mem in *. cbn [existsb].
  rewrite (str_eqb_sym t k).
  destruct (str_eqb k t) eqn:E; [|exact IH].
  apply str_eqb_eq in E. now subst.
Qed.

Lemma dict_set_new (g : str -> V) (ks : list str) (t : str) (v : V) :
  mem t ks = false ->
  dict_set (map (fun w => (w, g w)) ks) t v = map (fun w => (w, g w)) ks ++ [(t, v)].
Proof.
  induction ks as [|k ks IH]; [reflexivity|].
  unfold mem in *. cbn [existsb map dict_set app]. rewrite (str_eqb_sym t k).
  intros H. apply orb_false_iff in H as [-> H]. now rewrite IH.
Qed.

Lemma dict_set_old (g : str -> V) (ks : list str) (t : str) (v : V) :
  NoDup ks -> In t ks ->
  dict_set (map (fun w => (w, g w)) ks) t v =
  map (fun w => (w, if str_eqb w t then v else g w)) ks.
Proof.
  induction 1 as [|k ks Hk Hnd IH]; [contradiction|].
  intros Hin. cbn [map dict_set].
  destruct (str_eqb k t) eqn:E.
  - apply str_eqb_eq in E. subst k. f_equal.
    apply map_ext_in. intros w Hw.
    destruct (str_eqb w t) eqn:E'; [|reflexivity].
    apply str_eqb_eq in E'. subst. contradiction.
  - f_equal. apply IH. destruct Hin as [->|Hin]; [|exact Hin].
    rewrite str_eqb_refl in E. discriminate.
Qed.

End DictFacts.

Section FrequencyFacts.
Context {nlp : NLP}.
Import PyStr Py Spec.
Local Open Scope Z_scope.

Lemma occurrences_snoc (w t : str) (l : list str) :
  occurrences w (l ++ [t]) = occurrences w l + (if str_eqb w t then 1 else 0).
Proof.
  unfold occurrences. rewrite filter_app, length_app. cbn [filter].
  destruct (str_eqb w t); cbn [length]; lia.
Qed.

Lemma occurrences_pos (w : str) (l : list str) : In w l -> 1 <= occurrences w l.
Proof.
  intros H. unfold occurrences.
  assert (Hin : In w (filter (str_eqb w) l))
    by (apply filter_In; split; [exact H | apply str_eqb_refl]).
  destruct (filter (str_eqb w) l); [contradiction | cbn [length]; lia].
Qed.

Lemma occurrences_zero (w : str) (l : list str) : ~ In w l -> occurrences w l = 0.
Proof.
  intros H. unfold occurrences.
  destruct (filter (str_eqb w) l) as [|x r] eqn:E; [reflexivity|].
  exfalso. assert (Hx : In x (filter (str_eqb w) l)) by (rewrite E; now left).
  apply filter_In in Hx as [Hx Hw]. apply str_eqb_eq in Hw. now subst.
Qed.

(** The counting loop builds the WordFrequencyMap of the specification. *)
Lemma count_loop_spec (tokens : list str) :
  fold_left count_word tokens [] = word_frequency_map tokens.
Proof.
  induction tokens as [|t tokens IH] using rev_ind; [reflexivity|].
  rewrite fold_left_app. cbn [fold_left]. rewrite IH. clear IH.
  unfold count_word, word_frequency_map. rewrite filter_app. cbn [filter].
  fold (counted t). destruct (counted t); [|now rewrite app_nil_r].
  set (kept := filter counted tokens).
  rewrite first_occurrences_snoc, dict_get_map.
  assert (Hm : mem t (first_occurrences kept) = mem t kept).
  { destruct (mem t kept) eqn:E.
    - apply mem_In, first_occurrences_In, mem_In, E.
    - apply mem_not_In. rewrite first_occurrences_In. apply mem_not_In, E. }
  rewrite Hm. destruct (mem t kept) eqn:E.
  - rewrite dict_set_old.
    + apply map_ext_in. intros w Hw. rewrite occurrences_snoc.
      destruct (str_eqb w t) eqn:Ew; [|f_equal; lia].
      apply str_eqb_eq in Ew. now subst.
    + apply first_occurrences_NoDup.
    + apply first_occurrences_In, mem_In, E.
  - rewrite dict_set_new by (now rewrite Hm).
    rewrite map_app. cbn [map]. f_equal.
    + apply map_ext_in. intros w Hw. rewrite occurrences_snoc.
      destruct (str_eqb w t) eqn:Ew; [|f_equal; lia].
      apply str_eqb_eq in Ew. subst w.
      apply (proj2 (mem_In _ _)) in Hw. rewrite Hm in Hw. discriminate.
    + rewrite occurrences_snoc, str_eqb_refl.
      rewrite (occurrences_zero t kept) by (now apply mem_not_In). reflexivity.
Qed.

Lemma get_word_frequencies_ok (text : str) :
  get_word_frequencies text =
  Ok (match word_tokenize text with
      | Ok tokens => word_frequency_map tokens
      | Raise => []
      end).
Proof.
  unfold get_word_frequencies, try_except, bind.
  destruct (word_tokenize text); [now rewrite count_loop_spec | reflexivity].
Qed.

Lemma word_frequency_map_counts (tokens : list str) (w : str) (c : Z) :
  In (w, c) (word_frequency_map tokens) ->
  counted w = true /\ In w tokens /\ c = occurrences w (filter counted tokens) /\ 1 <= c.
Proof.
  unfold word_frequency_map. intros H.
  apply in_map_iff in H as [w' [E Hin]]. injection E as -> <-.
  apply (proj1 (first_occurrences_In _ _)) in Hin.
  pose proof (occurrences_pos _ _ Hin).
  apply filter_In in Hin as [Hin Hc]. tauto.
Qed.

End FrequencyFacts.

(** ** The two extraction paths in closed form *)

Section PathFacts.
Context {nlp : NLP}.
Import PyStr Py Spec.

Lemma slice_to_prefix {A : Type} (n : Z) (l : list A) :
  exists m, slice_to n l = firstn m l.
Proof. unfold slice_to. destruct (0 <=? n)%Z; eexists; reflexivity. Qed.

Lemma slice_to_nonneg {A : Type} (n : Z) (l : list A) :
  (0 <= n)%Z -> slice_to n l = firstn (Z.to_nat n) l.
Proof. intros H. unfold slice_to. apply Z.leb_le in H. now rewrite H. Qed.

Lemma mapM_frequency_item (top : Z) (items : list (str * Z)) :
  top <> 0%Z ->
  mapM (frequency_item top) items = Ok (map (keyword_of top) items).
Proof.
  intros H. induction items as [|x items IH]; [reflexivity|].
  cbn [mapM map]. unfold frequency_item at 1, true_div, bind.
  apply Z.eqb_neq in H. rewrite H. rewrite IH. reflexivity.
Qed.

Lemma by_count_total (a b : str * Z) : by_count a b = false -> by_count b a = true.
Proof. unfold by_count. rewrite Z.leb_gt, Z.leb_le. lia. Qed.

Lemma by_count_trans (a b c : str * Z) :
  by_count a b = true -> by_count b c = true -> by_count a c = true.
Proof. unfold by_count. rewrite !Z.leb_le. lia. Qed.

Lemma document_frequencies_pos (text : str) (w : str) (c : Z) :
  In (w, c) (document_frequencies text) -> (1 <= c)%Z.
Proof.
  unfold document_frequencies. destruct (word_tokenize text); [|contradiction].
  intros H. now apply word_frequency_map_counts in H.
Qed.

Lemma firstn_In {A : Type} (m : nat) (l : list A) (x : A) :
  In x (firstn m l) -> In x l.
Proof.
  intros H. rewrite <- (firstn_skipn m l). apply in_or_app. now left.
Qed.

Lemma slice_to_In {A : Type} (n : Z) (l : list A) (x : A) :
  In x (slice_to n l) -> In x l.
Proof. destruct (slice_to_prefix n l) as [m ->]. apply firstn_In. Qed.

(** The frequency path never raises. *)
Lemma extract_keywords_frequency_eq (text : str) (max_words : Z) :
  extract_keywords_frequency text max_words =
  let top_words := slice_to max_words (sorted_desc by_count (document_frequencies text)) in
  Ok (map (keyword_of (top_count top_words)) top_words).
Proof.
  unfold extract_keywords_frequency.
  rewrite get_word_frequencies_ok. cbn [bind].
  fold (document_frequencies text).
  cbv zeta.
  destruct (slice_to max_words (sorted_desc by_count (document_frequencies text)))
    as [|[w c] rest] eqn:E; [reflexivity|].
  rewrite mapM_frequency_item; [reflexivity|].
  assert (Hin : In (w, c) (document_frequencies text)).
  { apply (sorted_desc_In _ by_count). apply (slice_to_In max_words).
    rewrite E. now left. }
  apply document_frequencies_pos in Hin. lia.
Qed.

Lemma tfidf_candidates_eq (text : str) (features : list (str * Q)) :
  tfidf_candidates text features =
  Ok (normalize_weights
        (sorted_desc by_weight
           (flat_map (score_item (document_frequencies text)) features))).
Proof.
  unfold tfidf_candidates. rewrite get_word_frequencies_ok. reflexivity.
Qed.

Lemma extract_keywords_tfidf_path (text : str) (max_words : Z) :
  path text max_words (extract_keywords_tfidf text max_words).
Proof.
  unfold extract_keywords_tfidf, tfidf_body, try_except, bind.
  destruct (segment text) as [sentences|] eqn:Es.
  - destruct (length sentences <? 2)%nat eqn:El.
    + destruct (extract_keywords_frequency text max_words) eqn:E;
        rewrite <- E; constructor.
    + destruct (tfidf_mean_scores (make_vectorizer max_words) sentences)
        as [features|] eqn:Ef.
      * rewrite tfidf_candidates_eq.
        apply Primary with (sentences := sentences); try assumption.
        apply Nat.ltb_ge in El. exact El.
      * constructor.
  - constructor.
Qed.

Lemma extract_keywords_tfidf_short (text : str) (max_words : Z) (sentences : list str) :
  segment text = Ok sentences -> (length sentences < 2)%nat ->
  extract_keywords_tfidf text max_words = extract_keywords_frequency text max_words.
Proof.
  intros Es Hl. unfold extract_keywords_tfidf, tfidf_body, try_except, bind.
  rewrite Es. apply Nat.ltb_lt in Hl. rewrite Hl.
  now destruct (extract_keywords_frequency text max_words).
Qed.

End PathFacts.

(** ** Normalised rankings *)

Section RankingFacts.
Import Py Spec.
Local Open Scope Q_scope.

Lemma StronglySorted_firstn {A : Type} (R : A -> A -> Prop) (n : nat) (l : list A) :
  StronglySorted R l -> StronglySorted R (firstn n l).
Proof.
  intros H. revert n. induction H as [|x l Hs IH Hall]; intros [|n]; cbn [firstn];
    try constructor.
  - apply IH.
  - rewrite Forall_forall in *. intros y Hy. apply Hall.
    rewrite <- (firstn_skipn n l). apply in_or_app. now left.
Qed.

Lemma StronglySorted_map {A B : Type} (R : A -> A -> Prop) (R' : B -> B -> Prop)
  (f : A -> B) (l : list A) :
  (forall a b, R a b -> R' (f a) (f b)) ->
  StronglySorted R l -> StronglySorted R' (map f l).
Proof.
  intros Hf. induction 1 as [|x l Hs IH Hall]; cbn [map]; constructor.
  - exact IH.
  - rewrite Forall_forall in *. intros y Hy.
    apply in_map_iff in Hy as [a [<- Ha]]. apply Hf, Hall, Ha.
Qed.

Lemma StronglySorted_map_in {A B : Type} (R : A -> A -> Prop) (R' : B -> B -> Prop)
  (f : A -> B) (l : list A) :
  (forall a b, In a l -> In b l -> R a b -> R' (f a) (f b)) ->
  StronglySorted R l -> StronglySorted R' (map f l).
Proof.
  intros Hf Hs. induction Hs as [|x l Hs IH Hall]; cbn [map]; constructor.
  - apply IH. intros a b Ha Hb. apply Hf; now right.
  - rewrite Forall_forall in *. intros y Hy.
    apply in_map_iff in Hy as [a [<- Ha]].
    apply Hf; [now left | now right | now apply Hall].
Qed.

Lemma StronglySorted_impl {A : Type} (R R' : A -> A -> Prop) (l : list A) :
  (forall a b, R a b -> R' a b) -> StronglySorted R l -> StronglySorted R' l.
Proof.
  intros H Hs. rewrite <- (map_id l).
  now apply StronglySorted_map with (R := R).
Qed.

Lemma Qdiv_le_mono (a b d : Q) : 0 < d -> a <= b -> a / d <= b / d.
Proof.
  intros Hd H. unfold Qdiv. apply Qmult_le_compat_r; [exact H|].
  apply Qlt_le_weak, Qinv_lt_0_compat, Hd.
Qed.

Lemma Qdiv_self (d : Q) : 0 < d -> d / d == 1.
Proof.
  intros Hd. field. intros E. rewrite E in Hd. apply (Qlt_irrefl 0 Hd).
Qed.

Lemma Qdiv_zero (d : Q) : 0 < d -> 0 / d == 0.
Proof.
  intros Hd. field. intros E. rewrite E in Hd. apply (Qlt_irrefl 0 Hd).
Qed.

Lemma float_div_mono (a b d : Q) : 0 < d -> 0 <= a -> a <= b -> float_div a d <= float_div b d.
Proof.
  intros Hd Ha Hab. unfold float_div. apply binary64_mono.
  - rewrite <- (Qdiv_zero d Hd). now apply Qdiv_le_mono.
  - now apply Qdiv_le_mono.
Qed.

Lemma float_div_self (a d : Q) : 0 < d -> a == d -> float_div a d == 1.
Proof.
  intros Hd E. unfold float_div. rewrite <- binary64_one.
  apply binary64_comp.
  - rewrite <- (Qdiv_zero d Hd). apply Qdiv_le_mono; [exact Hd|].
    rewrite E. now apply Qlt_le_weak.
  - rewrite E. now apply Qdiv_self.
Qed.

Lemma float_div_unit (a d : Q) :
  0 < d -> 0 <= a -> a <= d -> 0 <= float_div a d /\ float_div a d <= 1.
Proof.
  intros Hd Ha Had. split.
  - apply Qle_trans with (float_div 0 d).
    + unfold float_div. rewrite binary64_zero; [apply Qle_refl | now apply Qdiv_zero].
    + apply float_div_mono; [exact Hd | apply Qle_refl | exact Ha].
  - rewrite <- (float_div_self d d Hd (Qeq_refl d)).
    now apply float_div_mono.
Qed.

(** Dividing a descending list of non-negative scores by its head and
    rounding gives a normalised ranking; so does every non-empty prefix. *)
Lemma scaled_normalized {X : Type} (key : X -> Q) (f : X -> WordData) (m : Q)
  (top : X) (rest : list X) (k : nat) :
  (forall x, weight (f x) = round3 (float_div (key x) m)) ->
  key top == m -> 0 < m ->
  StronglySorted (fun a b => key b <= key a) (top :: rest) ->
  Forall (fun x => 0 <= key x) (top :: rest) ->
  normalized (map f (firstn (S k) (top :: rest))).
Proof.
  intros Hw Htop Hm Hs Hpos. rewrite Forall_forall in Hpos. repeat split.
  - apply StronglySorted_map_in with (R := fun a b => key b <= key a).
    + intros a b _ Hb Hab. rewrite !Hw.
      apply round3_mono, float_div_mono; try assumption.
      apply Hpos. eapply firstn_In, Hb.
    + apply StronglySorted_firstn, Hs.
  - rewrite Forall_forall. intros kw Hkw.
    apply in_map_iff in Hkw as [x [<- Hx]]. apply firstn_In in Hx.
    assert (H0 : 0 <= key x) by now apply Hpos.
    assert (H1 : key x <= m).
    { rewrite <- Htop. destruct Hx as [<-|Hx]; [apply Qle_refl|].
      inversion Hs as [|? ? _ Hall]; subst.
      rewrite Forall_forall in Hall. now apply Hall. }
    unfold unit_weight. rewrite Hw.
    destruct (float_div_unit (key x) m Hm H0 H1) as [Hlo Hhi].
    destruct (round3_unit _ Hlo Hhi) as [Ha Hb].
    repeat split; try assumption.
    eexists. apply round3_thousandths.
  - cbn [firstn map]. eexists _, _. split; [reflexivity|].
    rewrite Hw, <- round3_one. apply round3_comp. now apply float_div_self.
Qed.

End RankingFacts.

Section NormalizedPaths.
Context {nlp : NLP}.
Import Py Spec.
Local Open Scope Q_scope.

Lemma by_weight_total (a b : WordData) : by_weight a b = false -> by_weight b a = true.
Proof.
  unfold by_weight. intros H. apply Qle_bool_iff.
  destruct (Qlt_le_dec (weight a) (weight b)) as [Hlt|Hle]; [|exact Hle].
  apply Qlt_le_weak, Qle_bool_iff in Hlt. congruence.
Qed.

Lemma by_weight_trans (a b c : WordData) :
  by_weight a b = true -> by_weight b c = true -> by_weight a c = true.
Proof. unfold by_weight. rewrite !Qle_bool_iff. apply Qle_trans. Qed.

Lemma score_item_positive (freq : dict Z) (features : list (str * Q)) (k : WordData) :
  In k (flat_map (score_item freq) features) -> 0 < weight k.
Proof.
  intros H. apply in_flat_map in H as [f [_ Hk]].
  unfold score_item in Hk. destruct (Qlt_bool 0 (snd f)) eqn:E; [|contradiction].
  destruct Hk as [<-|[]]. cbn [weight]. now apply Qlt_bool_iff.
Qed.

Lemma frequency_normalized (text : str) (max_words : Z) (l : list WordData) :
  extract_keywords_frequency text max_words = Ok l -> l <> [] -> normalized l.
Proof.
  rewrite extract_keywords_frequency_eq. cbv zeta.
  destruct (slice_to_prefix max_words (sorted_desc by_count (document_frequencies text)))
    as [m ->].
  intros E Hne. injection E as <-.
  pose proof (sorted_desc_sorted _ by_count by_count_total by_count_trans
                (document_frequencies text)) as Hs.
  assert (Hpos : Forall (fun x => (1 <= snd x)%Z)
                   (sorted_desc by_count (document_frequencies text))).
  { rewrite Forall_forall. intros [w c] Hin. apply sorted_desc_In in Hin.
    now apply document_frequencies_pos in Hin. }
  destruct (sorted_desc by_count (document_frequencies text)) as [|top rest];
    [now destruct m|].
  destruct m as [|k]; [now cbn in Hne|].
  cbn [firstn top_count]. destruct top as [w c]. cbn [top_count].
  change ((w, c) :: firstn k rest) with (firstn (S k) ((w, c) :: rest)).
  assert (Hc : (1 <= c)%Z) by (now inversion Hpos).
  apply scaled_normalized with (key := fun x => inject_Z (snd x)) (m := inject_Z c).
  - reflexivity.
  - reflexivity.
  - change 0 with (inject_Z 0). rewrite <- Zlt_Qlt. lia.
  - eapply StronglySorted_impl; [|exact Hs].
    intros a b Hab. unfold desc, by_count in Hab. apply Z.leb_le in Hab.
    now rewrite <- Zle_Qle.
  - eapply Forall_impl; [|exact Hpos]. intros a Ha. cbn beta in *.
    change 0 with (inject_Z 0). rewrite <- Zle_Qle. lia.
Qed.

Lemma primary_normalized (freq : dict Z) (features : list (str * Q)) (max_words : Z)
  (l : list WordData) :
  slice_to max_words
    (normalize_weights (sorted_desc by_weight (flat_map (score_item freq) features))) = l ->
  l <> [] -> normalized l.
Proof.
  intros <- Hne.
  pose proof (sorted_desc_sorted _ by_weight by_weight_total by_weight_trans
                (flat_map (score_item freq) features)) as Hs.
  assert (Hpos : Forall (fun k => 0 < weight k)
                   (sorted_desc by_weight (flat_map (score_item freq) features))).
  { rewrite Forall_forall. intros k Hin. apply sorted_desc_In in Hin.
    eapply score_item_positive, Hin. }
  destruct (sorted_desc by_weight (flat_map (score_item freq) features)) as [|top rest].
  - exfalso. apply Hne. cbn [normalize_weights].
    destruct (slice_to_prefix max_words (@nil WordData)) as [m ->]. now destruct m.
  - assert (Htop : 0 < weight top) by (now inversion Hpos).
    unfold normalize_weights in *.
    apply Qlt_bool_iff in Htop as Hb. rewrite Hb in *.
    destruct (slice_to_prefix max_words
                (map (fun item => set_weight item
                                    (round3 (float_div (weight item) (weight top))))
                     (top :: rest))) as [m Hm].
    rewrite Hm in *. rewrite firstn_map in *.
    destruct m as [|k]; [now cbn in Hne|].
    apply scaled_normalized with (key := weight) (m := weight top).
    + reflexivity.
    + reflexivity.
    + exact Htop.
    + eapply StronglySorted_impl; [|exact Hs].
      intros a b Hab. unfold desc, by_weight in Hab. now apply Qle_bool_iff in Hab.
    + eapply Forall_impl; [|exact Hpos]. intros a Ha. now apply Qlt_le_weak.
Qed.

Lemma tfidf_normalized (text : str) (max_words : Z) (l : list WordData) :
  extract_keywords_tfidf text max_words = Ok l -> l <> [] -> normalized l.
Proof.
  intros E Hne.
  pose proof (extract_keywords_tfidf_path text max_words) as P.
  rewrite E in P. inversion P as [Hf | sentences features Hs Hl Hv Hf].
  - eapply frequency_normalized; [exact Hf | exact Hne].
  - subst l. eapply primary_normalized; [reflexivity | exact Hne].
Qed.

End NormalizedPaths.

(** C1. Whenever keyword extraction, on the primary or on the fallback path,
    returns a non-empty sequence, its entries are in descending order of
    weight, every weight lies in [0,1] with three decimals, and the first
    entry, which carries the maximum weight, has weight exactly 1. *)
Theorem C1_keywords_normalized (nlp : NLP) (text : str) (max_words : Z)
  (l : list WordData) :
  extract_keywords_tfidf text max_words = Ok l \/
  extract_keywords_frequency text max_words = Ok l ->
  l <> [] ->
  Spec.normalized l.
Proof.
  intros [E|E] Hne.
  - eapply tfidf_normalized; eassumption.
  - eapply frequency_normalized; eassumption.
Qed.

Lemma C1_keywords_normalized_witness :
  exists l,
    @extract_keywords_tfidf Demo.env
      (PyStr.lit "the lazy cat sat on the old mat. the small cat was happy. a happy cat purrs loudly.")
      5 = Ok l /\ l <> [] /\ Spec.normalized l.
Proof.
  eexists. split; [vm_compute; reflexivity|].
  split; [discriminate|].
  apply (C1_keywords_normalized Demo.env
           (PyStr.lit "the lazy cat sat on the old mat. the small cat was happy. a happy cat purrs loudly.")
           5).
  - left. vm_compute. reflexivity.
  - discriminate.
Defined.

(** ** The matcher only deletes characters or inserts the replacement *)

Section ScanFacts.
Import PyStr Re.

Variable P : ascii -> Prop.

Lemma sub_from_Forall (r : regex) (repl : str) (s : str) :
  Forall P repl -> Forall P s ->
  forall skip prev, Forall P (sub_from r repl skip prev s).
Proof.
  intros Hr Hs. induction Hs as [|a s Ha Hs IH]; intros skip prev; cbn [sub_from].
  - destruct skip, (match_regex r prev []); auto.
  - destruct skip as [|k]; [|apply IH].
    destruct (match_regex r prev (a :: s)) as [[|k]|].
    + apply Forall_app. split; [exact Hr|]. constructor; [exact Ha | apply IH].
    + apply Forall_app. split; [exact Hr | apply IH].
    + constructor; [exact Ha | apply IH].
Qed.

Lemma lstrip_Forall (s : str) : Forall P s -> Forall P (lstrip s).
Proof.
  induction 1 as [|a s Ha Hs IH]; cbn [lstrip]; [constructor|].
  destruct (is_space a); [exact IH | now constructor].
Qed.

Lemma rstrip_Forall (s : str) : Forall P s -> Forall P (rstrip s).
Proof.
  induction 1 as [|a s Ha Hs IH]; cbn [rstrip]; [constructor|].
  destruct (rstrip s).
  - destruct (is_space a); now repeat constructor.
  - now constructor.
Qed.

Lemma strip_Forall (s : str) : Forall P s -> Forall P (strip s).
Proof. intros H. apply lstrip_Forall, rstrip_Forall, H. Qed.

End ScanFacts.

Section LowerFacts.
Import PyStr Re.

Lemma lower_char_idem (c : ascii) : lower_char (lower_char c) = lower_char c.
Proof. destruct c as [[] [] [] [] [] [] [] []]; reflexivity. Qed.

Lemma lower_fixed (s : str) : Forall (fun c => lower_char c = c) s -> lower s = s.
Proof.
  induction 1 as [|a s Ha Hs IH]; [reflexivity|].
  unfold lower in *. cbn [map]. now rewrite Ha, IH.
Qed.

Lemma preprocess_text_lowered (text : str) :
  Forall (fun c => lower_char c = c) (preprocess_text text).
Proof.
  unfold preprocess_text, sub.
  apply strip_Forall.
  repeat (apply sub_from_Forall; [repeat constructor|]).
  unfold lower. rewrite Forall_map, Forall_forall.
  intros c _. apply lower_char_idem.
Qed.

(** [cleaned_text.lower()] is [cleaned_text]. *)
Lemma lower_preprocess_text (text : str) :
  lower (preprocess_text text) = preprocess_text text.
Proof. apply lower_fixed, preprocess_text_lowered. Qed.

End LowerFacts.

(** ** The top-level operation *)

Section AnalyzeFacts.
Context {nlp : NLP}.
Import PyStr Py Spec.

Lemma extract_keywords_frequency_total (text : str) (max_words : Z) :
  exists l, extract_keywords_frequency text max_words = Ok l.
Proof. rewrite extract_keywords_frequency_eq. eexists. reflexivity. Qed.

Lemma extract_keywords_tfidf_total (text : str) (max_words : Z) :
  exists l, extract_keywords_tfidf text max_words = Ok l.
Proof.
  destruct (extract_keywords_tfidf_path text max_words).
  - apply extract_keywords_frequency_total.
  - eexists. reflexivity.
Qed.

Lemma extract_keywords_tfidf_raise (text : str) (max_words : Z) :
  tfidf_body text max_words = Raise ->
  extract_keywords_tfidf text max_words = extract_keywords_frequency text max_words.
Proof. intros H. unfold extract_keywords_tfidf. now rewrite H. Qed.

(** [analyze_text] in closed form. *)
Lemma analyze_text_eq (text : str) (max_words : Z) :
  analyze_text text max_words =
  Ok (match preprocess_text text with
      | [] => None
      | _ :: _ =>
          match word_tokenize (preprocess_text text),
                extract_keywords_tfidf (preprocess_text text) max_words with
          | Ok tokens, Ok (k :: ks) =>
              Some {| words := k :: ks; word_count := Z.of_nat (length tokens) |}
          | _, _ => None
          end
      end).
Proof.
  unfold analyze_text. cbv zeta. rewrite lower_preprocess_text.
  destruct (preprocess_text text) as [|c cleaned]; [reflexivity|].
  unfold try_except, bind.
  destruct (word_tokenize (c :: cleaned)); [|reflexivity].
  destruct (extract_keywords_tfidf (c :: cleaned) max_words) as [[|k ks]|]; reflexivity.
Qed.

Lemma analyze_text_total (text : str) (max_words : Z) :
  exists r, analyze_text text max_words = Ok r.
Proof. rewrite analyze_text_eq. eexists. reflexivity. Qed.

(** A non-empty fallback result means the text could be tokenized. *)
Lemma frequency_nonempty_tokenized (text : str) (max_words : Z) (k : WordData)
  (ks : list WordData) :
  extract_keywords_frequency text max_words = Ok (k :: ks) ->
  exists tokens, word_tokenize text = Ok tokens.
Proof.
  rewrite extract_keywords_frequency_eq. cbv zeta. unfold document_frequencies.
  destruct (word_tokenize text) as [tokens|]; [eexists; reflexivity|].
  cbn [sorted_desc]. destruct (slice_to_prefix max_words (@nil (str * Z))) as [m ->].
  destruct m; discriminate.
Qed.

End AnalyzeFacts.

(** The examples of the specification, run in the reference environment. *)

Example quick_brown_fox :
  @analyze_text Demo.env (PyStr.lit "Quick brown fox.") 50%Z =
  Ok (Some {| words := [ {| word := PyStr.lit "quick"; weight := 1; frequency := 1 |};
                         {| word := PyStr.lit "brown"; weight := 1; frequency := 1 |};
                         {| word := PyStr.lit "fox"; weight := 1; frequency := 1 |} ];
              word_count := 3 |}).
Proof. vm_compute. reflexivity. Qed.

Example happy_cat :
  @analyze_text Demo.env
    (PyStr.lit "The cat sat on the mat. The cat was happy. A happy cat purrs.") 2%Z =
  Ok (Some {| words := [ {| word := PyStr.lit "cat"; weight := 1; frequency := 3 |};
                         {| word := PyStr.lit "happy"; weight := 667 # 1000; frequency := 2 |} ];
              word_count := 14 |}).
Proof. vm_compute. reflexivity. Qed.

Example empty_text : @analyze_text Demo.env (PyStr.lit "") 50%Z = Ok None.
Proof. reflexivity. Qed.

Example only_stop_words :
  @analyze_text Demo.env (PyStr.lit "the a an is of") 50%Z = Ok None.
Proof. vm_compute. reflexivity. Qed.

(** C2 (as stated) fails: the source returns the same value, [None], when the
    normalised text is empty and when no keyword is extracted, so no reading of
    the result can tell [EmptyContent] from [NoKeywordsExtracted]. *)
Lemma C2_failures_not_distinguished :
  ~ exists cause : result (option Analysis) -> Spec.failure,
      (forall (nlp : NLP) text n,
          preprocess_text text = [] ->
          cause (analyze_text text n) = Spec.EmptyContent) /\
      (forall (nlp : NLP) text n,
          preprocess_text text <> [] ->
          extract_keywords_tfidf (preprocess_text text) n = Ok [] ->
          cause (analyze_text text n) = Spec.NoKeywordsExtracted).
Proof.
  intros [cause [Hempty Hnone]].
  specialize (Hempty Demo.env (PyStr.lit "") 50%Z eq_refl).
  assert (H : cause (@analyze_text Demo.env (PyStr.lit "the") 50%Z)
              = Spec.NoKeywordsExtracted).
  { apply Hnone; [discriminate | vm_compute; reflexivity]. }
  assert (E : @analyze_text Demo.env (PyStr.lit "the") 50%Z
              = @analyze_text Demo.env (PyStr.lit "") 50%Z)
    by (vm_compute; reflexivity).
  rewrite E, Hempty in H. discriminate.
Qed.

(** C2 (amended). When the normalised text is empty, and when the extraction
    yields an empty keyword sequence, [analyze_text] returns the one failure
    value [None]; the cause is not part of the result. *)
Theorem C2_failure_is_none (nlp : NLP) (text : str) (max_words : Z) :
  preprocess_text text = [] \/
  extract_keywords_tfidf (preprocess_text text) max_words = Ok [] ->
  analyze_text text max_words = Ok None.
Proof.
  rewrite analyze_text_eq. intros [H|H].
  - now rewrite H.
  - destruct (preprocess_text text) as [|c cleaned]; [reflexivity|].
    destruct (word_tokenize (c :: cleaned)); [|reflexivity]. now rewrite H.
Qed.

Lemma C2_failure_is_none_witness :
  @analyze_text Demo.env (PyStr.lit "") 50%Z = Ok None /\
  @analyze_text Demo.env (PyStr.lit "the a an is of") 50%Z = Ok None.
Proof.
  split.
  - apply (C2_failure_is_none Demo.env). left. reflexivity.
  - apply (C2_failure_is_none Demo.env). right. vm_compute. reflexivity.
Defined.

(** C4. An exception raised inside the TF-IDF path is caught in
    [extract_keywords_tfidf] and answered by the frequency path; neither
    extraction function nor [analyze_text] ever raises; and after such an
    exception the caller sees a failure only if the frequency path returned
    nothing. *)
Theorem C4_exceptions_contained (nlp : NLP) (text : str) (max_words : Z) :
  (tfidf_body text max_words = Raise ->
   extract_keywords_tfidf text max_words = extract_keywords_frequency text max_words) /\
  (exists l, extract_keywords_tfidf text max_words = Ok l) /\
  (exists l, extract_keywords_frequency text max_words = Ok l) /\
  (exists r, analyze_text text max_words = Ok r) /\
  (tfidf_body (preprocess_text text) max_words = Raise ->
   forall k ks,
     extract_keywords_frequency (preprocess_text text) max_words = Ok (k :: ks) ->
     preprocess_text text <> [] ->
     exists a, analyze_text text max_words = Ok (Some a) /\ words a = k :: ks).
Proof.
  split; [apply extract_keywords_tfidf_raise|].
  split; [apply extract_keywords_tfidf_total|].
  split; [apply extract_keywords_frequency_total|].
  split; [apply analyze_text_total|].
  intros Hraise k ks Hfreq Hne.
  rewrite analyze_text_eq.
  apply extract_keywords_tfidf_raise in Hraise.
  destruct (frequency_nonempty_tokenized _ _ _ _ Hfreq) as [tokens Ht].
  destruct (preprocess_text text) as [|c cleaned]; [contradiction|].
  rewrite Ht, Hraise, Hfreq.
  eexists. split; reflexivity.
Qed.

Lemma C4_exceptions_contained_witness :
  exists a,
    @analyze_text Demo.failing (PyStr.lit "Quick brown fox.") 5%Z = Ok (Some a) /\
    length (words a) = 3%nat.
Proof.
  destruct (C4_exceptions_contained Demo.failing (PyStr.lit "Quick brown fox.") 5%Z)
    as [_ [_ [_ [_ H]]]].
  destruct (H eq_refl
              {| word := PyStr.lit "quick"; weight := 1; frequency := 1 |}
              [ {| word := PyStr.lit "brown"; weight := 1; frequency := 1 |};
                {| word := PyStr.lit "fox"; weight := 1; frequency := 1 |} ])
    as [a [Ha Hw]].
  - vm_compute. reflexivity.
  - discriminate.
  - exists a. split; [exact Ha | now rewrite Hw].
Defined.

(** C8. The reported [word_count] is the number of tokens of the normalised
    text, stop words and short tokens included; it can exceed the number of
    entries of the frequency map. *)
Theorem C8_word_count_is_raw (nlp : NLP) (text : str) (max_words : Z) (a : Analysis) :
  analyze_text text max_words = Ok (Some a) ->
  preprocess_text text <> [] /\
  (exists tokens,
      word_tokenize (preprocess_text text) = Ok tokens /\
      word_count a = Z.of_nat (length tokens)) /\
  (exists text' a' freq,
      @analyze_text Demo.env text' 50%Z = Ok (Some a') /\
      @get_word_frequencies Demo.env (preprocess_text text') = Ok freq /\
      (Z.of_nat (length freq) < word_count a')%Z).
Proof.
  rewrite analyze_text_eq. intros H. repeat split.
  - intros E. rewrite E in H. discriminate.
  - destruct (preprocess_text text) as [|c cleaned]; [discriminate|].
    destruct (word_tokenize (c :: cleaned)) as [tokens|]; [|discriminate].
    exists tokens. split; [reflexivity|].
    destruct (extract_keywords_tfidf (c :: cleaned) max_words) as [[|k ks]|];
      try discriminate.
    injection H as <-. reflexivity.
  - exists (PyStr.lit "The cat sat on the mat."). eexists. eexists.
    split; [vm_compute; reflexivity|].
    split; [vm_compute; reflexivity|].
    vm_compute. reflexivity.
Qed.

Lemma C8_word_count_is_raw_witness :
  exists a,
    @analyze_text Demo.env (PyStr.lit "The cat sat on the mat.") 50%Z = Ok (Some a) /\
    word_count a = 6%Z.
Proof.
  eexists. split; [vm_compute; reflexivity|].
  destruct (C8_word_count_is_raw Demo.env (PyStr.lit "The cat sat on the mat.") 50%Z
              {| words := [ {| word := PyStr.lit "cat"; weight := 1; frequency := 1 |};
                            {| word := PyStr.lit "sat"; weight := 1; frequency := 1 |};
                            {| word := PyStr.lit "mat"; weight := 1; frequency := 1 |} ];
                 word_count := 6 |})
    as [_ [[tokens [Ht Hc]] _]].
  - vm_compute. reflexivity.
  - reflexivity.
Defined.

(** ** The fallback ranking *)

Section FallbackFacts.
Context {nlp : NLP}.
Import PyStr Py Spec.

Lemma by_count_equiv (c : Z) (item : str * Z) :
  equiv_keys by_count ([], c) item = (snd item =? c)%Z.
Proof.
  unfold equiv_keys, by_count. cbn [snd].
  destruct (snd item =? c)%Z eqn:E.
  - apply Z.eqb_eq in E. rewrite E, Z.leb_refl. reflexivity.
  - apply Z.eqb_neq in E. apply andb_false_iff.
    rewrite !Z.leb_gt. lia.
Qed.

Lemma ranked_stable (c : Z) (freq : dict Z) :
  filter (fun item => (snd item =? c)%Z) (sorted_desc by_count freq) =
  filter (fun item => (snd item =? c)%Z) freq.
Proof.
  rewrite <- !(filter_ext _ _ (by_count_equiv c)).
  apply sorted_desc_stable, by_count_trans.
Qed.

Lemma top_count_firstn (n : nat) (items : list (str * Z)) :
  map (keyword_of (top_count (firstn n items))) (firstn n items) =
  map (keyword_of (top_count items)) (firstn n items).
Proof. destruct n, items; reflexivity. Qed.

Lemma document_frequencies_keys (text : str) (tokens : list str) :
  word_tokenize text = Ok tokens ->
  map fst (document_frequencies text) = first_occurrences (filter counted tokens).
Proof.
  intros H. unfold document_frequencies, word_frequency_map. rewrite H.
  rewrite map_map. cbn [fst]. apply map_id.
Qed.

End FallbackFacts.

(** C3. When segmentation, period splitting included, yields fewer than two
    segments, [extract_keywords_tfidf] returns what the frequency path
    returns: the entries of the whole-document frequency map (whose keys are
    in first-occurrence order) sorted by count, descending, entries of equal
    count keeping their order; cut to the first [max_words]; each with weight
    [round(count / top count, 3)]. *)
Theorem C3_fallback_ranking (nlp : NLP) (text : str) (max_words : Z)
  (sentences : list str) :
  segment text = Ok sentences ->
  (length sentences < 2)%nat ->
  (0 <= max_words)%Z ->
  exists ranked : list (str * Z),
    extract_keywords_tfidf text max_words = extract_keywords_frequency text max_words /\
    extract_keywords_frequency text max_words =
      Ok (map (Spec.keyword_of (Spec.top_count ranked))
              (firstn (Z.to_nat max_words) ranked)) /\
    Permutation ranked (Spec.document_frequencies text) /\
    StronglySorted (fun a b => (snd b <= snd a)%Z) ranked /\
    (forall c, filter (fun item => (snd item =? c)%Z) ranked =
               filter (fun item => (snd item =? c)%Z) (Spec.document_frequencies text)) /\
    (forall tokens, word_tokenize text = Ok tokens ->
                    map fst (Spec.document_frequencies text) =
                    Spec.first_occurrences (filter Spec.counted tokens)).
Proof.
  intros Hs Hl Hn.
  exists (Py.sorted_desc by_count (Spec.document_frequencies text)).
  split; [eapply extract_keywords_tfidf_short; eassumption|].
  split.
  { rewrite extract_keywords_frequency_eq. cbv zeta.
    rewrite slice_to_nonneg by exact Hn. now rewrite top_count_firstn. }
  split; [apply sorted_desc_perm|].
  split.
  { eapply StronglySorted_impl;
      [|apply (sorted_desc_sorted _ by_count by_count_total by_count_trans)].
    intros a b Hab. unfold Py.desc, by_count in Hab. now apply Z.leb_le. }
  split; [intros c; apply ranked_stable|].
  apply document_frequencies_keys.
Qed.

Lemma C3_fallback_ranking_witness :
  @extract_keywords_tfidf Demo.env (PyStr.lit "tea and rice and rice and tea or jam") 2%Z =
  Ok [ {| word := PyStr.lit "tea"; weight := 1; frequency := 2 |};
       {| word := PyStr.lit "rice"; weight := 1; frequency := 2 |} ].
Proof.
  destruct (C3_fallback_ranking Demo.env
              (PyStr.lit "tea and rice and rice and tea or jam") 2%Z
              [PyStr.lit "tea and rice and rice and tea or jam"])
    as [ranked [E1 [E2 _]]].
  - vm_compute. reflexivity.
  - cbn [length]. lia.
  - lia.
  - rewrite E1. vm_compute. reflexivity.
Defined.

(** ** Terms, frequencies and the final cut *)

Section TermFacts.
Context {nlp : NLP}.
Import PyStr Py Spec.




(** The keywords of the primary path, traced back to their features. *)
Lemma primary_terms (freq : dict Z) (features : list (str * Q)) (max_words : Z)
  (k : WordData) :
  In k (slice_to max_words
          (normalize_weights (sorted_desc by_weight (flat_map (score_item freq) features)))) ->
  exists f score,
    In (f, score) features /\ (0 < score)%Q /\
    word k = replace " " "_" f /\ frequency k = dict_get freq f 1%Z.
Proof.
  intros Hk. apply slice_to_In in Hk.
  assert (H : exists k0, In k0 (flat_map (score_item freq) features) /\
                         word k = word k0 /\ frequency k = frequency k0).
  { unfold normalize_weights in Hk.
    destruct (sorted_desc by_weight (flat_map (score_item freq) features))
      as [|top rest] eqn:E; [contradiction|].
    destruct (Qlt_bool 0 (weight top)).
    - apply in_map_iff in Hk as [k0 [<- Hk0]]. exists k0.
      rewrite <- E in Hk0. apply sorted_desc_In in Hk0. now repeat split.
    - exists k. rewrite <- E in Hk. apply sorted_desc_In in Hk. now repeat split. }
  destruct H as [k0 [Hin [-> ->]]].
  apply in_flat_map in Hin as [[f score] [Hf Hk0]].
  unfold score_item in Hk0. cbn [fst snd] in Hk0.
  destruct (Qlt_bool 0 score) eqn:E; [|contradiction].
  destruct Hk0 as [<-|[]]. exists f, score.
  apply Qlt_bool_iff in E. now repeat split.
Qed.

Lemma dict_get_default_pos (freq : dict Z) (f : str) :
  (forall w c, In (w, c) freq -> (1 <= c)%Z) -> (1 <= dict_get freq f 1)%Z.
Proof.
  induction freq as [|[w c] freq IH]; intros H; cbn [dict_get]; [lia|].
  destruct (str_eqb w f).
  - apply (H w). now left.
  - apply IH. intros w' c' Hin. apply (H w'). now right.
Qed.

Lemma slice_to_length {A : Type} (n : Z) (l : list A) :
  (0 <= n)%Z -> length (slice_to n l) = Nat.min (Z.to_nat n) (length l).
Proof. intros H. rewrite slice_to_nonneg by exact H. apply length_firstn. Qed.



End TermFacts.

Section PrimaryFacts.
Context {nlp : NLP}.
Import PyStr Py Spec.

Lemma extract_keywords_tfidf_primary (text : str) (max_words : Z)
  (sentences : list str) (features : list (str * Q)) :
  segment text = Ok sentences ->
  (2 <= length sentences)%nat ->
  tfidf_mean_scores (make_vectorizer max_words) sentences = Ok features ->
  extract_keywords_tfidf text max_words =
  Ok (slice_to max_words
        (normalize_weights
           (sorted_desc by_weight
              (flat_map (score_item (document_frequencies text)) features)))).
Proof.
  intros Hs Hl Hf. unfold extract_keywords_tfidf, tfidf_body, try_except, bind.
  rewrite Hs. apply Nat.ltb_ge in Hl. rewrite Hl, Hf, tfidf_candidates_eq.
  reflexivity.
Qed.


End PrimaryFacts.

(** C6. On the primary path every returned keyword comes from a feature with
    a positive score; its term is the feature name with spaces replaced by
    underscores, and its frequency is the entry of the whole-document
    frequency map under the feature name itself (space-joined for a bigram),
    1 when there is none; so every frequency is at least 1. *)
Theorem C6_primary_frequency (nlp : NLP) (text : str) (max_words : Z)
  (sentences : list str) (features : list (str * Q)) (l : list WordData) :
  segment text = Ok sentences ->
  (2 <= length sentences)%nat ->
  tfidf_mean_scores (make_vectorizer max_words) sentences = Ok features ->
  extract_keywords_tfidf text max_words = Ok l ->
  Forall (fun k =>
            (1 <= frequency k)%Z /\
            exists f score,
              In (f, score) features /\ (0 < score)%Q /\
              word k = PyStr.replace " " "_" f /\
              frequency k = Py.dict_get (Spec.document_frequencies text) f 1%Z) l.
Proof.
  intros Hs Hl Hf E.
  rewrite (extract_keywords_tfidf_primary _ _ _ _ Hs Hl Hf) in E. injection E as <-.
  rewrite Forall_forall. intros k Hk.
  apply primary_terms in Hk as [f [score [Hin [Hpos [Hw Hfr]]]]].
  split.
  - rewrite Hfr. apply dict_get_default_pos.
    intros w c. apply document_frequencies_pos.
  - exists f, score. now repeat split.
Qed.

Lemma C6_primary_frequency_witness :
  exists l,
    @extract_keywords_tfidf Demo.env
      (PyStr.lit "the cat sat on the mat. the cat was happy. a happy cat purrs.") 5%Z = Ok l /\
    Forall (fun k => (1 <= frequency k)%Z) l /\
    In {| word := PyStr.lit "cat_sat"; weight := 1 # 2; frequency := 1 |} l.
Proof.
  eexists. split; [vm_compute; reflexivity|].
  split.
  - eapply Forall_impl;
      [|eapply (C6_primary_frequency Demo.env
                  (PyStr.lit "the cat sat on the mat. the cat was happy. a happy cat purrs.")
                  5%Z)].
    + intros k [H _]. exact H.
    + vm_compute. reflexivity.
    + vm_compute. lia.
    + vm_compute. reflexivity.
    + vm_compute. reflexivity.
  - cbn [In]. right. right. right. left. reflexivity.
Defined.

(** * The Normalizer *)

Section NormalizerFacts.
Import PyStr Re Normal.
Local Open Scope nat_scope.

(** ** Runs *)

Section GroupFacts.
Variable p : ascii -> bool.


Lemma take_drop (b : bool) (s : str) : take_run p b s ++ drop_run p b s = s.
Proof.
  induction s as [|c s IH]; [reflexivity|]. cbn [take_run drop_run].
  destruct (Bool.eqb (p c) b); [cbn; now rewrite IH | reflexivity].
Qed.

Lemma take_run_class (b : bool) (s : str) : Forall (fun c => p c = b) (take_run p b s).
Proof.
  induction s as [|c s IH]; cbn [take_run]; [constructor|].
  destruct (Bool.eqb (p c) b) eqn:E; constructor; [now apply Bool.eqb_prop | exact IH].
Qed.

Lemma drop_run_other (b : bool) (s : str) : starts_other p b (drop_run p b s).
Proof.
  induction s as [|c s IH]; cbn [drop_run]; [exact I|].
  destruct (Bool.eqb (p c) b) eqn:E; [exact IH|].
  cbn. destruct (p c), b; cbn in *; congruence.
Qed.

Lemma drop_run_length (b : bool) (s : str) : length (drop_run p b s) <= length s.
Proof.
  induction s as [|c s IH]; cbn [drop_run]; [lia|].
  destruct (Bool.eqb (p c) b); cbn [length]; lia.
Qed.

Lemma take_run_app (b : bool) (g rest : str) :
  Forall (fun c => p c = b) g -> starts_other p b rest ->
  take_run p b (g ++ rest) = g /\ drop_run p b (g ++ rest) = rest.
Proof.
  induction 1 as [|c g Hc Hg IH]; intros Hr.
  - destruct rest as [|d rest]; [now split|]. cbn in *.
    rewrite Hr. destruct b; cbn; now split.
  - cbn. rewrite Hc, Bool.eqb_reflx. destruct (IH Hr) as [-> ->]. now split.
Qed.

Lemma group_cons (c : ascii) (s : str) :
  group p (c :: s) = (c :: take_run p (p c) s) :: group p (drop_run p (p c) s).
Proof.
  revert c. induction s as [|d s IH]; intros c; [reflexivity|].
  change (group p (c :: d :: s)) with
    (match group p (d :: s) with
     | (d' :: g) :: gs =>
         if same_class p c d' then (c :: d' :: g) :: gs else [c] :: (d' :: g) :: gs
     | _ => [[c]]
     end).
  rewrite IH. cbn [take_run drop_run]. unfold same_class.
  destruct (p c) eqn:Ec, (p d) eqn:Ed; cbn [Bool.eqb]; try reflexivity;
    rewrite IH, Ed; reflexivity.
Qed.

Lemma group_app (b : bool) (g rest : str) :
  g <> [] -> Forall (fun c => p c = b) g -> starts_other p b rest ->
  group p (g ++ rest) = g :: group p rest.
Proof.
  intros Hne Hg Hr. destruct g as [|c g]; [contradiction|].
  inversion Hg as [|? ? Hc Hg']; subst.
  cbn [app]. rewrite group_cons.
  destruct (take_run_app (p c) g rest Hg' Hr) as [-> ->]. reflexivity.
Qed.

(** Induction over a string, one maximal run at a time. *)
Lemma run_induction (P : str -> Prop) :
  P [] ->
  (forall b g rest,
      g <> [] -> Forall (fun c => p c = b) g -> starts_other p b rest ->
      P rest -> P (g ++ rest)) ->
  forall s, P s.
Proof.
  intros Hnil Hrun s.
  assert (H : forall n s, length s <= n -> P s).
  { clear s. induction n as [|n IH]; intros s Hs.
    - destruct s; [exact Hnil | cbn in Hs; lia].
    - destruct s as [|c s]; [exact Hnil|].
      rewrite <- (take_drop (p c) s).
      change (P ((c :: take_run p (p c) s) ++ drop_run p (p c) s)).
      apply Hrun with (b := p c).
      + discriminate.
      + constructor; [reflexivity | apply take_run_class].
      + apply drop_run_other.
      + apply IH. pose proof (drop_run_length (p c) s). cbn in Hs. lia. }
  apply (H (length s)). lia.
Qed.

Lemma concat_group (s : str) : concat (group p s) = s.
Proof.
  induction s as [|b g rest Hne Hg Hr IH] using run_induction; [reflexivity|].
  rewrite (group_app b) by assumption. cbn [concat]. now rewrite IH.
Qed.

End GroupFacts.

(** ** The scan of [re.sub], one run at a time *)

Section SubFacts.
Variable r : regex.
Variable repl : str.


Lemma sub_from_skip (g rest : str) (prev : option ascii) :
  match_regex r (last_opt prev g) [] = None ->
  sub_from r repl (length g) prev (g ++ rest) = sub_from r repl 0 (last_opt prev g) rest.
Proof.
  revert prev. induction g as [|a g IH]; intros prev Hend; [reflexivity|].
  cbn [length app sub_from last_opt]. apply IH, Hend.
Qed.

Lemma sub_from_matched (a : ascii) (g rest : str) (prev : option ascii) :
  match_regex r prev (a :: g ++ rest) = Some (S (length g)) ->
  match_regex r (last_opt (Some a) g) [] = None ->
  sub_from r repl 0 prev (a :: g ++ rest) =
  repl ++ sub_from r repl 0 (last_opt (Some a) g) rest.
Proof.
  intros Hm Hend. cbn [sub_from]. rewrite Hm. now rewrite sub_from_skip.
Qed.

Lemma sub_from_copy (g rest : str) (prev : option ascii) :
  (forall g1 a g2, g = g1 ++ a :: g2 ->
                   match_regex r (last_opt prev g1) (a :: g2 ++ rest) = None) ->
  sub_from r repl 0 prev (g ++ rest) = g ++ sub_from r repl 0 (last_opt prev g) rest.
Proof.
  revert prev. induction g as [|a g IH]; intros prev H; [reflexivity|].
  cbn [app sub_from last_opt].
  pose proof (H [] a g eq_refl) as H0. cbn [last_opt app] in H0. rewrite H0. f_equal.
  apply IH. intros g1 b g2 E. apply (H (a :: g1) b g2). now rewrite E.
Qed.

End SubFacts.

(** ** What each pattern matches *)

Section MatchFacts.

Lemma match_plus_unfold (q : ascii -> bool) (r' : branch) (prev : option ascii) (s : str) :
  match_branch (Plus q :: r') prev s =
  match s with
  | a :: s' =>
      if q a then
        match match_branch (Plus q :: r') (Some a) s' with
        | Some n => Some (S n)
        | None => option_map S (match_branch r' (Some a) s')
        end
      else None
  | [] => None
  end.
Proof. destruct s; reflexivity. Qed.

Lemma match_regex_one (b : branch) (prev : option ascii) (s : str) :
  match_regex [b] prev s = match_branch b prev s.
Proof. cbn [match_regex]. now destruct (match_branch b prev s). Qed.

Lemma match_wordb (r' : branch) (prev : option ascii) (s : str) :
  match_branch (WordB :: r') prev s =
  if at_boundary prev s then match_branch r' prev s else None.
Proof. reflexivity. Qed.

(** [q+] at the end of a pattern takes the whole run. *)
Lemma match_plus_run (q : ascii -> bool) (prev : option ascii) (s : str) :
  match_branch [Plus q] prev s =
  match take_run q true s with
  | [] => None
  | t => Some (length t)
  end.
Proof.
  revert prev. induction s as [|a s IH]; intros prev; [reflexivity|].
  rewrite match_plus_unfold, IH. cbn [take_run].
  destruct (q a); cbn [Bool.eqb]; [|reflexivity].
  destruct (take_run q true s); reflexivity.
Qed.

Lemma match_chars (l : str) (r' : branch) (prev : option ascii) (s : str) :
  match_branch (map Chr l ++ r') prev s =
  match after_prefix l s with
  | Some rest =>
      option_map (Nat.add (length l)) (match_branch r' (last_opt prev l) rest)
  | None => None
  end.
Proof.
  revert prev s. induction l as [|c l IH]; intros prev s.
  - cbn. now destruct (match_branch r' prev s).
  - cbn [map app match_branch after_prefix last_opt length].
    destruct s as [|a s]; [reflexivity|].
    destruct (Ascii.eqb a c) eqn:E; [|reflexivity].
    apply Ascii.eqb_eq in E. subst a. rewrite IH.
    destruct (after_prefix l s) as [rest|]; [|reflexivity].
    now destruct (match_branch r' (last_opt (Some c) l) rest).
Qed.

Lemma take_run_prefix (l s rest : str) :
  Forall (fun c => nonspace c = true) l -> after_prefix l s = Some rest ->
  take_run nonspace true s = l ++ take_run nonspace true rest.
Proof.
  intros Hl. revert s. induction Hl as [|c l Hc Hl IH]; intros s H.
  - cbn in H. now injection H as ->.
  - destruct s as [|a s]; [discriminate|]. cbn in H.
    destruct (Ascii.eqb a c) eqn:E; [|discriminate].
    apply Ascii.eqb_eq in E. subst a. cbn [take_run]. rewrite Hc. cbn.
    now rewrite (IH _ H).
Qed.

Lemma then_nonspace_run (o : option str) :
  then_nonspace o =
  match o with
  | Some rest => match take_run nonspace true rest with [] => false | _ => true end
  | None => false
  end.
Proof.
  destruct o as [[|c rest]|]; try reflexivity. cbn.
  now destruct (nonspace c).
Qed.

(** The URL pattern matches exactly at a URL start, up to the end of the
    token. *)
Lemma match_url (prev : option ascii) (s : str) :
  match_regex Patterns.url prev s =
  if url_start s then Some (length (take_run nonspace true s)) else None.
Proof.
  unfold Patterns.url, url_start, chars. cbn [match_regex].
  rewrite !match_chars, !then_nonspace_run.
  destruct (after_prefix (lit "http") s) as [rest|] eqn:E1.
  - rewrite match_plus_run.
    rewrite (take_run_prefix (lit "http") s rest) by (repeat constructor || exact E1).
    destruct (take_run nonspace true rest) eqn:Et.
    + cbn [option_map orb].
      destruct (after_prefix (lit "www") s) as [rest'|] eqn:E2; [|reflexivity].
      exfalso. destruct s as [|a s]; [discriminate|]. cbn in E1, E2.
      destruct (Ascii.eqb a "h") eqn:Eh; [|discriminate].
      apply Ascii.eqb_eq in Eh. subst a. discriminate.
    + cbn [option_map orb]. now rewrite length_app.
  - cbn [orb]. destruct (after_prefix (lit "www") s) as [rest|] eqn:E2; [|reflexivity].
    rewrite match_plus_run.
    rewrite (take_run_prefix (lit "www") s rest) by (repeat constructor || exact E2).
    destruct (take_run nonspace true rest); [reflexivity|].
    cbn [option_map]. now rewrite length_app.
Qed.

End MatchFacts.

(** ** Step 2: URLs *)

Section UrlFacts.


Lemma then_nonspace_app (l g rest : str) :
  Forall (fun c => nonspace c = true) l ->
  starts_other nonspace true rest ->
  then_nonspace (after_prefix l (g ++ rest)) = then_nonspace (after_prefix l g).
Proof.
  intros Hl Hr. revert g. induction Hl as [|a l Ha Hl IH]; intros g.
  - cbn. destruct g as [|c g]; [|reflexivity]. cbn.
    destruct rest as [|d rest]; [reflexivity|]. cbn in Hr. now rewrite Hr.
  - destruct g as [|c g]; cbn.
    + destruct rest as [|d rest]; [reflexivity|]. cbn in *.
      destruct (Ascii.eqb d a) eqn:E; [|reflexivity].
      apply Ascii.eqb_eq in E. subst d. rewrite Ha in Hr. discriminate.
    + destruct (Ascii.eqb c a); [apply IH | reflexivity].
Qed.

Lemma url_start_app (g rest : str) :
  starts_other nonspace true rest -> url_start (g ++ rest) = url_start g.
Proof.
  intros Hr. unfold url_start.
  rewrite !then_nonspace_app by (repeat constructor || exact Hr). reflexivity.
Qed.

Lemma url_start_space (c : ascii) (s : str) : nonspace c = false -> url_start (c :: s) = false.
Proof.
  intros Hc. unfold url_start. cbn.
  destruct (Ascii.eqb c "h") eqn:E1.
  { apply Ascii.eqb_eq in E1. subst c. discriminate. }
  destruct (Ascii.eqb c "w") eqn:E2.
  { apply Ascii.eqb_eq in E2. subst c. discriminate. }
  reflexivity.
Qed.

Lemma cut_url_spaces (g : str) : Forall (fun c => nonspace c = false) g -> cut_url g = g.
Proof.
  induction 1 as [|c g Hc Hg IH]; [reflexivity|].
  cbn [cut_url]. rewrite (url_start_space c g Hc). now rewrite IH.
Qed.

Lemma url_end (prev : option ascii) : match_regex Patterns.url prev [] = None.
Proof. reflexivity. Qed.

Lemma sub_url_token (g rest : str) (prev : option ascii) :
  Forall (fun c => nonspace c = true) g -> starts_other nonspace true rest ->
  sub_from Patterns.url [] 0 prev (g ++ rest) =
  cut_url g ++ sub_from Patterns.url [] 0 (last_opt prev g) rest.
Proof.
  intros Hg Hr. revert prev. induction Hg as [|a g Ha Hg IH]; intros prev; [reflexivity|].
  cbn [cut_url]. destruct (url_start (a :: g)) eqn:E.
  - change ((a :: g) ++ rest) with (a :: g ++ rest).
    rewrite sub_from_matched; [reflexivity | | apply url_end].
    rewrite match_url. change (a :: g ++ rest) with ((a :: g) ++ rest).
    rewrite url_start_app, E by exact Hr.
    destruct (take_run_app nonspace true (a :: g) rest) as [-> _];
      [now constructor | exact Hr | reflexivity].
  - cbn [app sub_from]. rewrite match_url.
    change (a :: g ++ rest) with ((a :: g) ++ rest).
    rewrite url_start_app, E by exact Hr. cbn [app last_opt]. now rewrite IH.
Qed.

Lemma sub_url_spaces (g rest : str) (prev : option ascii) :
  Forall (fun c => nonspace c = false) g ->
  sub_from Patterns.url [] 0 prev (g ++ rest) =
  g ++ sub_from Patterns.url [] 0 (last_opt prev g) rest.
Proof.
  intros Hg. apply sub_from_copy. intros g1 a g2 E.
  rewrite match_url, url_start_space; [reflexivity|].
  rewrite Forall_forall in Hg. apply Hg. rewrite E. apply in_or_app. right. now left.
Qed.

(** [re.sub(r'http\S+|www\S+', '', s)] cuts every token at its first URL
    start. *)
Lemma sub_url (s : str) : sub Patterns.url [] s = remove_urls s.
Proof.
  unfold sub, remove_urls. generalize (@None ascii) as prev.
  induction s as [|b g rest Hne Hg Hr IH] using (run_induction nonspace); intros prev;
    [reflexivity|].
  rewrite (group_app nonspace b) by assumption. cbn [map concat].
  rewrite <- IH with (prev := last_opt prev g).
  destruct b.
  - now apply sub_url_token.
  - rewrite cut_url_spaces by exact Hg. now apply sub_url_spaces.
Qed.

End UrlFacts.

(** ** Step 3: e-mail addresses *)

Section EmailFacts.


Lemma match_at (g rest : str) (prev : option ascii) :
  Forall (fun c => nonspace c = true) g -> starts_other nonspace true rest ->
  match_branch [Chr "@"; Plus nonspace] prev (g ++ rest) =
  if at_then_more g then Some (length g) else None.
Proof.
  intros Hg Hr. destruct g as [|c g].
  - cbn [app at_then_more]. destruct rest as [|d rest]; [reflexivity|].
    cbn [match_branch]. destruct (Ascii.eqb d "@") eqn:E; [|reflexivity].
    apply Ascii.eqb_eq in E. subst d. discriminate.
  - change (match_branch [Chr "@"; Plus nonspace] prev ((c :: g) ++ rest)) with
      (if Ascii.eqb c "@"
       then option_map S (match_branch [Plus nonspace] (Some c) (g ++ rest))
       else None).
    rewrite match_plus_run. inversion Hg as [|? ? Hc Hg']; subst.
    destruct (take_run_app nonspace true g rest Hg' Hr) as [-> _].
    cbn [at_then_more]. destruct g as [|d g]; destruct (Ascii.eqb c "@"); reflexivity.
Qed.

Lemma match_email (g rest : str) (prev : option ascii) :
  Forall (fun c => nonspace c = true) g -> starts_other nonspace true rest ->
  match_regex Patterns.email prev (g ++ rest) =
  if email_like g then Some (length g) else None.
Proof.
  intros Hg Hr. unfold Patterns.email. cbn [match_regex].
  assert (H : match_branch [Plus nonspace; Chr "@"; Plus nonspace] prev (g ++ rest) =
              if email_like g then Some (length g) else None).
  { revert prev. induction Hg as [|a g Ha Hg IH]; intros prev.
    - rewrite match_plus_unfold. cbn [app email_like].
      destruct rest as [|d rest]; [reflexivity|]. cbn in Hr. now rewrite Hr.
    - rewrite match_plus_unfold. cbn [app]. rewrite Ha, IH, match_at by assumption.
      cbn [email_like length].
      destruct (email_like g), (at_then_more g); reflexivity. }
  rewrite H. now destruct (email_like g).
Qed.

Lemma email_like_suffix (g1 g2 : str) :
  email_like (g1 ++ g2) = false -> email_like g2 = false.
Proof.
  induction g1 as [|c g1 IH]; [trivial|]. cbn [app email_like].
  intros H. apply orb_false_iff in H as [_ H]. now apply IH.
Qed.

Lemma email_like_spaces (g : str) :
  Forall (fun c => nonspace c = false) g -> email_like g = false.
Proof.
  induction 1 as [|c g Hc Hg IH]; [reflexivity|].
  cbn [email_like]. rewrite IH, orb_false_r.
  destruct Hg as [|d g Hd Hg]; [reflexivity|]. cbn.
  destruct g; [reflexivity|].
  destruct (Ascii.eqb d "@") eqn:E; [|reflexivity].
  apply Ascii.eqb_eq in E. subst d. discriminate.
Qed.


Lemma sub_email_token (g rest : str) (prev : option ascii) :
  Forall (fun c => nonspace c = true) g -> starts_other nonspace true rest ->
  sub_from Patterns.email [] 0 prev (g ++ rest) =
  keep_token g ++ sub_from Patterns.email [] 0 (last_opt prev g) rest.
Proof.
  intros Hg Hr. unfold keep_token. destruct (email_like g) eqn:E.
  - destruct g as [|a g]; [discriminate|].
    change ((a :: g) ++ rest) with (a :: g ++ rest).
    rewrite sub_from_matched; [reflexivity | | reflexivity].
    change (a :: g ++ rest) with ((a :: g) ++ rest).
    rewrite match_email, E by assumption. reflexivity.
  - apply sub_from_copy. intros g1 a g2 Eg.
    change (a :: g2 ++ rest) with ((a :: g2) ++ rest).
    rewrite match_email.
    + rewrite Eg in E. now rewrite (email_like_suffix _ _ E).
    + rewrite Eg in Hg. apply Forall_app in Hg. tauto.
    + exact Hr.
Qed.

Lemma sub_email_spaces (g rest : str) (prev : option ascii) :
  Forall (fun c => nonspace c = false) g ->
  sub_from Patterns.email [] 0 prev (g ++ rest) =
  g ++ sub_from Patterns.email [] 0 (last_opt prev g) rest.
Proof.
  intros Hg. apply sub_from_copy. intros g1 a g2 E.
  apply (match_email [] (a :: g2 ++ rest)); [constructor|].
  cbn. rewrite Forall_forall in Hg. apply Hg.
  rewrite E. apply in_or_app. right. now left.
Qed.

(** [re.sub(r'\S+@\S+', '', s)] deletes the tokens that look like an e-mail
    address. *)
Lemma sub_email (s : str) : sub Patterns.email [] s = remove_emails s.
Proof.
  unfold sub, remove_emails. generalize (@None ascii) as prev.
  induction s as [|b g rest Hne Hg Hr IH] using (run_induction nonspace); intros prev;
    [reflexivity|].
  rewrite (group_app nonspace b) by assumption. cbn [filter].
  destruct b.
  - rewrite sub_email_token by assumption. unfold keep_token.
    destruct (email_like g); cbn [negb concat app]; now rewrite IH.
  - rewrite email_like_spaces by exact Hg. cbn [negb concat].
    rewrite <- (IH (last_opt prev g)). now apply sub_email_spaces.
Qed.

End EmailFacts.

(** ** Step 4: standalone numbers *)

Section NumberFacts.

Lemma decimal_is_word (c : ascii) : is_decimal c = true -> is_word c = true.
Proof. destruct c as [[] [] [] [] [] [] [] []]; cbn; congruence. Qed.

Lemma last_opt_app (prev : option ascii) (g : str) (a : ascii) :
  last_opt prev (g ++ [a]) = Some a.
Proof. revert prev. induction g as [|c g IH]; intros prev; [reflexivity | apply IH]. Qed.

Lemma last_opt_class (q : ascii -> bool) (b : bool) (prev : option ascii) (g : str) :
  g <> [] -> Forall (fun c => q c = b) g ->
  exists a, last_opt prev g = Some a /\ q a = b.
Proof.
  intros Hne Hg. destruct (exists_last Hne) as [g' [a ->]].
  exists a. split; [apply last_opt_app|].
  apply Forall_app in Hg as [_ Hg]. now inversion Hg.
Qed.

Lemma match_digits (g rest : str) (prev : option ascii) :
  Forall (fun c => is_word c = true) g -> starts_other is_word true rest ->
  match_branch [Plus is_decimal; WordB] prev (g ++ rest) =
  match g with
  | [] => None
  | _ => if all_digits g then Some (length g) else None
  end.
Proof.
  intros Hg Hr. revert prev. induction Hg as [|a g Ha Hg IH]; intros prev.
  - rewrite match_plus_unfold. cbn [app].
    destruct rest as [|d rest]; [reflexivity|]. cbn in Hr.
    destruct (is_decimal d) eqn:E; [|reflexivity].
    apply decimal_is_word in E. congruence.
  - rewrite match_plus_unfold. cbn [app]. rewrite IH.
    unfold all_digits. cbn [forallb length].
    destruct (is_decimal a); [|reflexivity]. cbn [andb].
    destruct g as [|c g].
    + cbn [match_branch app forallb]. unfold at_boundary. cbn [word_opt].
      rewrite Ha. destruct rest as [|d rest]; [reflexivity|].
      cbn in Hr. cbn. now rewrite Hr.
    + destruct (forallb is_decimal (c :: g)); [reflexivity|].
      cbn [match_branch app]. unfold at_boundary. cbn [word_opt hd_error].
      inversion Hg; subst. rewrite Ha. now replace (is_word c) with true.
Qed.

Lemma match_number_start (g rest : str) (prev : option ascii) :
  g <> [] -> Forall (fun c => is_word c = true) g -> starts_other is_word true rest ->
  word_opt prev = false ->
  match_regex Patterns.number prev (g ++ rest) =
  if all_digits g then Some (length g) else None.
Proof.
  intros Hne Hg Hr Hp. unfold Patterns.number.
  rewrite match_regex_one, match_wordb.
  assert (Hb : at_boundary prev (g ++ rest) = true).
  { unfold at_boundary. rewrite Hp. destruct g as [|a g]; [contradiction|].
    cbn. inversion Hg; subst. assumption. }
  rewrite Hb, match_digits by assumption.
  destruct g; [contradiction | reflexivity].
Qed.

Lemma match_number_inner (prev : option ascii) (a : ascii) (s : str) :
  word_opt prev = is_word a -> match_regex Patterns.number prev (a :: s) = None.
Proof.
  intros H. unfold Patterns.number. cbn [match_regex match_branch].
  unfold at_boundary. cbn [hd_error word_opt]. rewrite H.
  destruct (is_word a) eqn:E; cbn [xorb]; [reflexivity|].
  destruct (is_decimal a) eqn:Ed; [|reflexivity].
  apply decimal_is_word in Ed. congruence.
Qed.

Lemma match_number_other (prev : option ascii) (a : ascii) (s : str) :
  is_word a = false -> match_regex Patterns.number prev (a :: s) = None.
Proof.
  intros H. unfold Patterns.number. cbn [match_regex match_branch].
  destruct (at_boundary prev (a :: s)); [|reflexivity].
  destruct (is_decimal a) eqn:Ed; [|reflexivity].
  apply decimal_is_word in Ed. congruence.
Qed.

Lemma number_end (prev : option ascii) : match_regex Patterns.number prev [] = None.
Proof. cbn. now destruct (at_boundary prev []). Qed.

Lemma all_digits_other (g : str) :
  g <> [] -> Forall (fun c => is_word c = false) g -> all_digits g = false.
Proof.
  intros Hne Hg. destruct g as [|c g]; [contradiction|].
  inversion Hg; subst. unfold all_digits. cbn.
  destruct (is_decimal c) eqn:E; [|reflexivity].
  apply decimal_is_word in E. congruence.
Qed.


Lemma sub_number_word (g rest : str) (prev : option ascii) :
  g <> [] -> Forall (fun c => is_word c = true) g -> starts_other is_word true rest ->
  word_opt prev = false ->
  sub_from Patterns.number [] 0 prev (g ++ rest) =
  keep_word g ++ sub_from Patterns.number [] 0 (last_opt prev g) rest.
Proof.
  intros Hne Hg Hr Hp. unfold keep_word. destruct (all_digits g) eqn:E.
  - destruct g as [|a g]; [contradiction|].
    change ((a :: g) ++ rest) with (a :: g ++ rest).
    rewrite sub_from_matched; [reflexivity | | apply number_end].
    change (a :: g ++ rest) with ((a :: g) ++ rest).
    rewrite match_number_start, E by assumption. reflexivity.
  - apply sub_from_copy. intros g1 a g2 Eg.
    destruct g1 as [|c g1].
    + cbn [last_opt]. cbn [app] in Eg. subst g.
      change (a :: g2 ++ rest) with ((a :: g2) ++ rest).
      rewrite match_number_start, E by assumption. reflexivity.
    + apply match_number_inner.
      rewrite Eg in Hg. apply Forall_app in Hg as [Hg1 Hg2].
      destruct (last_opt_class is_word true prev (c :: g1)) as [x [-> Hx]];
        [discriminate | exact Hg1 |].
      cbn. inversion Hg2; subst. congruence.
Qed.

Lemma sub_number_other (g rest : str) (prev : option ascii) :
  Forall (fun c => is_word c = false) g ->
  sub_from Patterns.number [] 0 prev (g ++ rest) =
  g ++ sub_from Patterns.number [] 0 (last_opt prev g) rest.
Proof.
  intros Hg. apply sub_from_copy. intros g1 a g2 E.
  apply match_number_other. rewrite Forall_forall in Hg. apply Hg.
  rewrite E. apply in_or_app. right. now left.
Qed.


(** [re.sub(r'\b\d+\b', '', s)] deletes the runs of word characters that are
    all digits. *)
Lemma sub_number_from (s : str) :
  forall prev, fresh_start is_word prev s ->
               sub_from Patterns.number [] 0 prev s = remove_numbers s.
Proof.
  unfold remove_numbers.
  induction s as [|b g rest Hne Hg Hr IH] using (run_induction is_word); intros prev Hp.
  - cbn [sub_from group filter concat]. now rewrite number_end.
  - rewrite (group_app is_word b) by assumption. cbn [filter].
    assert (Hnext : fresh_start is_word (last_opt prev g) rest).
    { destruct (last_opt_class is_word b prev g Hne Hg) as [x [-> Hx]].
      unfold fresh_start. destruct rest as [|d rest]; [exact I|].
      cbn in Hr. rewrite Hx, Hr. now destruct b. }
    destruct b.
    + rewrite sub_number_word; try assumption.
      * unfold keep_word. destruct (all_digits g); cbn [negb concat app];
          now rewrite IH.
      * destruct prev as [a|]; [|reflexivity]. destruct g as [|c g]; [contradiction|].
        cbn in Hp. inversion Hg; subst. cbn. rewrite Hp.
        now replace (is_word c) with true.
    + rewrite all_digits_other by assumption. cbn [negb concat].
      rewrite sub_number_other by assumption. now rewrite IH.
Qed.

Lemma sub_number (s : str) : sub Patterns.number [] s = remove_numbers s.
Proof. apply sub_number_from. exact I. Qed.

End NumberFacts.

(** ** Steps 5 and 6: punctuation and white space *)

Section SpaceFacts.

(** [re.sub(r'[^\w\s]', ' ', s)] *)
Lemma sub_special (s : str) :
  sub Patterns.special (lit " ") s = replace_unless word_or_space s.
Proof.
  unfold sub. generalize (@None ascii) as prev.
  induction s as [|a s IH]; intros prev; [reflexivity|].
  cbn [sub_from replace_unless map]. unfold Patterns.special at 1.
  rewrite match_regex_one. cbn [match_branch]. unfold word_or_space at 1.
  destruct (is_word a || is_space a); cbn [negb option_map]; rewrite IH; reflexivity.
Qed.

Lemma match_spaces (prev : option ascii) (s : str) :
  match_regex Patterns.spaces prev s =
  match take_run is_space true s with
  | [] => None
  | t => Some (length t)
  end.
Proof. unfold Patterns.spaces. now rewrite match_regex_one, match_plus_run. Qed.

Lemma squash_spaces (g : str) :
  g <> [] -> Forall (fun c => is_space c = true) g -> squash g = lit " ".
Proof.
  intros Hne Hg. destruct g as [|c g]; [contradiction|].
  inversion Hg; subst. cbn. now replace (is_space c) with true.
Qed.

Lemma squash_other (g : str) : Forall (fun c => is_space c = false) g -> squash g = g.
Proof.
  intros Hg. destruct g as [|c g]; [reflexivity|].
  inversion Hg; subst. cbn. now replace (is_space c) with false.
Qed.

(** [re.sub(r'\s+', ' ', s)] *)
Lemma sub_spaces (s : str) : sub Patterns.spaces (lit " ") s = collapse s.
Proof.
  unfold sub, collapse. generalize (@None ascii) as prev.
  induction s as [|b g rest Hne Hg Hr IH] using (run_induction is_space); intros prev;
    [reflexivity|].
  rewrite (group_app is_space b) by assumption. cbn [map concat].
  rewrite <- (IH (last_opt prev g)). destruct b.
  - rewrite squash_spaces by assumption.
    destruct g as [|a g]; [contradiction|].
    change ((a :: g) ++ rest) with (a :: g ++ rest).
    apply sub_from_matched; [|reflexivity].
    rewrite match_spaces. change (a :: g ++ rest) with ((a :: g) ++ rest).
    destruct (take_run_app is_space true (a :: g) rest Hg Hr) as [-> _]. reflexivity.
  - rewrite squash_other by assumption.
    apply sub_from_copy. intros g1 a g2 E. rewrite match_spaces. cbn [take_run].
    replace (is_space a) with false; [reflexivity|].
    rewrite Forall_forall in Hg. symmetry. apply Hg.
    rewrite E. apply in_or_app. right. now left.
Qed.

End SpaceFacts.

(** ** The normalizer is its seven steps *)

Lemma preprocess_text_steps (text : str) :
  preprocess_text text = normalize word_or_space text.
Proof.
  unfold preprocess_text, normalize.
  now rewrite sub_url, sub_email, sub_number, sub_special, sub_spaces.
Qed.

(** ** Each step, one run at a time *)

Section RunSteps.

Lemma remove_urls_run (b : bool) (g rest : str) :
  g <> [] -> Forall (fun c => nonspace c = b) g -> starts_other nonspace b rest ->
  remove_urls (g ++ rest) = cut_url g ++ remove_urls rest.
Proof.
  intros. unfold remove_urls. now rewrite (group_app nonspace b).
Qed.

Lemma remove_emails_run (b : bool) (g rest : str) :
  g <> [] -> Forall (fun c => nonspace c = b) g -> starts_other nonspace b rest ->
  remove_emails (g ++ rest) = keep_token g ++ remove_emails rest.
Proof.
  intros. unfold remove_emails, keep_token. rewrite (group_app nonspace b) by assumption.
  cbn [filter]. now destruct (email_like g).
Qed.

Lemma remove_numbers_run (b : bool) (g rest : str) :
  g <> [] -> Forall (fun c => is_word c = b) g -> starts_other is_word b rest ->
  remove_numbers (g ++ rest) = keep_word g ++ remove_numbers rest.
Proof.
  intros. unfold remove_numbers, keep_word. rewrite (group_app is_word b) by assumption.
  cbn [filter]. now destruct (all_digits g).
Qed.

Lemma collapse_run (b : bool) (g rest : str) :
  g <> [] -> Forall (fun c => is_space c = b) g -> starts_other is_space b rest ->
  collapse (g ++ rest) = squash g ++ collapse rest.
Proof.
  intros. unfold collapse. now rewrite (group_app is_space b).
Qed.

Lemma word_run_class (b : bool) (g : str) :
  g <> [] -> Forall (fun c => is_word c = b) g -> word_run g = b.
Proof.
  intros Hne Hg. destruct g as [|c g]; [contradiction|]. now inversion Hg.
Qed.

Lemma words_of_run (b : bool) (g rest : str) :
  g <> [] -> Forall (fun c => is_word c = b) g -> starts_other is_word b rest ->
  words_of (g ++ rest) = (if b then [g] else []) ++ words_of rest.
Proof.
  intros Hne Hg Hr. unfold words_of. rewrite (group_app is_word b) by assumption.
  cbn [filter]. rewrite (word_run_class b g Hne Hg). now destruct b.
Qed.

(** Words are non-empty runs of word characters. *)
Lemma words_of_runs (s : str) :
  Forall (fun w => w <> [] /\ Forall (fun c => is_word c = true) w) (words_of s).
Proof.
  induction s as [|b g rest Hne Hg Hr IH] using (run_induction is_word); [constructor|].
  rewrite (words_of_run b) by assumption.
  destruct b; [constructor; [now split | exact IH] | exact IH].
Qed.

Lemma words_of_part (P : ascii -> Prop) (s : str) :
  Forall P s -> Forall (Forall P) (words_of s).
Proof.
  intros H. rewrite <- (concat_group is_word s) in H.
  apply Forall_concat in H. unfold words_of.
  rewrite Forall_forall in *. intros w Hw. apply filter_In in Hw as [Hw _]. now apply H.
Qed.

(** A word of [s] is a piece of [s]. *)
Lemma words_of_infix (s w : str) :
  In w (words_of s) -> exists x y, s = x ++ w ++ y.
Proof.
  unfold words_of. intros H. apply filter_In in H as [H _].
  apply in_split in H as [l1 [l2 E]].
  exists (concat l1), (concat l2).
  rewrite <- (concat_group is_word s) at 1. rewrite E, concat_app. reflexivity.
Qed.

End RunSteps.

(** ** Steps 5 to 7 leave the words, joined by single spaces *)

Section UnwordsFacts.

Lemma word_not_space (c : ascii) : is_word c = true -> is_space c = false.
Proof. destruct c as [[] [] [] [] [] [] [] []]; cbn; congruence. Qed.


Lemma replace_word_run (g : str) :
  Forall (fun c => is_word c = true) g -> replace_unless word_or_space g = g.
Proof.
  induction 1 as [|c g Hc Hg IH]; [reflexivity|].
  cbn [replace_unless map]. unfold word_or_space at 1. rewrite Hc. cbn [orb].
  unfold replace_unless in IH. now rewrite IH.
Qed.

Lemma replace_other_run (g : str) :
  Forall (fun c => is_word c = false) g ->
  Forall (fun c => is_space c = true) (replace_unless word_or_space g).
Proof.
  induction 1 as [|c g Hc Hg IH]; [constructor|].
  cbn [replace_unless map]. constructor; [|exact IH].
  unfold word_or_space. rewrite Hc. cbn [orb]. destruct (is_space c) eqn:E; [exact E | reflexivity].
Qed.

Lemma replace_head (b : bool) (rest : str) :
  starts_other is_word b rest ->
  starts_other is_space (negb b) (replace_unless word_or_space rest).
Proof.
  destruct rest as [|c rest]; [trivial|]. cbn. unfold word_or_space. intros Hc.
  destruct b; cbn in *; rewrite Hc; cbn.
  - destruct (is_space c) eqn:E; [exact E | reflexivity].
  - now apply word_not_space.
Qed.

Lemma squashed_word_run (g rest : str) :
  g <> [] -> Forall (fun c => is_word c = true) g -> starts_other is_word true rest ->
  squashed (g ++ rest) = g ++ squashed rest.
Proof.
  intros Hne Hg Hr. unfold squashed, replace_unless. rewrite map_app.
  fold (replace_unless word_or_space g). fold (replace_unless word_or_space rest).
  rewrite replace_word_run by exact Hg.
  assert (Hs : Forall (fun c => is_space c = false) g).
  { eapply Forall_impl; [|exact Hg]. apply word_not_space. }
  rewrite (collapse_run false) by (try assumption; now apply (replace_head true)).
  now rewrite squash_other.
Qed.

Lemma squashed_other_run (g rest : str) :
  g <> [] -> Forall (fun c => is_word c = false) g -> starts_other is_word false rest ->
  squashed (g ++ rest) = lit " " ++ squashed rest.
Proof.
  intros Hne Hg Hr. unfold squashed, replace_unless. rewrite map_app.
  fold (replace_unless word_or_space g). fold (replace_unless word_or_space rest).
  rewrite (collapse_run true).
  - rewrite squash_spaces; [reflexivity | |now apply replace_other_run].
    destruct g; [contradiction | discriminate].
  - destruct g; [contradiction | discriminate].
  - now apply replace_other_run.
  - now apply (replace_head false).
Qed.

Lemma rstrip_visible (g x : str) :
  Forall (fun c => is_space c = false) g -> rstrip (g ++ x) = g ++ rstrip x.
Proof.
  induction 1 as [|c g Hc Hg IH]; [reflexivity|].
  cbn [app rstrip]. rewrite IH, Hc. now destruct (g ++ rstrip x).
Qed.

Lemma unwords_nil (ws : list str) :
  Forall (fun w => w <> []) ws -> unwords ws = [] -> ws = [].
Proof.
  destruct 1 as [|w ws Hw _]; [trivial|]. cbn [unwords].
  destruct w; [contradiction | discriminate].
Qed.


Lemma words_of_nonempty (s : str) : Forall (fun w => w <> []) (words_of s).
Proof. eapply Forall_impl; [|apply words_of_runs]. now intros w [H _]. Qed.

Lemma rstrip_squashed (t : str) :
  rstrip (squashed t) = lead t ++ unwords (words_of t).
Proof.
  induction t as [|b g rest Hne Hg Hr IH] using (run_induction is_word); [reflexivity|].
  destruct b.
  - rewrite squashed_word_run, (words_of_run true) by assumption.
    rewrite rstrip_visible by (eapply Forall_impl; [|exact Hg]; apply word_not_space).
    rewrite IH. cbn [app unwords].
    assert (Hl : lead (g ++ rest) = []).
    { destruct g as [|c g]; [contradiction|]. inversion Hg; subst. cbn.
      now replace (is_word c) with true. }
    rewrite Hl. cbn [app]. f_equal.
    destruct rest as [|d rest]; [reflexivity|].
    cbn in Hr. unfold lead. rewrite Hr.
    now destruct (words_of (d :: rest)).
  - rewrite squashed_other_run, (words_of_run false) by assumption.
    cbn [app lit list_ascii_of_string rstrip]. rewrite IH.
    assert (Hl : lead rest = []).
    { destruct rest as [|d rest]; [reflexivity|]. cbn in Hr. cbn. now rewrite Hr. }
    rewrite Hl. cbn [app].
    assert (Hw : words_of (g ++ rest) = words_of rest) by now rewrite (words_of_run false).
    unfold lead. rewrite Hw.
    destruct g as [|c g]; [contradiction|]. inversion Hg; subst. cbn [app].
    replace (is_word c) with false by congruence.
    destruct (words_of rest) as [|w ws] eqn:E; [reflexivity|].
    destruct (unwords (w :: ws)) eqn:Eu; [|reflexivity].
    apply unwords_nil in Eu; [discriminate|].
    rewrite <- E. apply words_of_nonempty.
Qed.

Lemma lstrip_unwords (ws : list str) :
  Forall (fun w => w <> [] /\ Forall (fun c => is_word c = true) w) ws ->
  lstrip (unwords ws) = unwords ws.
Proof.
  destruct 1 as [|w ws [Hne Hw] _]; [reflexivity|].
  destruct w as [|c w]; [contradiction|]. inversion Hw; subst.
  cbn [unwords app lstrip]. now rewrite word_not_space.
Qed.

(** Replacing punctuation, collapsing white space and trimming leave the
    words of the text, joined by single spaces. *)
Lemma strip_squashed (t : str) : strip (squashed t) = unwords (words_of t).
Proof.
  unfold strip. rewrite rstrip_squashed.
  unfold lead. destruct t as [|c t]; [reflexivity|].
  destruct (is_word c); [apply lstrip_unwords, words_of_runs|].
  destruct (words_of (c :: t)) eqn:E; [reflexivity|].
  cbn [app lit list_ascii_of_string lstrip]. cbn [is_space].
  change (is_space " ") with true. cbv iota.
  rewrite <- E. apply lstrip_unwords, words_of_runs.
Qed.

End UnwordsFacts.

(** ** URL starts *)

Section UrlFree.

Lemma then_nonspace_mono (l g y : str) :
  then_nonspace (after_prefix l g) = true ->
  then_nonspace (after_prefix l (g ++ y)) = true.
Proof.
  revert g. induction l as [|a l IH]; intros g.
  - cbn. destruct g; [discriminate | trivial].
  - destruct g as [|c g]; [discriminate|]. cbn.
    destruct (Ascii.eqb c a); [apply IH | discriminate].
Qed.

Lemma url_start_mono (g y : str) : url_start g = true -> url_start (g ++ y) = true.
Proof.
  unfold url_start. rewrite !orb_true_iff.
  intros [H|H]; [left | right]; now apply then_nonspace_mono.
Qed.

Lemma url_free_prefix (g y : str) : url_free (g ++ y) = true -> url_free g = true.
Proof.
  induction g as [|c g IH]; [reflexivity|].
  cbn [app url_free]. rewrite !andb_true_iff, !negb_true_iff.
  intros [H1 H2]. split; [|now apply IH].
  destruct (url_start (c :: g)) eqn:E; [|reflexivity].
  apply (url_start_mono _ y) in E. cbn [app] in E. congruence.
Qed.

Lemma url_free_suffix (x g : str) : url_free (x ++ g) = true -> url_free g = true.
Proof.
  induction x as [|c x IH]; [trivial|].
  cbn [app url_free]. rewrite andb_true_iff. intros [_ H]. now apply IH.
Qed.

Lemma url_free_app (g y : str) :
  starts_other nonspace true y ->
  url_free (g ++ y) = url_free g && url_free y.
Proof.
  intros Hy. induction g as [|c g IH]; [reflexivity|].
  cbn [app url_free]. rewrite IH.
  change (c :: g ++ y) with ((c :: g) ++ y). rewrite url_start_app by exact Hy.
  now rewrite andb_assoc.
Qed.

Lemma url_free_spaces (g y : str) :
  Forall (fun c => nonspace c = false) g -> url_free (g ++ y) = url_free y.
Proof.
  induction 1 as [|c g Hc Hg IH]; [reflexivity|].
  cbn [app url_free]. now rewrite url_start_space, IH.
Qed.

Lemma cut_url_prefix (g : str) : exists y, g = cut_url g ++ y.
Proof.
  induction g as [|c g [y IH]]; [now exists []|].
  cbn [cut_url]. destruct (url_start (c :: g)).
  - now exists (c :: g).
  - exists y. cbn [app]. now rewrite <- IH.
Qed.

Lemma cut_url_free (g : str) : url_free (cut_url g) = true.
Proof.
  induction g as [|c g IH]; [reflexivity|].
  cbn [cut_url]. destruct (url_start (c :: g)) eqn:E; [reflexivity|].
  cbn [url_free]. rewrite IH, andb_true_r, negb_true_iff.
  destruct (url_start (c :: cut_url g)) eqn:E'; [|reflexivity].
  destruct (cut_url_prefix g) as [y Hy].
  apply (url_start_mono _ y) in E'. cbn [app] in E'. rewrite <- Hy in E'. congruence.
Qed.

Lemma cut_url_fixed (g : str) : url_free g = true -> cut_url g = g.
Proof.
  induction g as [|c g IH]; [reflexivity|].
  cbn [url_free cut_url]. rewrite andb_true_iff, negb_true_iff.
  intros [-> H]. now rewrite IH.
Qed.

(** The first run of white space survives each of the deleting steps. *)
Lemma remove_urls_head (rest : str) :
  starts_other nonspace true rest -> starts_other nonspace true (remove_urls rest).
Proof.
  destruct rest as [|c rest]; [trivial|]. intros Hc. cbn in Hc.
  unfold remove_urls. rewrite group_cons. cbn [map concat cut_url].
  now rewrite url_start_space.
Qed.

Lemma remove_emails_head (rest : str) :
  starts_other nonspace true rest -> starts_other nonspace true (remove_emails rest).
Proof.
  destruct rest as [|c rest]; [trivial|]. intros Hc. cbn in Hc.
  unfold remove_emails. rewrite group_cons. cbn [filter].
  rewrite email_like_spaces; [exact Hc|].
  constructor; [exact Hc|]. rewrite Hc. apply take_run_class.
Qed.

Lemma remove_numbers_head (rest : str) :
  starts_other is_word true rest -> starts_other is_word true (remove_numbers rest).
Proof.
  destruct rest as [|c rest]; [trivial|]. intros Hc. cbn in Hc.
  unfold remove_numbers. rewrite group_cons. cbn [filter].
  rewrite all_digits_other; [exact Hc | discriminate |].
  constructor; [exact Hc|]. rewrite Hc. apply take_run_class.
Qed.

Lemma remove_urls_free (s : str) : url_free (remove_urls s) = true.
Proof.
  induction s as [|b g rest Hne Hg Hr IH] using (run_induction nonspace); [reflexivity|].
  rewrite (remove_urls_run b) by assumption. destruct b.
  - rewrite url_free_app by now apply remove_urls_head.
    now rewrite cut_url_free, IH.
  - rewrite cut_url_spaces, url_free_spaces by exact Hg. exact IH.
Qed.

Lemma remove_emails_free (s : str) :
  url_free s = true -> url_free (remove_emails s) = true.
Proof.
  induction s as [|b g rest Hne Hg Hr IH] using (run_induction nonspace); [trivial|].
  rewrite (remove_emails_run b) by assumption. destruct b.
  - rewrite url_free_app by exact Hr. rewrite andb_true_iff. intros [H1 H2].
    rewrite url_free_app by now apply remove_emails_head.
    rewrite (IH H2), andb_true_r. unfold keep_token. now destruct (email_like g).
  - rewrite url_free_spaces by exact Hg. intros H.
    unfold keep_token. rewrite email_like_spaces, url_free_spaces by exact Hg.
    now apply IH.
Qed.

End UrlFree.

(** ** The words that survive *)

Section CleanWords.

Lemma words_of_skip1 (c : ascii) (y : str) :
  is_word c = false -> words_of (c :: y) = words_of y.
Proof.
  intros Hc. unfold words_of. rewrite group_cons, Hc. cbn [filter word_run]. rewrite Hc.
  rewrite <- (take_drop is_word false y) at 2.
  destruct (take_run is_word false y) as [|d t] eqn:E; [reflexivity|].
  rewrite (group_app is_word false).
  - cbn [filter word_run].
    pose proof (take_run_class is_word false y) as H. rewrite E in H.
    inversion H; subst. now replace (is_word d) with false.
  - discriminate.
  - rewrite <- E. apply take_run_class.
  - apply drop_run_other.
Qed.

Lemma words_of_skip (g y : str) :
  Forall (fun c => is_word c = false) g -> words_of (g ++ y) = words_of y.
Proof.
  induction 1 as [|c g Hc Hg IH]; [reflexivity|].
  cbn [app]. now rewrite words_of_skip1.
Qed.

Lemma words_of_remove_numbers (s : str) :
  words_of (remove_numbers s) = filter (fun g => negb (all_digits g)) (words_of s).
Proof.
  induction s as [|b g rest Hne Hg Hr IH] using (run_induction is_word); [reflexivity|].
  rewrite (remove_numbers_run b), (words_of_run b g rest) by assumption.
  unfold keep_word. destruct b.
  - cbn [app filter]. destruct (all_digits g); cbn [negb app]; [exact IH|].
    rewrite (words_of_run true); try assumption; [now rewrite IH|].
    now apply remove_numbers_head.
  - rewrite all_digits_other by assumption. cbn [app].
    now rewrite words_of_skip.
Qed.

End CleanWords.

Section Idempotence.

Lemma normalize_unwords (s : str) :
  normalize word_or_space s =
  unwords (words_of (remove_numbers (remove_emails (remove_urls (lower s))))).
Proof. unfold normalize. apply strip_squashed. Qed.

Lemma pipeline_lowered (s : str) :
  Forall (fun c => lower_char c = c) (remove_emails (remove_urls (lower s))).
Proof.
  rewrite <- sub_email, <- sub_url. unfold sub.
  repeat (apply sub_from_Forall; [constructor|]).
  unfold lower. rewrite Forall_map, Forall_forall. intros c _. apply lower_char_idem.
Qed.

(** The words that the first four steps leave are clean. *)
Lemma pipeline_words_clean (s : str) :
  Forall clean_word (words_of (remove_numbers (remove_emails (remove_urls (lower s))))).
Proof.
  rewrite words_of_remove_numbers. rewrite Forall_forall. intros w Hw.
  apply filter_In in Hw as [Hw Hd]. apply negb_true_iff in Hd.
  set (t := remove_emails (remove_urls (lower s))) in *.
  pose proof (words_of_runs t) as Hruns. rewrite Forall_forall in Hruns.
  destruct (Hruns w Hw) as [Hne Hword].
  pose proof (words_of_part _ t (pipeline_lowered s)) as Hlow.
  rewrite Forall_forall in Hlow.
  destruct (words_of_infix t w Hw) as [x [y E]].
  assert (Hfree : url_free t = true) by apply remove_emails_free, remove_urls_free.
  rewrite E in Hfree. apply url_free_suffix, url_free_prefix in Hfree.
  repeat split; auto.
Qed.


Lemma unwords_cons (w : str) (ws : list str) : unwords (w :: ws) = w ++ joined ws.
Proof. reflexivity. Qed.

Lemma unwords_head (p : ascii -> bool) (ws : list str) :
  (forall c, is_word c = true -> p c = true) ->
  Forall (fun w => w <> [] /\ Forall (fun c => is_word c = true) w) ws ->
  starts_other p false (unwords ws).
Proof.
  intros Hp Hws. destruct Hws as [|w ws [Hne Hw] _]; [exact I|].
  destruct w as [|c w]; [contradiction|]. inversion Hw; subst. cbn. now apply Hp.
Qed.

(** A step that works run by run and keeps each word and each single space
    keeps a text made of such words. *)
Lemma unwords_step (p : ascii -> bool) (f fg : str -> str) (ws : list str) :
  (forall b g rest,
      g <> [] -> Forall (fun c => p c = b) g -> starts_other p b rest ->
      f (g ++ rest) = fg g ++ f rest) ->
  f [] = [] ->
  (forall c, is_word c = true -> p c = true) ->
  p " "%char = false ->
  fg (lit " ") = lit " " ->
  Forall (fun w => w <> [] /\ Forall (fun c => is_word c = true) w /\ fg w = w) ws ->
  f (unwords ws) = unwords ws.
Proof.
  intros Hrun Hnil Hp Hsp Hfg Hws.
  induction Hws as [|w ws [Hne [Hw Hfw]] Hws IH]; [exact Hnil|].
  rewrite unwords_cons.
  assert (Hruns : Forall (fun w => w <> [] /\ Forall (fun c => is_word c = true) w) ws).
  { eapply Forall_impl; [|exact Hws]. intros a [H1 [H2 _]]. now split. }
  rewrite (Hrun true).
  - rewrite Hfw. f_equal. destruct ws as [|w' ws']; [exact Hnil|].
    unfold joined. change (" "%char :: unwords (w' :: ws'))
      with (lit " " ++ unwords (w' :: ws')).
    rewrite (Hrun false); [now rewrite Hfg, IH | discriminate | |].
    + repeat constructor. exact Hsp.
    + now apply unwords_head.
  - exact Hne.
  - eapply Forall_impl; [|exact Hw]. exact Hp.
  - destruct ws; [exact I | exact Hsp].
Qed.

Lemma email_like_words (w : str) :
  Forall (fun c => is_word c = true) w -> email_like w = false.
Proof.
  induction 1 as [|c w Hc Hw IH]; [reflexivity|].
  cbn [email_like]. rewrite IH, orb_false_r.
  destruct Hw as [|d w Hd Hw]; [reflexivity|]. cbn.
  destruct w; [reflexivity|].
  destruct (Ascii.eqb d "@") eqn:E; [|reflexivity].
  apply Ascii.eqb_eq in E. subst d. discriminate.
Qed.

Lemma word_nonspace (c : ascii) : is_word c = true -> nonspace c = true.
Proof. intros H. unfold nonspace. now rewrite word_not_space. Qed.

Lemma words_of_unwords (ws : list str) :
  Forall (fun w => w <> [] /\ Forall (fun c => is_word c = true) w) ws ->
  words_of (unwords ws) = ws.
Proof.
  intros Hws. induction Hws as [|w ws [Hne Hw] Hws IH]; [reflexivity|].
  rewrite unwords_cons, (words_of_run true); try assumption.
  - cbn [app]. f_equal. destruct ws as [|w' ws']; [reflexivity|].
    unfold joined. now rewrite words_of_skip1.
  - destruct ws; [exact I | reflexivity].
Qed.

(** A text of clean words joined by single spaces is already normal. *)
Lemma normalize_clean (ws : list str) :
  Forall clean_word ws -> normalize word_or_space (unwords ws) = unwords ws.
Proof.
  intros Hws.
  assert (Hruns : Forall (fun w => w <> [] /\ Forall (fun c => is_word c = true) w) ws).
  { eapply Forall_impl; [|exact Hws]. intros a [H1 [H2 _]]. now split. }
  rewrite normalize_unwords.
  assert (Hlow : lower (unwords ws) = unwords ws).
  { apply lower_fixed. clear Hruns.
    induction Hws as [|w ws [_ [_ [Hl _]]] Hws IH]; [constructor|].
    rewrite unwords_cons. apply Forall_app. split; [exact Hl|].
    destruct ws; [constructor|]. constructor; [reflexivity | exact IH]. }
  assert (Hurl : remove_urls (unwords ws) = unwords ws).
  { apply (unwords_step nonspace remove_urls cut_url).
    - apply remove_urls_run.
    - reflexivity.
    - apply word_nonspace.
    - reflexivity.
    - reflexivity.
    - eapply Forall_impl; [|exact Hws]. unfold clean_word.
      intros w [H1 [H2 [_ [H4 _]]]]. repeat split; auto. now apply cut_url_fixed. }
  assert (Hmail : remove_emails (unwords ws) = unwords ws).
  { apply (unwords_step nonspace remove_emails keep_token).
    - apply remove_emails_run.
    - reflexivity.
    - apply word_nonspace.
    - reflexivity.
    - reflexivity.
    - eapply Forall_impl; [|exact Hws]. unfold clean_word.
      intros w [H1 [H2 _]]. repeat split; auto.
      unfold keep_token. now rewrite email_like_words. }
  assert (Hnum : remove_numbers (unwords ws) = unwords ws).
  { apply (unwords_step is_word remove_numbers keep_word).
    - apply remove_numbers_run.
    - reflexivity.
    - trivial.
    - reflexivity.
    - reflexivity.
    - eapply Forall_impl; [|exact Hws]. unfold clean_word.
      intros w [H1 [H2 [_ [_ H5]]]]. repeat split; auto.
      unfold keep_word. now rewrite H5. }
  rewrite Hlow, Hurl, Hmail, Hnum. now rewrite words_of_unwords.
Qed.

Lemma normalize_idempotent (s : str) :
  normalize word_or_space (normalize word_or_space s) = normalize word_or_space s.
Proof.
  rewrite (normalize_unwords s). apply normalize_clean, pipeline_words_clean.
Qed.

End Idempotence.

End NormalizerFacts.

Example preprocess_text_example :
  preprocess_text
    (PyStr.lit "Visit https://x.y/z or www.foo.com; mail a@b.c -- 5G, 42 and 3.14!") =
  PyStr.lit "visit or mail 5g and".
Proof. vm_compute. reflexivity. Qed.

(** C9 (as stated) fails: the underscore is neither a letter, a digit nor
    white space, yet [preprocess_text] keeps it, because the class [\w] of the
    pattern [[^\w\s]] contains it. *)
Lemma C9_underscore_kept :
  Normal.letter_digit_space "_"%char = false /\
  preprocess_text (PyStr.lit "a_b") = PyStr.lit "a_b" /\
  Normal.normalize Normal.letter_digit_space (PyStr.lit "a_b") = PyStr.lit "a b" /\
  ~ (forall text, preprocess_text text = Normal.normalize Normal.letter_digit_space text).
Proof.
  repeat split; try reflexivity.
  intros H. specialize (H (PyStr.lit "a_b")). vm_compute in H. discriminate.
Qed.

(** C9 (amended). [preprocess_text] is total and applies, in order:
    lowercasing; removal of URL-like substrings; removal of e-mail-like
    tokens; removal of standalone integers (digits inside a word, as in
    [5g], stay); replacement of every character that is neither a word
    character (letter, digit or underscore) nor white space by a space;
    collapsing of white space; trimming.  The empty text stays empty. *)
Theorem C9_normalizer_steps (text : str) :
  preprocess_text text = Normal.normalize Normal.word_or_space text /\
  preprocess_text [] = [] /\
  preprocess_text (PyStr.lit "5G in 2024") = PyStr.lit "5g in".
Proof.
  split; [apply preprocess_text_steps|]. split; reflexivity.
Qed.

(** C10. Normalization is idempotent. *)
Theorem C10_preprocess_idempotent (s : str) :
  preprocess_text (preprocess_text s) = preprocess_text s.
Proof. rewrite !preprocess_text_steps. apply normalize_idempotent. Qed.

(** * The configuration of the vectorizer

    The primary path filters nothing itself: which terms it can return is
    decided by the [stop_words], the [token_pattern] and the [max_features]
    that [extract_keywords_tfidf] passes to the vectorizer. *)

Section TokenFacts.
Import PyStr Re Spec.
Local Open Scope nat_scope.

Lemma match_cls_cons (p : ascii -> bool) (r' : branch) (prev : option ascii)
  (a : ascii) (s : str) :
  match_branch (Cls p :: r') prev (a :: s) =
  if p a then option_map S (match_branch r' (Some a) s) else None.
Proof. reflexivity. Qed.

(** [q+\b] matches a non-empty run of [q]. *)
Lemma match_plus_boundary (q : ascii -> bool) (s : str) :
  forall prev n,
    match_branch [Plus q; WordB] prev s = Some n ->
    1 <= n /\ Forall (fun c => q c = true) (firstn n s).
Proof.
  induction s as [|a s IH]; intros prev n; rewrite match_plus_unfold; [discriminate|].
  destruct (q a) eqn:Ea; [|discriminate].
  destruct (match_branch [Plus q; WordB] (Some a) s) as [m|] eqn:Em.
  - intros E. injection E as <-. destruct (IH _ _ Em) as [Hm Hs].
    split; [lia|]. cbn [firstn]. now constructor.
  - rewrite match_wordb. destruct (at_boundary (Some a) s); [|discriminate].
    cbn [match_branch option_map]. intros E. injection E as <-.
    split; [lia|]. cbn [firstn]. now repeat constructor.
Qed.

(** What [token_pattern] matches: at least three characters, all of them
    letters. *)
Lemma match_token (prev : option ascii) (s : str) (n : nat) :
  match_regex Patterns.token prev s = Some n ->
  3 <= n /\ Forall (fun c => is_ascii_letter c = true) (firstn n s).
Proof.
  unfold Patterns.token. rewrite match_regex_one, match_wordb.
  destruct (at_boundary prev s); [|discriminate].
  destruct s as [|a [|b s]]; [discriminate| |].
  - rewrite match_cls_cons. destruct (is_ascii_letter a); discriminate.
  - rewrite !match_cls_cons.
    destruct (is_ascii_letter a) eqn:Ea; [|discriminate].
    destruct (is_ascii_letter b) eqn:Eb; [|discriminate].
    destruct (match_branch [Plus is_ascii_letter; WordB] (Some b) s) as [m|] eqn:Em;
      [|discriminate].
    cbn [option_map]. intros E. injection E as <-.
    destruct (match_plus_boundary _ _ _ _ Em) as [Hm Hs].
    split; [lia|]. cbn [firstn]. now repeat constructor.
Qed.

Lemma token_of_letters (t : str) :
  token_of Patterns.token t ->
  3 <= length t /\ Forall (fun c => is_ascii_letter c = true) t.
Proof.
  intros [prev [rest H]]. apply match_token in H as [Hl Hs].
  split; [exact Hl|]. rewrite firstn_app, Nat.sub_diag, firstn_all in Hs.
  cbn [firstn] in Hs. now rewrite app_nil_r in Hs.
Qed.








End TokenFacts.

Section VocabularyFacts.
Context {nlp : NLP}.
Import PyStr Py Spec.
Local Open Scope nat_scope.








End VocabularyFacts.

(** The contract excludes a short token and a stop word. *)
Example honours_excludes :
  ~ Spec.feature_ok (@make_vectorizer Demo.env 5) (PyStr.lit "ab") /\
  ~ Spec.feature_ok (@make_vectorizer Demo.env 5) (PyStr.lit "the").
Proof.
  split; intros [_ H]; inversion H as [|? ? [Ht Hs] _]; subst.
  - apply token_of_letters in Ht as [Hl _]. cbn in Hl. lia.
  - apply Hs. apply mem_In. vm_compute. reflexivity.
Qed.





(** * Further properties of the analyzer *)

Section NormalForm.
Import PyStr Re Normal.
Local Open Scope nat_scope.

Lemma preprocess_text_unwords (text : str) :
  preprocess_text text =
  unwords (words_of (remove_numbers (remove_emails (remove_urls (lower text))))).
Proof. rewrite preprocess_text_steps. apply normalize_unwords. Qed.

Lemma lower_char_word (c : ascii) : is_word (lower_char c) = is_word c.
Proof. destruct c as [[] [] [] [] [] [] [] []]; reflexivity. Qed.

Lemma words_of_none (t : str) :
  Forall (fun c => is_word c = false) t -> words_of t = [].
Proof.
  intros H. rewrite <- (app_nil_r t). now rewrite words_of_skip.
Qed.

Lemma pipeline_Forall (P : ascii -> Prop) (s : str) :
  Forall P s -> Forall P (remove_numbers (remove_emails (remove_urls s))).
Proof.
  intros H. rewrite <- sub_number, <- sub_email, <- sub_url. unfold sub.
  repeat (apply sub_from_Forall; [constructor|]). exact H.
Qed.

Lemma unwords_chars (P : ascii -> Prop) (ws : list str) :
  P " "%char -> Forall (Forall P) ws -> Forall P (unwords ws).
Proof.
  intros Hsp Hws. induction Hws as [|w ws Hw Hws IH]; [constructor|].
  rewrite unwords_cons. apply Forall_app. split; [exact Hw|].
  destruct ws; [constructor|]. constructor; [exact Hsp | exact IH].
Qed.

Lemma preprocess_text_chars (text : str) :
  Forall (fun c => is_word c = true \/ c = " "%char) (preprocess_text text).
Proof.
  rewrite preprocess_text_unwords. apply unwords_chars; [now right|].
  eapply Forall_impl; [|apply words_of_runs]. intros w [_ Hw].
  eapply Forall_impl; [|exact Hw]. intros c Hc. now left.
Qed.

Lemma length_concat_map (f : str -> str) (gs : list str) :
  (forall g, length (f g) <= length g) ->
  length (concat (map f gs)) <= length (concat gs).
Proof.
  intros Hf. induction gs as [|g gs IH]; [apply Nat.le_refl|].
  cbn [map concat]. rewrite !length_app. specialize (Hf g). lia.
Qed.

Lemma length_concat_filter (keep : str -> bool) (gs : list str) :
  length (concat (filter keep gs)) <= length (concat gs).
Proof.
  induction gs as [|g gs IH]; [apply Nat.le_refl|].
  cbn [filter concat]. destruct (keep g); cbn [concat]; rewrite ?length_app; lia.
Qed.

Lemma cut_url_length (g : str) : length (cut_url g) <= length g.
Proof.
  induction g as [|c g IH]; [apply Nat.le_refl|]. cbn [cut_url].
  destruct (url_start (c :: g)); cbn [length]; lia.
Qed.

Lemma squash_length (g : str) : length (squash g) <= length g.
Proof.
  destruct g as [|c g]; [apply Nat.le_refl|]. cbn [squash].
  destruct (is_space c); cbn [lit list_ascii_of_string length]; lia.
Qed.

Lemma lstrip_length (s : str) : length (lstrip s) <= length s.
Proof.
  induction s as [|c s IH]; [apply Nat.le_refl|]. cbn [lstrip].
  destruct (is_space c); cbn [length]; lia.
Qed.

Lemma rstrip_length (s : str) : length (rstrip s) <= length s.
Proof.
  induction s as [|c s IH]; [apply Nat.le_refl|]. cbn [rstrip].
  destruct (rstrip s); [destruct (is_space c)|]; cbn [length] in *; lia.
Qed.

Lemma strip_length (s : str) : length (strip s) <= length s.
Proof.
  unfold strip. eapply Nat.le_trans; [apply lstrip_length | apply rstrip_length].
Qed.

Lemma remove_urls_length (s : str) : length (remove_urls s) <= length s.
Proof.
  unfold remove_urls. rewrite <- (concat_group nonspace s) at 2.
  apply length_concat_map, cut_url_length.
Qed.

Lemma remove_emails_length (s : str) : length (remove_emails s) <= length s.
Proof.
  unfold remove_emails. rewrite <- (concat_group nonspace s) at 2.
  apply length_concat_filter.
Qed.

Lemma remove_numbers_length (s : str) : length (remove_numbers s) <= length s.
Proof.
  unfold remove_numbers. rewrite <- (concat_group is_word s) at 2.
  apply length_concat_filter.
Qed.

Lemma collapse_length (s : str) : length (collapse s) <= length s.
Proof.
  unfold collapse. rewrite <- (concat_group is_space s) at 2.
  apply length_concat_map, squash_length.
Qed.

End NormalForm.

(** X1. The normalised text is a sequence of words joined by single spaces:
    every word is a non-empty run of lower-case word characters that contains
    no URL start and is not a number.  So it has no punctuation, no leading or
    trailing space and no two spaces in a row. *)
Theorem preprocess_text_shape (text : str) :
  exists ws,
    preprocess_text text = Normal.unwords ws /\ Forall Normal.clean_word ws.
Proof.
  eexists. split; [apply preprocess_text_unwords | apply pipeline_words_clean].
Qed.

(** X2. A text without any word character (letter, digit or underscore)
    normalises to the empty text, and [analyze_text] fails on it. *)
Theorem preprocess_text_no_words (nlp : NLP) (text : str) (max_words : Z) :
  Forall (fun c => PyStr.is_word c = false) text ->
  preprocess_text text = [] /\ analyze_text text max_words = Ok None.
Proof.
  intros H.
  assert (E : preprocess_text text = []).
  { rewrite preprocess_text_unwords, words_of_none; [reflexivity|].
    apply pipeline_Forall. unfold PyStr.lower. rewrite Forall_map.
    eapply Forall_impl; [|exact H]. intros c Hc. now rewrite lower_char_word. }
  split; [exact E|]. rewrite analyze_text_eq, E. reflexivity.
Qed.

Lemma preprocess_text_no_words_witness :
  preprocess_text (PyStr.lit "?! -- ... (#)") = [] /\
  @analyze_text Demo.env (PyStr.lit "?! -- ... (#)") 50%Z = Ok None.
Proof.
  apply (preprocess_text_no_words Demo.env (PyStr.lit "?! -- ... (#)") 50%Z).
  repeat constructor.
Defined.

(** X3. The steps that follow the lower-casing never add a character: the
    normalised text is no longer than the lower-cased text.  (Lower-casing
    itself is left out of the bound: outside the code points 0..255 it can
    make a text longer.) *)
Theorem preprocess_text_length (text : str) :
  (length (preprocess_text text) <= length (PyStr.lower text))%nat.
Proof.
  rewrite preprocess_text_steps. unfold Normal.normalize.
  eapply Nat.le_trans; [apply strip_length|].
  eapply Nat.le_trans; [apply collapse_length|].
  unfold Normal.replace_unless. rewrite length_map.
  eapply Nat.le_trans; [apply remove_numbers_length|].
  eapply Nat.le_trans; [apply remove_emails_length|].
  apply remove_urls_length.
Qed.

Section SegmentFacts.
Context {nlp : NLP}.
Import PyStr Py Spec.
Local Open Scope nat_scope.

Lemma split_no_sep (sep : ascii) (s : str) :
  Forall (fun c => Ascii.eqb c sep = false) s -> split sep s = [s].
Proof.
  induction 1 as [|c s Hc Hs IH]; [reflexivity|].
  cbn [split]. now rewrite Hc, IH.
Qed.

Lemma preprocess_text_no_period (text : str) :
  Forall (fun c => Ascii.eqb c "." = false) (preprocess_text text).
Proof.
  eapply Forall_impl; [|apply preprocess_text_chars].
  intros c [Hc | ->]; [|reflexivity].
  destruct (Ascii.eqb c ".") eqn:E; [|reflexivity].
  apply Ascii.eqb_eq in E. subst c. discriminate.
Qed.

(** After normalisation there is no period left to split on. *)
Lemma split_periods_preprocess_text (text : str) :
  length (split_periods (preprocess_text text)) <= 1.
Proof.
  unfold split_periods. rewrite split_no_sep by apply preprocess_text_no_period.
  cbn [filter]. destruct (20 <? _); cbn; lia.
Qed.

End SegmentFacts.

(** X4. On a normalised text the period-splitting fallback yields at most
    one segment, because normalisation has removed every period.  So
    whenever the sentence tokenizer fails or finds fewer than 3 sentences in
    the normalised text, the keywords come from the frequency path. *)
Theorem normalized_text_uses_frequency_path (nlp : NLP) (text : str) (max_words : Z) :
  (forall sentences,
      sent_tokenize (preprocess_text text) = Ok sentences ->
      (length sentences < 3)%nat) ->
  (length (split_periods (preprocess_text text)) <= 1)%nat /\
  extract_keywords_tfidf (preprocess_text text) max_words =
  extract_keywords_frequency (preprocess_text text) max_words.
Proof.
  intros H. split; [apply split_periods_preprocess_text|].
  destruct (sent_tokenize (preprocess_text text)) as [sentences|] eqn:E.
  - apply extract_keywords_tfidf_short
      with (sentences := split_periods (preprocess_text text)).
    + unfold segment, bind. rewrite E.
      specialize (H sentences eq_refl). apply Nat.ltb_lt in H. now rewrite H.
    + pose proof (split_periods_preprocess_text text). lia.
  - apply extract_keywords_tfidf_raise. unfold tfidf_body, segment, bind.
    now rewrite E.
Qed.

Lemma normalized_text_uses_frequency_path_witness :
  let text := PyStr.lit "The cat sat on the mat. The cat was happy. A happy cat purrs." in
  @extract_keywords_tfidf Demo.env (preprocess_text text) 5%Z =
  @extract_keywords_frequency Demo.env (preprocess_text text) 5%Z.
Proof.
  intros text.
  apply (normalized_text_uses_frequency_path Demo.env text 5%Z).
  intros sentences E. vm_compute in E. injection E as <-. cbn [length]. lia.
Defined.

Section CutFacts.
Context {nlp : NLP}.
Import PyStr Py Spec.

Lemma extract_keywords_tfidf_zero (text : str) :
  extract_keywords_tfidf text 0 = Ok [].
Proof.
  destruct (extract_keywords_tfidf_path text 0).
  - rewrite extract_keywords_frequency_eq. reflexivity.
  - reflexivity.
Qed.

End CutFacts.

(** X5. With [max_words = 0] both paths return the empty list, so
    [analyze_text] fails whatever the text. *)
Theorem zero_max_words_fails (nlp : NLP) (text : str) :
  extract_keywords_tfidf text 0 = Ok [] /\
  extract_keywords_frequency text 0 = Ok [] /\
  analyze_text text 0 = Ok None.
Proof.
  split; [apply extract_keywords_tfidf_zero|].
  split; [now rewrite extract_keywords_frequency_eq|].
  rewrite analyze_text_eq. destruct (preprocess_text text) as [|c s]; [reflexivity|].
  rewrite extract_keywords_tfidf_zero. now destruct (word_tokenize (c :: s)).
Qed.

(** X6. A negative [max_words] does not raise: the slice [[:max_words]]
    drops that many entries from the end of the ranking, so the frequency
    path returns the full ranking without its [-max_words] last keywords,
    with the same weights. *)
Theorem negative_max_words_drops_tail (nlp : NLP) (text : str) (max_words : Z) :
  (max_words < 0)%Z ->
  exists ranked,
    extract_keywords_frequency text (Z.of_nat (length (Spec.document_frequencies text))) =
      Ok ranked /\
    length ranked = length (Spec.document_frequencies text) /\
    extract_keywords_frequency text max_words =
      Ok (firstn (length ranked - Z.to_nat (- max_words)) ranked).
Proof.
  intros Hn. rewrite !extract_keywords_frequency_eq. cbv zeta.
  set (items := Py.sorted_desc by_count (Spec.document_frequencies text)).
  assert (Hlen : length items = length (Spec.document_frequencies text))
    by apply sorted_desc_length.
  rewrite (slice_to_nonneg (Z.of_nat _)) by lia.
  rewrite Nat2Z.id, <- Hlen, firstn_all.
  eexists. split; [reflexivity|]. split; [now rewrite length_map|].
  rewrite length_map. unfold Py.slice_to. apply Z.leb_gt in Hn. rewrite Hn.
  now rewrite top_count_firstn, firstn_map.
Qed.

Lemma negative_max_words_drops_tail_witness :
  exists ranked,
    @extract_keywords_frequency Demo.env (PyStr.lit "tea and rice and rice and jam")
      (Z.of_nat (length (@Spec.document_frequencies Demo.env
                           (PyStr.lit "tea and rice and rice and jam")))) = Ok ranked /\
    length ranked = length (@Spec.document_frequencies Demo.env
                              (PyStr.lit "tea and rice and rice and jam")) /\
    @extract_keywords_frequency Demo.env (PyStr.lit "tea and rice and rice and jam") (-1)%Z =
      Ok (firstn (length ranked - Z.to_nat (- (-1))) ranked).
Proof.
  apply (negative_max_words_drops_tail Demo.env
           (PyStr.lit "tea and rice and rice and jam") (-1)%Z). lia.
Defined.

Section CountFacts.
Context {nlp : NLP}.
Import PyStr Py Spec.
Local Open Scope Z_scope.

Lemma total_perm (l1 l2 : list Z) : Permutation l1 l2 -> total l1 = total l2.
Proof. unfold total. induction 1; cbn [fold_right] in *; lia. Qed.

Lemma total_nonneg (l : list Z) : Forall (fun c => 0 <= c) l -> 0 <= total l.
Proof. unfold total. induction 1; cbn [fold_right] in *; lia. Qed.

Lemma total_firstn (m : nat) (l : list Z) :
  Forall (fun c => 0 <= c) l -> 0 <= total (firstn m l) <= total l.
Proof.
  intros H. revert m. induction H as [|c l Hc Hl IH]; intros [|m];
    cbn [firstn]; try (cbn; lia).
  - pose proof (total_nonneg l Hl). unfold total in *. cbn [fold_right] in *. lia.
  - specialize (IH m). unfold total in *. cbn [fold_right] in *. lia.
Qed.

Lemma occurrences_cons (w x : str) (l : list str) :
  occurrences w (x :: l) = (if str_eqb w x then 1 else 0) + occurrences w l.
Proof.
  unfold occurrences. cbn [filter]. destruct (str_eqb w x); cbn [length]; lia.
Qed.

Lemma total_indicator (x : str) (ks : list str) :
  NoDup ks ->
  total (map (fun w => if str_eqb w x then 1 else 0) ks) = if mem x ks then 1 else 0.
Proof.
  induction 1 as [|k ks Hk Hks IH]; [reflexivity|].
  unfold total in *. cbn [map fold_right]. rewrite IH. unfold mem. cbn [existsb].
  destruct (str_eqb k x) eqn:E.
  - apply str_eqb_eq in E. subst k.
    destruct (existsb (str_eqb x) ks) eqn:M; [|now rewrite str_eqb_refl].
    exfalso. apply Hk. apply existsb_exists in M as [y [Hy Exy]].
    apply str_eqb_eq in Exy. now subst.
  - assert (str_eqb x k = false) as ->.
    { destruct (str_eqb x k) eqn:E'; [|reflexivity].
      apply str_eqb_eq in E'. subst. now rewrite str_eqb_refl in E. }
    reflexivity.
Qed.

(** Over distinct keys that cover the list, the occurrence counts add up to
    the length of the list. *)
Lemma total_occurrences (ks l : list str) :
  NoDup ks -> (forall w, In w l -> In w ks) ->
  total (map (fun w => occurrences w l) ks) = Z.of_nat (length l).
Proof.
  intros Hks. induction l as [|x l IH]; intros Hin.
  - unfold occurrences, total. cbn [filter length]. clear.
    induction ks; cbn [map fold_right] in *; lia.
  - assert (E : total (map (fun w => occurrences w (x :: l)) ks) =
                total (map (fun w => if str_eqb w x then 1 else 0) ks) +
                total (map (fun w => occurrences w l) ks)).
    { clear. unfold total. induction ks as [|k ks IH]; [reflexivity|].
      cbn [map fold_right]. rewrite IH, occurrences_cons. lia. }
    rewrite E, IH, total_indicator by (try exact Hks; intros w Hw; apply Hin; now right).
    assert (mem x ks = true) as ->.
    { apply existsb_exists. exists x. split; [apply Hin; now left | apply str_eqb_refl]. }
    cbn [length]. lia.
Qed.

Lemma word_frequency_map_total (tokens : list str) :
  total (map snd (word_frequency_map tokens)) =
  Z.of_nat (length (filter counted tokens)).
Proof.
  unfold word_frequency_map. rewrite map_map. cbn [snd].
  apply total_occurrences; [apply first_occurrences_NoDup|].
  intros w. apply first_occurrences_In.
Qed.

Lemma word_frequency_map_keys (tokens : list str) :
  map fst (word_frequency_map tokens) = first_occurrences (filter counted tokens).
Proof. unfold word_frequency_map. rewrite map_map. cbn [fst]. apply map_id. Qed.

Lemma NoDup_firstn {A : Type} (m : nat) (l : list A) : NoDup l -> NoDup (firstn m l).
Proof.
  intros H. revert m. induction H as [|x l Hx Hl IH]; intros [|m];
    cbn [firstn]; constructor.
  - intros Hin. apply Hx. eapply firstn_In, Hin.
  - apply IH.
Qed.

End CountFacts.

(** X7. The frequency map has one entry per distinct counted token, and its
    counts add up to the number of counted tokens: every token of length
    >= 3 outside the stop list is counted exactly once. *)
Theorem word_frequencies_partition (nlp : NLP) (text : str) (tokens : list str)
  (freq : Py.dict Z) :
  word_tokenize text = Ok tokens ->
  get_word_frequencies text = Ok freq ->
  NoDup (map fst freq) /\
  total (map snd freq) = Z.of_nat (length (filter Spec.counted tokens)) /\
  (total (map snd freq) <= Z.of_nat (length tokens))%Z.
Proof.
  intros Ht E. rewrite get_word_frequencies_ok, Ht in E. injection E as <-.
  rewrite word_frequency_map_keys, word_frequency_map_total.
  split; [apply first_occurrences_NoDup|]. split; [reflexivity|].
  apply inj_le, filter_length_le.
Qed.

Lemma word_frequencies_partition_witness :
  exists freq,
    @get_word_frequencies Demo.env (PyStr.lit "tea and rice and rice or jam") = Ok freq /\
    total (map snd freq) = 4%Z.
Proof.
  eexists. split; [vm_compute; reflexivity|].
  destruct (word_frequencies_partition Demo.env
              (PyStr.lit "tea and rice and rice or jam")
              (Demo.word_tokens (PyStr.lit "tea and rice and rice or jam"))
              [(PyStr.lit "tea", 1%Z); (PyStr.lit "rice", 2%Z); (PyStr.lit "jam", 1%Z)])
    as [_ [H _]].
  - reflexivity.
  - vm_compute. reflexivity.
  - reflexivity.
Defined.

(** X8. The keywords of the frequency path are pairwise distinct terms, and
    their frequencies add up to no more than the number of tokens of the
    text. *)
Theorem frequency_keywords_distinct (nlp : NLP) (text : str) (max_words : Z)
  (tokens : list str) (l : list WordData) :
  word_tokenize text = Ok tokens ->
  extract_keywords_frequency text max_words = Ok l ->
  NoDup (map word l) /\
  (0 <= total (map frequency l) <= Z.of_nat (length tokens))%Z.
Proof.
  intros Ht E. rewrite extract_keywords_frequency_eq in E. cbv zeta in E.
  injection E as <-. rewrite !map_map. cbn [word frequency Spec.keyword_of].
  unfold Spec.document_frequencies. rewrite Ht.
  destruct (slice_to_prefix max_words
              (Py.sorted_desc by_count (Spec.word_frequency_map tokens))) as [m ->].
  pose proof (sorted_desc_perm _ by_count (Spec.word_frequency_map tokens)) as P.
  rewrite <- !firstn_map. split.
  - apply NoDup_firstn.
    eapply Permutation_NoDup; [apply Permutation_sym, Permutation_map, P|].
    rewrite word_frequency_map_keys. apply first_occurrences_NoDup.
  - assert (Hpos : Forall (fun c => (0 <= c)%Z)
                     (map snd (Py.sorted_desc by_count (Spec.word_frequency_map tokens)))).
    { rewrite Forall_forall. intros c Hc. apply in_map_iff in Hc as [[w c'] [<- Hin]].
      apply sorted_desc_In in Hin. apply word_frequency_map_counts in Hin. cbn [snd]. lia. }
    pose proof (total_firstn m _ Hpos) as Hm.
    rewrite (total_perm _ _ (Permutation_map snd P)), word_frequency_map_total in Hm.
    pose proof (filter_length_le Spec.counted tokens).
    change (fun x : str * Z => snd x) with (@snd str Z). lia.
Qed.

Lemma frequency_keywords_distinct_witness :
  exists l,
    @extract_keywords_frequency Demo.env (PyStr.lit "tea and rice and rice or jam") 2%Z = Ok l /\
    NoDup (map word l) /\ (total (map frequency l) <= 7)%Z.
Proof.
  eexists. split; [vm_compute; reflexivity|].
  destruct (frequency_keywords_distinct Demo.env
              (PyStr.lit "tea and rice and rice or jam") 2%Z
              (Demo.word_tokens (PyStr.lit "tea and rice and rice or jam"))
              [ {| word := PyStr.lit "rice"; weight := 1; frequency := 2 |};
                {| word := PyStr.lit "tea"; weight := 1 # 2; frequency := 1 |} ])
    as [Hd [_ Hs]].
  - reflexivity.
  - vm_compute. reflexivity.
  - split; [exact Hd | exact Hs].
Defined.

(** * The scraper *)

(** ** [clean_text] *)

Section CleanFacts.
Import PyStr Re Normal Clean.
Local Open Scope nat_scope.

Section CollapseFacts.
Variable q : ascii -> bool.

Lemma squash_by_run (g : str) :
  g <> [] -> Forall (fun c => q c = true) g -> squash_by q g = lit " ".
Proof.
  intros Hne Hg. destruct g as [|c g]; [contradiction|].
  inversion Hg as [|? ? Hc _]; subst. cbn [squash_by]. now rewrite Hc.
Qed.

Lemma squash_by_other (g : str) :
  Forall (fun c => q c = false) g -> squash_by q g = g.
Proof.
  intros Hg. destruct g as [|c g]; [reflexivity|].
  inversion Hg as [|? ? Hc _]; subst. cbn [squash_by]. now rewrite Hc.
Qed.

Lemma collapse_by_run (b : bool) (g rest : str) :
  g <> [] -> Forall (fun c => q c = b) g -> starts_other q b rest ->
  collapse_by q (g ++ rest) = squash_by q g ++ collapse_by q rest.
Proof. intros. unfold collapse_by. now rewrite (group_app q b). Qed.

(** [re.sub(r'q+', ' ', s)] for a class [q]. *)
Lemma sub_plus (s : str) : sub [ [Plus q] ] (lit " ") s = collapse_by q s.
Proof.
  unfold sub. generalize (@None ascii) as prev.
  induction s as [|b g rest Hne Hg Hr IH] using (run_induction q); intros prev;
    [reflexivity|].
  rewrite (collapse_by_run b) by assumption.
  rewrite <- (IH (last_opt prev g)). destruct b.
  - rewrite squash_by_run by assumption.
    destruct g as [|a g]; [contradiction|].
    change ((a :: g) ++ rest) with (a :: g ++ rest).
    apply sub_from_matched; [|reflexivity].
    rewrite match_regex_one, match_plus_run.
    change (a :: g ++ rest) with ((a :: g) ++ rest).
    destruct (take_run_app q true (a :: g) rest Hg Hr) as [-> _]. reflexivity.
  - rewrite squash_by_other by assumption.
    apply sub_from_copy. intros g1 a g2 E.
    rewrite match_regex_one, match_plus_run. cbn [take_run].
    replace (q a) with false; [reflexivity|].
    rewrite Forall_forall in Hg. symmetry. apply Hg.
    rewrite E. apply in_or_app. right. now left.
Qed.

Lemma collapse_by_Forall (P : ascii -> Prop) (s : str) :
  P " "%char -> Forall P s -> Forall P (collapse_by q s).
Proof.
  intros Hsp Hs. rewrite <- sub_plus. unfold sub.
  apply sub_from_Forall; [repeat constructor; exact Hsp | exact Hs].
Qed.

Lemma collapse_by_cons (c : ascii) (s : str) :
  q c = false -> collapse_by q (c :: s) = c :: collapse_by q s.
Proof.
  intros Hc. unfold collapse_by at 1. rewrite group_cons, Hc. cbn [map concat squash_by].
  rewrite Hc. cbn [app]. f_equal.
  fold (collapse_by q (drop_run q false s)).
  pose proof (take_drop q false s) as E.
  pose proof (take_run_class q false s) as Ht.
  pose proof (drop_run_other q false s) as Hd.
  destruct (take_run q false s) as [|d t].
  - cbn [app] in *. now rewrite E.
  - rewrite <- E at 2. rewrite (collapse_by_run false); [|discriminate|exact Ht|exact Hd].
    now rewrite squash_by_other.
Qed.

(** A prefix without characters of the class is copied. *)
Lemma collapse_by_prefix (g x : str) :
  Forall (fun c => q c = false) g -> collapse_by q (g ++ x) = g ++ collapse_by q x.
Proof.
  induction 1 as [|c g Hc Hg IH]; [reflexivity|].
  cbn [app]. now rewrite collapse_by_cons, IH.
Qed.

Lemma starts_other_app (b : bool) (x y : str) :
  x <> [] -> starts_other q b x -> starts_other q b (x ++ y).
Proof. destruct x; [contradiction | trivial]. Qed.

(** Collapsing distributes over a cut that no run of the class crosses. *)
Lemma collapse_by_app (x y : str) :
  starts_other q true y ->
  collapse_by q (x ++ y) = collapse_by q x ++ collapse_by q y.
Proof.
  intros Hy.
  induction x as [|b g rest Hne Hg Hr IH] using (run_induction q); [reflexivity|].
  rewrite <- app_assoc. destruct b.
  - rewrite (collapse_by_run true g (rest ++ y)), (collapse_by_run true g rest), IH, app_assoc;
      try assumption; [reflexivity|].
    destruct rest as [|d rest]; [exact Hy | exact Hr].
  - now rewrite (collapse_by_prefix g (rest ++ y)), (collapse_by_prefix g rest), IH, app_assoc.
Qed.

Lemma collapse_by_nonempty (s : str) : s <> [] -> collapse_by q s <> [].
Proof.
  destruct s as [|c s]; [contradiction|]. intros _.
  unfold collapse_by. rewrite group_cons. cbn [map concat squash_by].
  destruct (q c); discriminate.
Qed.

Lemma collapse_by_length (s : str) : length (collapse_by q s) <= length s.
Proof.
  induction s as [|b g rest Hne Hg Hr IH] using (run_induction q); [cbn; lia|].
  rewrite (collapse_by_run b), !length_app by assumption.
  destruct g as [|c g]; [contradiction|]. cbn [squash_by].
  destruct (q c); cbn [lit list_ascii_of_string length]; cbn [length] in *; lia.
Qed.

End CollapseFacts.

Lemma kept_visible (c : ascii) : kept c = true -> is_space c = false.
Proof. destruct c as [[] [] [] [] [] [] [] []]; cbn; congruence. Qed.

Lemma kept_keeps (c : ascii) : kept c = true -> Scraped.keeps c = true.
Proof.
  unfold kept, Scraped.keeps. intros H. apply orb_true_iff in H as [H|H]; rewrite H;
    [reflexivity | apply orb_true_r].
Qed.

Lemma kept_not_blank (c : ascii) : kept c = true -> Scraped.is_blank c = false.
Proof.
  intros H. unfold Scraped.is_blank. destruct (Ascii.eqb c " ") eqn:E; [|reflexivity].
  apply Ascii.eqb_eq in E. subst c. discriminate.
Qed.

(** The second substitution replaces, character by character. *)
Lemma sub_scraped_special (s : str) :
  sub Scraped.special (lit " ") s = replace_unless Scraped.keeps s.
Proof.
  unfold sub. generalize (@None ascii) as prev.
  induction s as [|a s IH]; intros prev; [reflexivity|].
  cbn [sub_from replace_unless map]. unfold Scraped.special at 1.
  rewrite match_regex_one. cbn [match_branch].
  destruct (Scraped.keeps a); cbn [negb option_map]; rewrite IH; reflexivity.
Qed.

Lemma clean_text_steps (s : str) : clean_text s = strip (scrubbed s).
Proof.
  destruct s as [|c s]; [reflexivity|]. unfold clean_text, scrubbed.
  unfold Patterns.spaces, Scraped.blanks. now rewrite sub_plus, sub_scraped_special, sub_plus.
Qed.

Lemma replace_kept (g : str) :
  Forall (fun c => kept c = true) g -> replace_unless Scraped.keeps g = g.
Proof.
  induction 1 as [|c g Hc Hg IH]; [reflexivity|].
  cbn [replace_unless map]. rewrite (kept_keeps c Hc).
  unfold replace_unless in IH. now rewrite IH.
Qed.

(** After the first substitution the only white space is the space. *)
Lemma collapse_only_blank (s : str) :
  Forall (fun c => is_space c = true -> c = " "%char) (collapse_by is_space s).
Proof.
  induction s as [|b g rest Hne Hg Hr IH] using (run_induction is_space); [constructor|].
  rewrite (collapse_by_run is_space b) by assumption.
  apply Forall_app. split; [|exact IH]. destruct b.
  - rewrite squash_by_run by assumption. now repeat constructor.
  - rewrite squash_by_other by assumption.
    eapply Forall_impl; [|exact Hg]. cbn. congruence.
Qed.

Lemma replace_dropped (t : str) :
  Forall (fun c => kept c = false) t ->
  Forall (fun c => is_space c = true -> c = " "%char) t ->
  Forall (fun c => Scraped.is_blank c = true) (replace_unless Scraped.keeps t).
Proof.
  intros Hk Hs. induction Hk as [|c t Hc Ht IH]; [constructor|].
  inversion Hs as [|? ? Hsc Hst]; subst.
  cbn [replace_unless map]. constructor; [|now apply IH].
  unfold Scraped.keeps. unfold kept in Hc. apply orb_false_iff in Hc as [-> ->].
  rewrite orb_false_r. cbn [orb].
  destruct (is_space c); [now rewrite Hsc | reflexivity].
Qed.

Lemma scrubbed_kept_run (g rest : str) :
  Forall (fun c => kept c = true) g -> scrubbed (g ++ rest) = g ++ scrubbed rest.
Proof.
  intros Hg. unfold scrubbed.
  rewrite collapse_by_prefix by (eapply Forall_impl; [|exact Hg]; apply kept_visible).
  unfold replace_unless. rewrite map_app. fold (replace_unless Scraped.keeps g).
  rewrite replace_kept by exact Hg.
  apply collapse_by_prefix. eapply Forall_impl; [|exact Hg]. apply kept_not_blank.
Qed.

Lemma scrubbed_dropped_run (g rest : str) :
  g <> [] -> Forall (fun c => kept c = false) g -> starts_other kept false rest ->
  scrubbed (g ++ rest) = lit " " ++ scrubbed rest.
Proof.
  intros Hne Hg Hr. unfold scrubbed.
  rewrite collapse_by_app.
  2:{ destruct rest as [|d rest]; [exact I|]. cbn in *. now apply kept_visible. }
  unfold replace_unless. rewrite map_app.
  fold (replace_unless Scraped.keeps (collapse_by is_space g)).
  fold (replace_unless Scraped.keeps (collapse_by is_space rest)).
  rewrite (collapse_by_run Scraped.is_blank true).
  - rewrite squash_by_run; [reflexivity| |].
    + intros E. apply map_eq_nil in E. now apply collapse_by_nonempty in E.
    + apply replace_dropped; [|apply collapse_only_blank].
      apply collapse_by_Forall; [reflexivity | exact Hg].
  - intros E. apply map_eq_nil in E. now apply collapse_by_nonempty in E.
  - apply replace_dropped; [|apply collapse_only_blank].
    apply collapse_by_Forall; [reflexivity | exact Hg].
  - destruct rest as [|d rest]; [exact I|]. cbn in Hr.
    rewrite collapse_by_cons by now apply kept_visible.
    cbn [replace_unless map starts_other]. rewrite (kept_keeps d Hr). cbn [negb].
    now apply kept_not_blank.
Qed.

Lemma kept_run_class (b : bool) (g : str) :
  g <> [] -> Forall (fun c => kept c = b) g -> kept_run g = b.
Proof.
  intros Hne Hg. destruct g as [|c g]; [contradiction|]. now inversion Hg.
Qed.

Lemma chunks_run (b : bool) (g rest : str) :
  g <> [] -> Forall (fun c => kept c = b) g -> starts_other kept b rest ->
  chunks (g ++ rest) = (if b then [g] else []) ++ chunks rest.
Proof.
  intros Hne Hg Hr. unfold chunks. rewrite (group_app kept b) by assumption.
  cbn [filter]. rewrite (kept_run_class b g Hne Hg). now destruct b.
Qed.

Lemma chunks_chunk (s : str) : Forall chunk (chunks s).
Proof.
  induction s as [|b g rest Hne Hg Hr IH] using (run_induction kept); [constructor|].
  rewrite (chunks_run b) by assumption.
  destruct b; [constructor; [now split | exact IH] | exact IH].
Qed.

Lemma unwords_chunks_nil (ws : list str) : Forall chunk ws -> unwords ws = [] -> ws = [].
Proof.
  destruct 1 as [|w ws [Hw _] _]; [trivial|]. cbn [unwords].
  destruct w; [contradiction | discriminate].
Qed.

Lemma rstrip_scrubbed (t : str) :
  rstrip (scrubbed t) = margin t ++ unwords (chunks t).
Proof.
  induction t as [|b g rest Hne Hg Hr IH] using (run_induction kept); [reflexivity|].
  destruct b.
  - rewrite scrubbed_kept_run, (chunks_run true) by assumption.
    rewrite rstrip_visible by (eapply Forall_impl; [|exact Hg]; apply kept_visible).
    rewrite IH. cbn [app unwords].
    assert (Hl : margin (g ++ rest) = []).
    { destruct g as [|c g]; [contradiction|]. inversion Hg; subst. cbn.
      now replace (kept c) with true. }
    rewrite Hl. cbn [app]. f_equal.
    destruct rest as [|d rest]; [reflexivity|].
    cbn in Hr. unfold margin. rewrite Hr.
    now destruct (chunks (d :: rest)).
  - rewrite scrubbed_dropped_run, (chunks_run false) by assumption.
    cbn [app lit list_ascii_of_string rstrip]. rewrite IH.
    assert (Hl : margin rest = []).
    { destruct rest as [|d rest]; [reflexivity|]. cbn in Hr. cbn. now rewrite Hr. }
    rewrite Hl. cbn [app].
    assert (Hw : chunks (g ++ rest) = chunks rest) by now rewrite (chunks_run false).
    unfold margin. rewrite Hw.
    destruct g as [|c g]; [contradiction|]. inversion Hg; subst. cbn [app].
    replace (kept c) with false by congruence.
    destruct (chunks rest) as [|w ws] eqn:E; [reflexivity|].
    destruct (unwords (w :: ws)) eqn:Eu; [|reflexivity].
    apply unwords_chunks_nil in Eu; [discriminate|].
    rewrite <- E. apply chunks_chunk.
Qed.

Lemma lstrip_chunks (ws : list str) : Forall chunk ws -> lstrip (unwords ws) = unwords ws.
Proof.
  destruct 1 as [|w ws [Hne Hw] _]; [reflexivity|].
  destruct w as [|c w]; [contradiction|]. inversion Hw; subst.
  cbn [unwords app lstrip]. now rewrite kept_visible.
Qed.

Lemma clean_text_unwords (s : str) : clean_text s = unwords (chunks s).
Proof.
  rewrite clean_text_steps. unfold strip. rewrite rstrip_scrubbed.
  unfold margin. destruct s as [|c s]; [reflexivity|].
  destruct (kept c); [apply lstrip_chunks, chunks_chunk|].
  destruct (chunks (c :: s)) eqn:E; [reflexivity|].
  cbn [app lit list_ascii_of_string lstrip].
  change (is_space " ") with true. cbv iota.
  rewrite <- E. apply lstrip_chunks, chunks_chunk.
Qed.

End CleanFacts.

Section CleanedFacts.
Import PyStr Re Normal Clean.
Local Open Scope nat_scope.

Lemma chunks_skip1 (c : ascii) (y : str) :
  kept c = false -> starts_other kept false y -> chunks (c :: y) = chunks y.
Proof.
  intros Hc Hy. change (c :: y) with ([c] ++ y).
  rewrite (chunks_run false); [reflexivity | discriminate | now repeat constructor | exact Hy].
Qed.

Lemma unwords_starts_kept (ws : list str) :
  Forall chunk ws -> starts_other kept false (unwords ws).
Proof.
  destruct 1 as [|w ws [Hne Hw] _]; [exact I|].
  destruct w as [|c w]; [contradiction|]. inversion Hw; subst. cbn. assumption.
Qed.

Lemma chunks_unwords (ws : list str) : Forall chunk ws -> chunks (unwords ws) = ws.
Proof.
  intros Hws. induction Hws as [|w ws [Hne Hw] Hws IH]; [reflexivity|].
  rewrite unwords_cons, (chunks_run true); try assumption.
  - cbn [app]. f_equal. destruct ws as [|w' ws']; [reflexivity|].
    unfold joined. rewrite chunks_skip1; [exact IH | reflexivity |].
    now apply unwords_starts_kept.
  - destruct ws; [exact I | reflexivity].
Qed.

Lemma clean_text_fixed (ws : list str) :
  Forall chunk ws -> clean_text (unwords ws) = unwords ws.
Proof. intros H. now rewrite clean_text_unwords, chunks_unwords. Qed.

Lemma clean_text_idempotent (s : str) : clean_text (clean_text s) = clean_text s.
Proof. rewrite (clean_text_unwords s). apply clean_text_fixed, chunks_chunk. Qed.

Lemma clean_text_chars (s : str) :
  Forall (fun c => kept c = true \/ c = " "%char) (clean_text s).
Proof.
  rewrite clean_text_unwords. apply unwords_chars; [now right|].
  eapply Forall_impl; [|apply chunks_chunk]. intros w [_ Hw].
  eapply Forall_impl; [|exact Hw]. intros c Hc. now left.
Qed.

Lemma clean_text_strip (s : str) : strip (clean_text s) = clean_text s.
Proof.
  rewrite clean_text_unwords.
  assert (H : forall ws, Forall chunk ws -> rstrip (unwords ws) = unwords ws).
  { induction 1 as [|w ws [Hne Hw] Hws IH]; [reflexivity|].
    rewrite unwords_cons.
    rewrite rstrip_visible by (eapply Forall_impl; [|exact Hw]; apply kept_visible).
    f_equal. destruct ws as [|w' ws']; [reflexivity|].
    unfold joined in *. cbn [rstrip]. rewrite IH.
    destruct (unwords (w' :: ws')) eqn:E; [|reflexivity].
    apply unwords_chunks_nil in E; [discriminate | exact Hws]. }
  unfold strip. rewrite H by apply chunks_chunk. apply lstrip_chunks, chunks_chunk.
Qed.

Lemma clean_text_length (s : str) : length (clean_text s) <= length s.
Proof.
  rewrite clean_text_steps. etransitivity; [apply strip_length|].
  unfold scrubbed. etransitivity; [apply collapse_by_length|].
  unfold replace_unless. rewrite length_map. apply collapse_by_length.
Qed.

(** ** The e-mail step after [clean_text] *)

Lemma email_like_at (g : str) : email_like g = true -> In "@"%char g.
Proof.
  induction g as [|c g IH]; [discriminate|].
  cbn [email_like]. intros H. apply orb_true_iff in H as [H|H].
  - right. destruct g as [|d [|e g]]; try discriminate.
    apply Ascii.eqb_eq in H. subst. now left.
  - right. now apply IH.
Qed.

Lemma remove_emails_idle (u : str) : ~ In "@"%char u -> remove_emails u = u.
Proof.
  intros H. unfold remove_emails.
  rewrite <- (concat_group nonspace u) in H.
  rewrite <- (concat_group nonspace u) at 2. f_equal.
  induction (group nonspace u) as [|g gs IH]; [reflexivity|].
  cbn [concat] in H. cbn [filter].
  destruct (email_like g) eqn:E.
  - exfalso. apply H, in_or_app. left. now apply email_like_at.
  - cbn [negb]. f_equal. apply IH. intros Hin. apply H, in_or_app. now right.
Qed.

Lemma lower_char_at (c : ascii) : lower_char c = "@"%char -> c = "@"%char.
Proof. destruct c as [[] [] [] [] [] [] [] []]; cbn; congruence. Qed.

Lemma cleaned_no_at (s : str) :
  ~ In "@"%char (sub Patterns.url [] (lower (clean_text s))).
Proof.
  assert (H : Forall (fun c => c <> "@"%char) (sub Patterns.url [] (lower (clean_text s)))).
  { unfold sub. apply sub_from_Forall; [constructor|].
    unfold lower. rewrite Forall_map.
    eapply Forall_impl; [|apply clean_text_chars].
    intros c Hc E. apply lower_char_at in E. subst c. now destruct Hc. }
  rewrite Forall_forall in H. intros Hin. now apply (H _ Hin).
Qed.

(** ** [is_boilerplate] *)

Lemma startswith_spec (p s : str) :
  PyText.startswith p s = true <-> exists y, s = p ++ y.
Proof.
  revert s. induction p as [|a p IH]; intros s; cbn [PyText.startswith].
  - split; [intros _; now exists s | reflexivity].
  - destruct s as [|c s].
    + split; [discriminate | intros [y E]; discriminate].
    + rewrite andb_true_iff, Ascii.eqb_eq, IH. split.
      * intros [-> [y ->]]. now exists y.
      * intros [y E]. injection E as -> ->. split; [reflexivity | now exists y].
Qed.

Lemma contains_spec (p s : str) :
  PyText.contains p s = true <-> exists x y, s = x ++ p ++ y.
Proof.
  induction s as [|c s IH]; cbn [PyText.contains]; rewrite orb_true_iff, startswith_spec.
  - split.
    + intros [[y E] | H]; [now exists [], y | discriminate].
    + intros [x [y E]]. left. exists y. destruct x; [exact E | discriminate].
  - rewrite IH. split.
    + intros [[y E] | [x [y E]]]; [now exists [], y|].
      exists (c :: x), y. now rewrite E.
    + intros [[|d x] [y E]]; [left; now exists y|].
      right. injection E as -> ->. now exists x, y.
Qed.

Lemma lower_idem (s : str) : lower (lower s) = lower s.
Proof. unfold lower. rewrite map_map. apply map_ext, lower_char_idem. Qed.

Lemma is_boilerplate_iff (text : str) :
  is_boilerplate text = true <->
  exists indicator x y,
    In indicator boilerplate_indicators /\
    lower text = x ++ indicator ++ y.
Proof.
  unfold is_boilerplate. rewrite existsb_exists. split.
  - intros [i [Hi Hc]]. apply contains_spec in Hc as [x [y E]]. now exists i, x, y.
  - intros [i [x [y [Hi E]]]]. exists i. split; [exact Hi|].
    apply contains_spec. now exists x, y.
Qed.

End CleanedFacts.

(** X9. [clean_text] returns the maximal runs of kept characters (letters,
    digits, underscore and the eleven punctuation marks) of its argument,
    joined by single spaces: every other character, white space included,
    separates two runs. *)
Theorem clean_text_shape (text : str) :
  clean_text text = Normal.unwords (Clean.chunks text) /\
  Forall Clean.chunk (Clean.chunks text) /\
  concat (Clean.chunks text) = filter Clean.kept text.
Proof.
  split; [apply clean_text_unwords|]. split; [apply chunks_chunk|].
  unfold Clean.chunks.
  induction text as [|b g rest Hne Hg Hr IH] using (run_induction Clean.kept); [reflexivity|].
  rewrite (group_app Clean.kept b) by assumption. cbn [filter].
  rewrite (kept_run_class b g Hne Hg), filter_app, <- IH.
  destruct b; cbn [concat]; f_equal.
  - symmetry. apply forallb_filter_id. now apply forallb_forall, Forall_forall.
  - clear - Hg. induction Hg as [|c g Hc Hg IH]; [reflexivity|]. cbn [filter]. now rewrite Hc.
Qed.

(** X10. [clean_text] is idempotent, its result has no white space at either
    end, and it is never longer than its argument. *)
Theorem clean_text_stable (text : str) :
  clean_text (clean_text text) = clean_text text /\
  PyStr.strip (clean_text text) = clean_text text /\
  (length (clean_text text) <= length text)%nat.
Proof.
  split; [apply clean_text_idempotent|].
  split; [apply clean_text_strip | apply clean_text_length].
Qed.

(** X11. On a text that went through [clean_text], the e-mail step of
    [preprocess_text] removes nothing: [clean_text] has replaced every [@]
    by a space, so the parts of an address reach the analyzer as words. *)
Theorem cleaned_text_keeps_addresses (text : str) :
  let lowered := Re.sub Patterns.url [] (PyStr.lower (clean_text text)) in
  Re.sub Patterns.email [] lowered = lowered /\
  preprocess_text (clean_text text) =
  PyStr.strip
    (Re.sub Patterns.spaces (PyStr.lit " ")
       (Re.sub Patterns.special (PyStr.lit " ")
          (Re.sub Patterns.number [] lowered))).
Proof.
  cbv zeta.
  assert (E : Re.sub Patterns.email [] (Re.sub Patterns.url [] (PyStr.lower (clean_text text)))
              = Re.sub Patterns.url [] (PyStr.lower (clean_text text))).
  { rewrite sub_email. apply remove_emails_idle, cleaned_no_at. }
  split; [exact E|]. unfold preprocess_text. now rewrite E.
Qed.


(** X13. Boilerplate is detected whatever the case of the letters and
    whatever surrounds it. *)
Theorem is_boilerplate_embedded (before text after : str) :
  is_boilerplate text = true ->
  is_boilerplate (PyStr.lower text) = true /\
  is_boilerplate (before ++ text ++ after) = true.
Proof.
  intros H. apply is_boilerplate_iff in H as [i [x [y [Hi E]]]]. split.
  - apply is_boilerplate_iff. exists i, x, y. split; [exact Hi|]. now rewrite lower_idem.
  - apply is_boilerplate_iff. exists i, (PyStr.lower before ++ x), (y ++ PyStr.lower after).
    split; [exact Hi|]. unfold PyStr.lower in *. rewrite !map_app, E.
    now rewrite <- !app_assoc.
Qed.

Lemma is_boilerplate_embedded_witness :
  is_boilerplate (PyStr.lit "READ MORE") = true /\
  is_boilerplate (PyStr.lit "Click to " ++ PyStr.lit "Read More" ++ PyStr.lit " ...") = true.
Proof.
  split; [reflexivity|].
  apply (is_boilerplate_embedded (PyStr.lit "Click to ") (PyStr.lit "Read More")
                                 (PyStr.lit " ...")).
  reflexivity.
Defined.

(** ** Titles and content are clean *)

Section ScraperFacts.
Context {web : Web}.
Import PyStr.
Local Open Scope nat_scope.

Lemma default_title_clean :
  clean_text (lit "Untitled Article") = lit "Untitled Article".
Proof. vm_compute. reflexivity. Qed.

Lemma first_title_clean (soup : Soup) (title_candidates : list (option Tag)) (t : str) :
  first_title soup title_candidates = Ok t ->
  clean_text t = t /\
  (t = lit "Untitled Article" \/ exists raw, raw <> [] /\ t = clean_text raw).
Proof.
  induction title_candidates as [|[candidate|] rest IH]; cbn [first_title].
  - intros E. injection E as <-. split; [apply default_title_clean | now left].
  - unfold bind.
    destruct (if str_eqb (tag_name soup candidate) (lit "meta")
              then tag_get soup candidate (lit "content") []
              else tag_get_text soup candidate) as [[|c raw]|]; [exact IH | | discriminate].
    clear IH. intros E. injection E as <-.
    split; [exact (clean_text_idempotent (c :: raw))|].
    right. exists (c :: raw). split; [discriminate | reflexivity].
  - exact IH.
Qed.

Lemma extract_title_result (soup : Soup) (t : str) :
  extract_title soup = Ok t ->
  clean_text t = t /\
  (t = lit "Untitled Article" \/ exists raw, raw <> [] /\ t = clean_text raw).
Proof.
  unfold extract_title, bind.
  destruct (soup_find soup (lit "h1")); [|discriminate].
  destruct (soup_find_attr soup (lit "meta") (lit "property") (lit "og:title"));
    [|discriminate].
  destruct (soup_find_attr soup (lit "meta") (lit "name") (lit "title"));
    [|discriminate].
  destruct (soup_find soup (lit "title")); [|discriminate].
  apply first_title_clean.
Qed.

Lemma extract_content_clean (soup : Soup) (t : str) :
  extract_content soup = Ok t -> clean_text t = t.
Proof.
  unfold extract_content, bind.
  destruct (remove_unwanted soup) as [soup'|]; [|discriminate].
  destruct (locate_content soup') as [[content|]|]; [| |discriminate].
  - destruct (tag_find_all soup' content paragraph_tags) as [paragraphs|]; [|discriminate].
    destruct (match paragraphs with
              | [] => tag_get_text soup' content
              | _ :: _ =>
                  match mapM (tag_get_text soup') paragraphs with
                  | Ok texts => Ok (PyText.join (lit " ") texts)
                  | Raise => Raise
                  end
              end) as [text|]; [|discriminate].
    intros E. injection E as <-. exact (clean_text_idempotent text).
  - intros E. now injection E as <-.
Qed.

Lemma fetch_article_total (url : str) : exists r, fetch_article url = Ok r.
Proof.
  unfold fetch_article, try_except.
  match goal with |- exists r, match ?b with _ => _ end = _ => destruct b end;
    eexists; reflexivity.
Qed.

Lemma fetch_article_some (url : str) (a : Article.t) :
  fetch_article url = Ok (Some a) ->
  exists response soup,
    requests_get url = Ok response /\
    raise_for_status response = Ok tt /\
    BeautifulSoup response = Ok soup /\
    extract_title soup = Ok (Article.title a) /\
    extract_content soup = Ok (Article.text a) /\
    Article.text a <> [] /\
    100 <= length (strip (Article.text a)) /\
    Article.url a = url.
Proof.
  unfold fetch_article, try_except, bind.
  destruct (requests_get url) as [response|] eqn:E1; [|discriminate].
  destruct (raise_for_status response) as [u|] eqn:E2; [destruct u|discriminate].
  destruct (BeautifulSoup response) as [soup|] eqn:E3; [|discriminate].
  destruct (extract_title soup) as [title|] eqn:E4; [|discriminate].
  destruct (extract_content soup) as [[|c text]|] eqn:E5; try discriminate.
  destruct (length (strip (c :: text)) <? 100) eqn:El; [discriminate|].
  intros E. injection E as <-. cbn [Article.title Article.text Article.url].
  exists response, soup. apply Nat.ltb_ge in El.
  do 5 (split; [first [assumption | reflexivity]|]). split; [discriminate|]. split; [exact El | reflexivity].
Qed.

Lemma fetch_article_clean (url : str) (a : Article.t) :
  fetch_article url = Ok (Some a) ->
  Article.url a = url /\
  100 <= length (Article.text a) /\
  clean_text (Article.text a) = Article.text a /\
  clean_text (Article.title a) = Article.title a.
Proof.
  intros H. apply fetch_article_some in H
    as [response [soup [_ [_ [_ [Ht [Hc [_ [Hl Hu]]]]]]]]].
  apply extract_content_clean in Hc. apply extract_title_result in Ht as [Ht _].
  rewrite <- Hc, clean_text_strip, Hc in Hl. now repeat split.
Qed.

End ScraperFacts.



(** X15. The first candidate whose raw text is not empty gives the title,
    also when cleaning leaves nothing of it: a first heading of white space
    yields the empty title, not a later candidate and not the default. *)
Theorem extract_title_first_text (web : Web) (soup : Soup) (h1 : Tag)
  (og_title meta_title title : option Tag) (raw : str) :
  soup_find soup (PyStr.lit "h1") = Ok (Some h1) ->
  soup_find_attr soup (PyStr.lit "meta") (PyStr.lit "property") (PyStr.lit "og:title")
    = Ok og_title ->
  soup_find_attr soup (PyStr.lit "meta") (PyStr.lit "name") (PyStr.lit "title")
    = Ok meta_title ->
  soup_find soup (PyStr.lit "title") = Ok title ->
  tag_name soup h1 = PyStr.lit "h1" ->
  tag_get_text soup h1 = Ok raw ->
  raw <> [] ->
  extract_title soup = Ok (clean_text raw) /\
  (Forall (fun c => PyStr.is_space c = true) raw -> extract_title soup = Ok []).
Proof.
  intros H1 H2 H3 H4 Hn Ht Hraw.
  assert (E : extract_title soup = Ok (clean_text raw)).
  { unfold extract_title, bind. rewrite H1, H2, H3, H4. cbn [first_title].
    rewrite Hn. unfold bind. change (PyStr.str_eqb (PyStr.lit "h1") (PyStr.lit "meta")) with false.
    cbv iota. rewrite Ht. destruct raw; [contradiction | reflexivity]. }
  split; [exact E|]. intros Hs. rewrite E. f_equal.
  rewrite clean_text_unwords. unfold Clean.chunks.
  assert (Hk : Forall (fun c => Clean.kept c = false) raw).
  { eapply Forall_impl; [|exact Hs]. intros c Hc.
    destruct (Clean.kept c) eqn:K; [|reflexivity].
    apply kept_visible in K. congruence. }
  destruct raw as [|c raw]; [contradiction|].
  rewrite <- (app_nil_r (c :: raw)).
  rewrite (group_app Clean.kept false); [|discriminate|exact Hk|exact I].
  cbn [Normal.group filter Clean.kept_run]. inversion Hk as [|? ? Hc _]; subst.
  now rewrite Hc.
Qed.

Lemma extract_title_first_text_witness :
  @extract_title DemoWeb.web DemoWeb.blank_heading_page = Ok [].
Proof.
  apply (extract_title_first_text DemoWeb.web DemoWeb.blank_heading_page 5%nat
           None None (Some 3%nat) (PyStr.lit "   ")).
  - vm_compute. reflexivity.
  - vm_compute. reflexivity.
  - vm_compute. reflexivity.
  - vm_compute. reflexivity.
  - vm_compute. reflexivity.
  - vm_compute. reflexivity.
  - discriminate.
  - repeat constructor.
Defined.

(** X16. The four class selectors are passed to [soup.find] as tag names,
    the dot included.  In a document without elements of such a name they
    find nothing, and the content is looked up by the other four selectors
    only. *)
Theorem class_selectors_idle (web : Web) (soup : Soup) :
  (forall name, PyText.startswith (PyStr.lit ".") name = true ->
                soup_find soup name = Ok None) ->
  find_content soup ARTICLE_SELECTORS =
  find_content soup
    [ PyStr.lit "article"; attribute_selector "role" "article";
      PyStr.lit "main"; attribute_selector "itemprop" "articleBody" ].
Proof.
  intros H. unfold ARTICLE_SELECTORS. cbn [find_content].
  destruct (lookup soup (PyStr.lit "article")) as [[content|]|]; try reflexivity.
  - destruct (lookup soup (attribute_selector "role" "article")) as [[content|]|];
      try reflexivity;
      unfold lookup at 1 2 3 4;
      change (PyText.startswith (PyStr.lit "[") (PyStr.lit ".article-body")) with false;
      change (PyText.startswith (PyStr.lit "[") (PyStr.lit ".article-content")) with false;
      change (PyText.startswith (PyStr.lit "[") (PyStr.lit ".post-content")) with false;
      change (PyText.startswith (PyStr.lit "[") (PyStr.lit ".entry-content")) with false;
      cbv iota; now rewrite !H.
  - destruct (lookup soup (attribute_selector "role" "article")) as [[content|]|];
      try reflexivity;
      unfold lookup at 1 2 3 4;
      change (PyText.startswith (PyStr.lit "[") (PyStr.lit ".article-body")) with false;
      change (PyText.startswith (PyStr.lit "[") (PyStr.lit ".article-content")) with false;
      change (PyText.startswith (PyStr.lit "[") (PyStr.lit ".post-content")) with false;
      change (PyText.startswith (PyStr.lit "[") (PyStr.lit ".entry-content")) with false;
      cbv iota; now rewrite !H.
Qed.

Lemma class_selectors_idle_witness :
  @find_content DemoWeb.web DemoWeb.article_page ARTICLE_SELECTORS = Some 8%nat.
Proof.
  rewrite (class_selectors_idle DemoWeb.web DemoWeb.article_page).
  - vm_compute. reflexivity.
  - intros name Hn. cbn [soup_find DemoWeb.web]. f_equal.
    destruct name as [|c name]; [discriminate|].
    cbn [PyText.startswith PyStr.lit list_ascii_of_string] in Hn.
    apply andb_true_iff in Hn as [Hc _]. apply Ascii.eqb_eq in Hc. subst c.
    unfold DemoWeb.first_id.
    destruct (find (fun n => PyStr.str_eqb (DemoWeb.node_name n) ("."%char :: name))
                   (DemoWeb.all_elements DemoWeb.article_page)) eqn:E; [|reflexivity].
    apply find_some in E as [Hin Hs]. apply str_eqb_eq in Hs.
    exfalso. revert Hin Hs. vm_compute. intuition (subst; discriminate).
Defined.

(** ** [fetch_article] *)

(** X17. An article that [fetch_article] returns carries the requested URL,
    a clean title and a clean text of at least 100 characters. *)
Theorem fetch_article_success (web : Web) (url : str) (a : Article.t) :
  fetch_article url = Ok (Some a) ->
  Article.url a = url /\
  (100 <= length (Article.text a))%nat /\
  clean_text (Article.text a) = Article.text a /\
  clean_text (Article.title a) = Article.title a.
Proof. apply fetch_article_clean. Qed.

Lemma fetch_article_success_witness :
  exists a,
    @fetch_article DemoWeb.web (PyStr.lit "http://demo/article") = Ok (Some a) /\
    Article.title a = PyStr.lit "Tea and rice" /\
    (100 <= length (Article.text a))%nat.
Proof.
  eexists. split; [vm_compute; reflexivity|]. split; [reflexivity|].
  eapply (fetch_article_success DemoWeb.web (PyStr.lit "http://demo/article")).
  vm_compute. reflexivity.
Defined.

(** X18. Once the page is fetched and parsed and both extractions return,
    the length of the text alone decides: the text is clean, so stripping it
    changes nothing and the emptiness test is covered by the length test. *)
Theorem fetch_article_by_length (web : Web) (url : str) (response : Response)
  (soup : Soup) (title text : str) :
  requests_get url = Ok response ->
  raise_for_status response = Ok tt ->
  BeautifulSoup response = Ok soup ->
  extract_title soup = Ok title ->
  extract_content soup = Ok text ->
  fetch_article url =
  Ok (if (length text <? 100)%nat then None
      else Some {| Article.title := title; Article.text := text; Article.url := url |}).
Proof.
  intros H1 H2 H3 H4 H5. unfold fetch_article, try_except, bind.
  rewrite H1, H2, H3, H4, H5.
  apply extract_content_clean in H5.
  assert (Hs : PyStr.strip text = text) by (rewrite <- H5; apply clean_text_strip).
  rewrite Hs. destruct text as [|c text]; [reflexivity|].
  now destruct (length (c :: text) <? 100)%nat.
Qed.

Lemma fetch_article_by_length_witness :
  @fetch_article DemoWeb.web (PyStr.lit "http://demo/blank") = Ok None.
Proof.
  rewrite (fetch_article_by_length DemoWeb.web (PyStr.lit "http://demo/blank")
             (Some DemoWeb.blank_heading_page) DemoWeb.blank_heading_page
             [] (PyStr.lit "Short.")).
  - reflexivity.
  - reflexivity.
  - reflexivity.
  - reflexivity.
  - vm_compute. reflexivity.
  - vm_compute. reflexivity.
Defined.

(** X19. [fetch_article] never raises: a failed request, an error status,
    and any exception of the parser or of an extraction end in [None]. *)
Theorem fetch_article_contained (web : Web) (url : str) :
  (exists r, fetch_article url = Ok r) /\
  (requests_get url = Raise -> fetch_article url = Ok None) /\
  (forall response,
      requests_get url = Ok response ->
      raise_for_status response = Raise \/
      BeautifulSoup response = Raise \/
      (exists soup, BeautifulSoup response = Ok soup /\
                    (extract_title soup = Raise \/ extract_content soup = Raise)) ->
      fetch_article url = Ok None).
Proof.
  split; [apply fetch_article_total|]. unfold fetch_article, try_except, bind. split.
  - now intros ->.
  - intros response -> [H | [H | [soup [Hs [H | H]]]]].
    + now rewrite H.
    + destruct (raise_for_status response); [now rewrite H | reflexivity].
    + destruct (raise_for_status response); [|reflexivity]. now rewrite Hs, H.
    + destruct (raise_for_status response); [|reflexivity]. rewrite Hs, H.
      now destruct (extract_title soup).
Qed.

(** ** The endpoint *)

Section MainFacts.
Context {nlp : NLP} {web : Web}.
Local Open Scope nat_scope.

Lemma map_word_data (l : list WordData) :
  map (fun word_data => {| word := word word_data;
                           weight := weight word_data;
                           frequency := frequency word_data |}) l = l.
Proof. induction l as [|[w q f] l IH]; [reflexivity|]. cbn [map]. now rewrite IH. Qed.

Lemma analyze_text_some (text : str) (max_words : Z) (a : Analysis) :
  analyze_text text max_words = Ok (Some a) ->
  words a <> [] /\
  extract_keywords_tfidf (preprocess_text text) max_words = Ok (words a).
Proof.
  rewrite analyze_text_eq. destruct (preprocess_text text) as [|c cleaned]; [discriminate|].
  destruct (word_tokenize (c :: cleaned)); [|discriminate].
  destruct (extract_keywords_tfidf (c :: cleaned) max_words) as [[|k ks]|]; try discriminate.
  intros E. injection E as <-. split; [discriminate | reflexivity].
Qed.

Lemma keywords_length (text : str) (max_words : Z) (l : list WordData) :
  (0 <= max_words)%Z ->
  extract_keywords_tfidf text max_words = Ok l -> length l <= Z.to_nat max_words.
Proof.
  intros Hn E. pose proof (extract_keywords_tfidf_path text max_words) as P.
  rewrite E in P. inversion P as [Hf | sentences features Hs Hl Hfeat Hf].
  - rewrite extract_keywords_frequency_eq in Hf. cbv zeta in Hf. injection Hf as <-.
    rewrite length_map, slice_to_length by exact Hn. lia.
  - rewrite slice_to_length by exact Hn. lia.
Qed.

(** [analyze_article] in closed form. *)
Lemma analyze_article_eq (request_url : str) :
  analyze_article request_url =
  match fetch_article request_url with
  | Ok (Some article_data) =>
      match analyze_text (Article.text article_data) 50 with
      | Ok (Some analysis_result) =>
          Api.Returns {| Api.words := words analysis_result;
                         Api.article_title := Article.title article_data;
                         Api.word_count := word_count analysis_result;
                         Api.url := request_url |}
      | _ => Api.HTTPException 500
      end
  | _ => Api.HTTPException 400
  end.
Proof.
  unfold analyze_article.
  destruct (fetch_article_total request_url) as [[a|] E]; rewrite E; [|reflexivity].
  destruct (fetch_article_some _ _ E) as [response [soup [_ [_ [_ [_ [_ [Hne _]]]]]]]].
  destruct (Article.text a) as [|c text] eqn:Et; [contradiction|].
  destruct (analyze_text (c :: text) 50) as [[an|]|] eqn:Ea; try reflexivity.
  apply analyze_text_some in Ea as [Hw _]. rewrite map_word_data.
  destruct (words an); [contradiction | reflexivity].
Qed.

End MainFacts.

(** X20. A request ends in status 400 exactly when [fetch_article] returns
    [None], in status 500 exactly when the article was fetched and
    [analyze_text] returns [None], and in no other error: the second test of
    each guard and the last handler are never reached. *)
Theorem analyze_article_outcomes (nlp : NLP) (web : Web) (request_url : str) :
  (analyze_article request_url = Api.HTTPException 400 <->
   fetch_article request_url = Ok None) /\
  (analyze_article request_url = Api.HTTPException 500 <->
   exists article_data,
     fetch_article request_url = Ok (Some article_data) /\
     analyze_text (Article.text article_data) 50 = Ok None) /\
  (forall status_code,
      analyze_article request_url = Api.HTTPException status_code ->
      status_code = 400%Z \/ status_code = 500%Z).
Proof.
  rewrite analyze_article_eq.
  destruct (fetch_article_total request_url) as [[a|] E]; rewrite E.
  - destruct (analyze_text_total (Article.text a) 50) as [[an|] Ea]; rewrite Ea.
    + split; [split; discriminate|]. split; [|discriminate].
      split; [discriminate|]. intros [a' [E1 E2]]. injection E1 as <-.
      rewrite Ea in E2. discriminate.
    + split; [split; discriminate|]. split.
      * split; [|reflexivity]. intros _. now exists a.
      * intros c H. injection H as <-. now right.
  - split; [split; reflexivity|]. split.
    + split; [discriminate|]. intros [a [E1 _]]. discriminate.
    + intros c H. injection H as <-. now left.
Qed.

(** X21. A response echoes the requested URL and carries the clean title of
    the fetched article, between 1 and 50 keywords with normalised weights,
    and the word count of the analysis of the article text. *)
Theorem analyze_article_response (nlp : NLP) (web : Web) (request_url : str)
  (response : Api.AnalyzeResponse) :
  analyze_article request_url = Api.Returns response ->
  Api.url response = request_url /\
  clean_text (Api.article_title response) = Api.article_title response /\
  (1 <= length (Api.words response) <= 50)%nat /\
  Spec.normalized (Api.words response) /\
  exists article_data,
    fetch_article request_url = Ok (Some article_data) /\
    Api.article_title response = Article.title article_data /\
    analyze_text (Article.text article_data) 50 =
      Ok (Some {| words := Api.words response; word_count := Api.word_count response |}).
Proof.
  rewrite analyze_article_eq.
  destruct (fetch_article request_url) as [[a|]|] eqn:E; try discriminate.
  destruct (analyze_text (Article.text a) 50) as [[an|]|] eqn:Ea; try discriminate.
  intros H. injection H as <-. cbn [Api.url Api.article_title Api.words Api.word_count].
  destruct (fetch_article_clean _ _ E) as [_ [_ [_ Ht]]].
  destruct (analyze_text_some _ _ _ Ea) as [Hne Hk].
  split; [reflexivity|]. split; [exact Ht|]. split.
  { pose proof (keywords_length _ 50%Z _ ltac:(lia) Hk) as Hl.
    change (Z.to_nat 50) with 50%nat in Hl.
    destruct (words an); [contradiction | cbn [length] in *; lia]. }
  split; [eapply tfidf_normalized; eassumption|].
  exists a. split; [reflexivity|]. split; [reflexivity|]. rewrite Ea. clear. now destruct an.
Qed.

Lemma analyze_article_response_witness :
  exists response,
    @analyze_article Demo.env DemoWeb.web (PyStr.lit "http://demo/article") =
      Api.Returns response /\
    Api.url response = PyStr.lit "http://demo/article" /\
    (1 <= length (Api.words response) <= 50)%nat.
Proof.
  destruct (@analyze_article Demo.env DemoWeb.web (PyStr.lit "http://demo/article"))
    as [response|code] eqn:E; [|vm_compute in E; discriminate].
  exists response. split; [reflexivity|].
  destruct (analyze_article_response Demo.env DemoWeb.web
              (PyStr.lit "http://demo/article") response E) as [Hu [_ [Hl _]]].
  split; [exact Hu | exact Hl].
Defined.

(** ** The text of the paragraphs *)

Section ParagraphFacts.
Import PyStr Normal Clean.
Local Open Scope nat_scope.

Lemma chunks_drop1 (c : ascii) (z : str) : kept c = false -> chunks (c :: z) = chunks z.
Proof.
  intros Hc. unfold chunks. rewrite group_cons, Hc. cbn [filter kept_run]. rewrite Hc.
  pose proof (take_drop kept false z) as E.
  pose proof (take_run_class kept false z) as Ht.
  pose proof (drop_run_other kept false z) as Hd.
  destruct (take_run kept false z) as [|d t].
  - cbn [app] in E. now rewrite E.
  - rewrite <- E at 2. rewrite (group_app kept false); [|discriminate|exact Ht|exact Hd].
    cbn [filter kept_run]. inversion Ht as [|? ? Hk _]; subst. now rewrite Hk.
Qed.

Lemma chunks_drop (g z : str) :
  Forall (fun c => kept c = false) g -> chunks (g ++ z) = chunks z.
Proof.
  induction 1 as [|c g Hc Hg IH]; [reflexivity|].
  cbn [app]. now rewrite chunks_drop1.
Qed.

(** A dropped character separates the chunks on its two sides. *)
Lemma chunks_app_sep (x : str) (c : ascii) (y : str) :
  kept c = false -> chunks (x ++ c :: y) = chunks x ++ chunks y.
Proof.
  intros Hc.
  induction x as [|b g rest Hne Hg Hr IH] using (run_induction kept).
  - now apply chunks_drop1.
  - rewrite <- app_assoc. destruct b.
    + rewrite (chunks_run true g (rest ++ c :: y)), (chunks_run true g rest), IH;
        try assumption; [now rewrite app_assoc|].
      destruct rest as [|d rest]; [exact Hc | exact Hr].
    + now rewrite (chunks_drop g (rest ++ c :: y)), (chunks_drop g rest), IH.
Qed.

Lemma chunks_join (texts : list str) :
  chunks (PyText.join (lit " ") texts) = flat_map chunks texts.
Proof.
  induction texts as [|x [|y texts] IH]; [reflexivity | |].
  - cbn [PyText.join flat_map]. now rewrite app_nil_r.
  - change (PyText.join (lit " ") (x :: y :: texts))
      with (x ++ " "%char :: PyText.join (lit " ") (y :: texts)).
    rewrite chunks_app_sep by reflexivity. now rewrite IH.
Qed.

End ParagraphFacts.

(** X22. When the content element has paragraphs or headings, the extracted
    text is made of the chunks of their texts, in document order, joined by
    single spaces: the boundary between two paragraphs leaves no trace. *)
Theorem extract_content_paragraphs (web : Web) (soup cleared : Soup) (content : Tag)
  (paragraphs : list Tag) (texts : list str) :
  remove_unwanted soup = Ok cleared ->
  locate_content cleared = Ok (Some content) ->
  tag_find_all cleared content paragraph_tags = Ok paragraphs ->
  paragraphs <> [] ->
  mapM (tag_get_text cleared) paragraphs = Ok texts ->
  extract_content soup = Ok (Normal.unwords (flat_map Clean.chunks texts)).
Proof.
  intros H1 H2 H3 Hne H4. unfold extract_content, bind. rewrite H1, H2, H3.
  destruct paragraphs as [|p paragraphs]; [contradiction|].
  rewrite H4. now rewrite clean_text_unwords, chunks_join.
Qed.

Lemma extract_content_paragraphs_witness :
  @extract_content DemoWeb.web DemoWeb.blank_heading_page = Ok (PyStr.lit "Short.").
Proof.
  rewrite (extract_content_paragraphs DemoWeb.web DemoWeb.blank_heading_page
             DemoWeb.blank_heading_page 4%nat [5%nat; 6%nat]
             [PyStr.lit "   "; PyStr.lit "Short."]).
  - vm_compute. reflexivity.
  - vm_compute. reflexivity.
  - vm_compute. reflexivity.
  - vm_compute. reflexivity.
  - discriminate.
  - vm_compute. reflexivity.
Defined.
